(** * gsheet-bridge-js: the sheet-to-record mapping layer of [src/index.js]

    A shallow embedding of the JavaScript module and the properties of its
    column-letter codec, value matcher, query filter, record projector,
    identifier generator and store facade.

    Modelling conventions.
    - JavaScript strings are [string]s whose characters stand for the code
      units below 256.
    - The scalars are [undefined], [null], booleans, numbers and strings.
      A finite number is the rational that the double holds;
      [Number(string)] parses the numeric-string grammar and rounds to the
      nearest double, [toString()] prints the shortest digits that read
      back as the same double. A value is a scalar or one of the twelve
      members of [Object.prototype] ([constructor], [hasOwnProperty],
      [toString], [__proto__], ...), which is what reading a name that an
      object does not define can give.
    - A record is the finite map of the own properties of a plain object
      ([gmap string value]); a key bound to [VUndefined] is an own property
      holding [undefined]. Reading a key that is not bound goes to
      [Object.prototype]: a member for a member's name, [undefined]
      otherwise. Assigning under the name [__proto__] reaches the accessor
      of [Object.prototype] and makes no own property.
    - A query or a patch is an object whose own enumerable properties are
      listed in [for ... in] order, followed by the enumerable properties
      that it inherits from its prototype chain, which ends at
      [Object.prototype] or at [null]; the properties hold scalars. Its
      [hasOwnProperty] is looked up like any property: when a property of
      that name hides the built-in, or the chain ends at [null], the call
      throws a TypeError.
    - The objects that a caller passes to [insert] live in a heap and are
      passed by location: writing a field changes the object for everyone
      who holds it.
    - [values.get] answers with the current range and the remote calls
      succeed; every remote call and every console notice is recorded in a
      log, in order. What a write does to the range afterwards belongs to
      the remote service.
    - [crypto.randomBytes(4)] takes the next of a list of draws; a loop that
      has used up the list without leaving is [Pending]. *)

From Stdlib Require Import NArith ZArith QArith Qround Qabs Ascii String.
From Stdlib Require Import DecimalString DecimalN.
From Stdlib.Strings Require Import Byte.
From Equations Require Import Equations.
From stdpp Require Import base option list strings gmap.

Local Open Scope string_scope.
Local Open Scope list_scope.

(** ** The JavaScript runtime operations the module relies on *)

Module JS.

(** White space and line terminators, as [String.prototype.trim] and the
    numeric-string grammar strip them. *)
Definition isWhiteSpace (c : ascii) : bool :=
  let n := N_of_ascii c in
  ((n =? 9) || (n =? 10) || (n =? 11) || (n =? 12) || (n =? 13)
   || (n =? 32) || (n =? 160))%N.

Fixpoint trimStart (s : string) : string :=
  match s with
  | EmptyString => EmptyString
  | String c rest => if isWhiteSpace c then trimStart rest else s
  end.

Fixpoint trimEnd (s : string) : string :=
  match s with
  | EmptyString => EmptyString
  | String c rest =>
      match trimEnd rest with
      | EmptyString => if isWhiteSpace c then EmptyString else String c EmptyString
      | kept => String c kept
      end
  end.

Definition trim (s : string) : string := trimEnd (trimStart s).

(** Numbers: the finite values are the rationals that a double holds (the
    two zeros are one value: they are [===] and print alike). *)
Inductive number :=
| NaN
| Infinity (negative : bool)
| Finite (q : Q).

Definition isNaN (n : number) : bool :=
  match n with NaN => true | _ => false end.

(** [===] on numbers. *)
Definition numberEquals (a b : number) : bool :=
  match a, b with
  | Finite p, Finite q => Qeq_bool p q
  | Infinity s, Infinity t => Bool.eqb s t
  | _, _ => false
  end.

(** Nearest integer, ties to even. *)
Definition roundHalfEven (q : Q) : Z :=
  let f := Qfloor q in
  match Qcompare (q - inject_Z f) (1 # 2) with
  | Lt => f
  | Gt => (f + 1)%Z
  | Eq => if Z.even f then f else (f + 1)%Z
  end.

Definition pow2 (e : Z) : Q := Qpower 2 e.
Definition pow10 (e : Z) : Q := Qpower 10 e.

(** [binaryExponent a] is the [e] with [2^e <= a < 2^(e+1)], for [a > 0]. *)
Definition binaryExponent (a : Q) : Z :=
  let e := (Z.log2 (Qnum a) - Z.log2 (Zpos (Qden a)))%Z in
  if Qle_bool (pow2 e) a then e else (e - 1)%Z.

(** The Number value of a real: round to nearest binary64, ties to even,
    with gradual underflow and overflow to infinity. *)
Definition toDouble (q : Q) : number :=
  if Qeq_bool q 0 then Finite 0
  else
    let a := Qabs q in
    let s := Z.max (binaryExponent a - 52) (-1074) in
    let r := (inject_Z (roundHalfEven (a / pow2 s)) * pow2 s)%Q in
    if Qle_bool (pow2 1024) r then Infinity (Qle_bool q 0)
    else Finite (Qred (if Qle_bool q 0 then - r else r)).

(** *** Strings to numbers ([Number(string)]) *)

Definition digitOf (c : ascii) : option N :=
  let n := N_of_ascii c in
  if ((48 <=? n) && (n <=? 57))%N then Some (n - 48)%N
  else if ((97 <=? n) && (n <=? 102))%N then Some (n - 87)%N
  else if ((65 <=? n) && (n <=? 70))%N then Some (n - 55)%N
  else None.

(** The digits of [s] in [base], most significant first; [None] when a
    character is not a digit of that base. *)
Fixpoint digitsValue (base acc : N) (s : string) : option N :=
  match s with
  | EmptyString => Some acc
  | String c rest =>
      match digitOf c with
      | Some d => if (d <? base)%N then digitsValue base (acc * base + d)%N rest
                  else None
      | None => None
      end
  end.

Definition isDecimalDigit (c : ascii) : bool :=
  ((48 <=? N_of_ascii c) && (N_of_ascii c <=? 57))%N.

(** Splits off the leading decimal digits. *)
Fixpoint spanDigits (s : string) : string * string :=
  match s with
  | String c rest =>
      if isDecimalDigit c
      then let '(ds, tl) := spanDigits rest in (String c ds, tl)
      else (EmptyString, s)
  | EmptyString => (EmptyString, EmptyString)
  end.

Definition decimalValue (ds : string) : Z :=
  match digitsValue 10 0 ds with Some n => Z.of_N n | None => 0%Z end.

(** ExponentPart, or nothing: [e], an optional sign, at least one digit. *)
Definition parseExponent (s : string) : option Z :=
  match s with
  | EmptyString => Some 0%Z
  | String c rest =>
      if (Ascii.eqb c "e" || Ascii.eqb c "E")%bool then
        let '(negative, body) :=
          match rest with
          | String "-" r => (true, r)
          | String "+" r => (false, r)
          | _ => (false, rest)
          end in
        match spanDigits body with
        | (String d ds, EmptyString) =>
            let e := decimalValue (String d ds) in
            Some (if negative : bool then (- e)%Z else e)
        | _ => None
        end
      else None
  end.

(** StrUnsignedDecimalLiteral, [Infinity] apart: digits with an optional
    fraction, or a fraction alone, and an optional exponent. *)
Definition parseUnsignedDecimal (s : string) : option Q :=
  let '(ip, afterInt) := spanDigits s in
  let '(dot, fp, afterFrac) :=
    match afterInt with
    | String "." r => let '(f, tl) := spanDigits r in (true, f, tl)
    | _ => (false, EmptyString, afterInt)
    end in
  match ip, fp with
  | EmptyString, EmptyString => None
  | _, _ =>
      match parseExponent afterFrac with
      | Some e =>
          Some (inject_Z (decimalValue (ip +:+ fp))
                * pow10 (e - Z.of_nat (String.length fp)))%Q
      | None => None
      end
  end.

Definition parsePrefixed (base : N) (ds : string) : number :=
  match ds with
  | EmptyString => NaN
  | _ => match digitsValue base 0 ds with
         | Some n => toDouble (inject_Z (Z.of_N n))
         | None => NaN
         end
  end.

Definition parseSigned (negative : bool) (s : string) : number :=
  if String.eqb s "Infinity" then Infinity negative
  else match parseUnsignedDecimal s with
       | Some q => toDouble (if negative then - q else q)
       | None => NaN
       end.

(** StringToNumber. *)
Definition stringToNumber (str : string) : number :=
  match trim str with
  | EmptyString => Finite 0
  | String "0" (String "x" ds) | String "0" (String "X" ds) => parsePrefixed 16 ds
  | String "0" (String "o" ds) | String "0" (String "O" ds) => parsePrefixed 8 ds
  | String "0" (String "b" ds) | String "0" (String "B" ds) => parsePrefixed 2 ds
  | String "-" s => parseSigned true s
  | String "+" s => parseSigned false s
  | s => parseSigned false s
  end.

(** *** Numbers to strings ([Number.prototype.toString()]) *)

Definition decimalOfZ (z : Z) : string :=
  NilEmpty.string_of_uint (N.to_uint (Z.to_N z)).

Definition digitCount (p : positive) : Z :=
  Z.of_nat (Decimal.nb_digits (Pos.to_uint p)).

(** [decimalExponent x] is the [n] with [10^(n-1) <= x < 10^n], for [x > 0]. *)
Definition decimalExponent (x : Q) : Z :=
  let e := (digitCount (Z.to_pos (Qnum x)) - digitCount (Qden x))%Z in
  if Qle_bool (pow10 e) x then (e + 1)%Z else e.

(** The least [k] and the [k]-digit integer [s] with [s * 10^(n-k)] of
    Number value [x], the nearest to [x] when two qualify. *)
Fixpoint shortestDigits (fuel : nat) (k n : Z) (x : Q) : Z * Z :=
  let scale := pow10 (n - k) in
  let lo := Qfloor (x / scale) in
  let hi := (lo + 1)%Z in
  let isX (s : Z) := numberEquals (toDouble (inject_Z s * scale)) (Finite x) in
  let okHi := ((hi <? 10 ^ k)%Z && isX hi)%bool in
  match isX lo, okHi, fuel with
  | true, true, _ =>
      match Qcompare (x - inject_Z lo * scale) (inject_Z hi * scale - x) with
      | Lt => (k, lo)
      | Gt => (k, hi)
      | Eq => (k, if Z.even lo then lo else hi)
      end
  | true, false, _ => (k, lo)
  | false, true, _ => (k, hi)
  | false, false, S fuel' => shortestDigits fuel' (k + 1)%Z n x
  | false, false, O => (k, lo)
  end.

Fixpoint zeros (n : nat) : string :=
  match n with O => EmptyString | S m => String "0" (zeros m) end.

Definition formatDigits (n k : Z) (digits : string) : string :=
  if ((k <=? n) && (n <=? 21))%Z then digits +:+ zeros (Z.to_nat (n - k))
  else if ((0 <? n) && (n <=? 21))%Z then
    substring 0 (Z.to_nat n) digits +:+ "."
      +:+ substring (Z.to_nat n) (Z.to_nat (k - n)) digits
  else if ((-6 <? n) && (n <=? 0))%Z then
    "0." +:+ zeros (Z.to_nat (- n)) +:+ digits
  else
    let e := (n - 1)%Z in
    let mantissa :=
      if (k =? 1)%Z then digits
      else substring 0 1 digits +:+ "." +:+ substring 1 (Z.to_nat (k - 1)) digits in
    mantissa +:+ "e" +:+ (if (e <? 0)%Z then "-" else "+") +:+ decimalOfZ (Z.abs e).

Definition positiveToString (x : Q) : string :=
  let n := decimalExponent x in
  if numberEquals (toDouble (pow10 n)) (Finite x) then formatDigits (n + 1) 1 "1"
  else let '(k, s) := shortestDigits 17 1 n x in formatDigits n k (decimalOfZ s).

Definition numberToString (x : number) : string :=
  match x with
  | NaN => "NaN"
  | Infinity negative => if negative then "-Infinity" else "Infinity"
  | Finite q =>
      match Qcompare q 0 with
      | Eq => "0"
      | Lt => "-" +:+ positiveToString (- q)
      | Gt => positiveToString q
      end
  end.

(** *** Values *)

(** The scalars: what a cell, a query, a patch or a caller's record holds. *)
Inductive scalar :=
| VUndefined
| VNull
| VBoolean (b : bool)
| VNumber (n : number)
| VString (s : string).

(** The properties that every object inherits from [Object.prototype]:
    eleven built-in functions, and [__proto__], which reads as
    [Object.prototype] itself. None of them is enumerable. *)
Inductive member :=
| Mconstructor
| MdefineGetter
| MdefineSetter
| MhasOwnProperty
| MlookupGetter
| MlookupSetter
| MisPrototypeOf
| MpropertyIsEnumerable
| MtoString
| MvalueOf
| Mproto
| MtoLocaleString.

Definition memberName (m : member) : string :=
  match m with
  | Mconstructor => "constructor"
  | MdefineGetter => "__defineGetter__"
  | MdefineSetter => "__defineSetter__"
  | MhasOwnProperty => "hasOwnProperty"
  | MlookupGetter => "__lookupGetter__"
  | MlookupSetter => "__lookupSetter__"
  | MisPrototypeOf => "isPrototypeOf"
  | MpropertyIsEnumerable => "propertyIsEnumerable"
  | MtoString => "toString"
  | MvalueOf => "valueOf"
  | Mproto => "__proto__"
  | MtoLocaleString => "toLocaleString"
  end.

Definition members : list member :=
  [Mconstructor; MdefineGetter; MdefineSetter; MhasOwnProperty; MlookupGetter;
   MlookupSetter; MisPrototypeOf; MpropertyIsEnumerable; MtoString; MvalueOf;
   Mproto; MtoLocaleString].

(** The member of [Object.prototype] of that name, if there is one. *)
Definition memberOf (k : string) : option member :=
  List.find (fun m => String.eqb (memberName m) k) members.

(** What reading a property gives: a scalar, or the object inherited from
    [Object.prototype] under a member's name. *)
Inductive value :=
| Scalar (s : scalar)
| Inherited (m : member).

Coercion Scalar : scalar >-> value.

(** [Number(v)]: an inherited function or object converts to NaN. *)
Definition Number (v : value) : number :=
  match v with
  | Scalar VUndefined => NaN
  | Scalar VNull => Finite 0
  | Scalar (VBoolean b) => Finite (if b then 1 else 0)
  | Scalar (VNumber n) => n
  | Scalar (VString s) => stringToNumber s
  | Inherited _ => NaN
  end.

(** [a === b]: two inherited objects are identical when they are the same
    member. *)
Definition strictEquals (a b : value) : bool :=
  match a, b with
  | Scalar VUndefined, Scalar VUndefined => true
  | Scalar VNull, Scalar VNull => true
  | Scalar (VBoolean x), Scalar (VBoolean y) => Bool.eqb x y
  | Scalar (VNumber x), Scalar (VNumber y) => numberEquals x y
  | Scalar (VString x), Scalar (VString y) => String.eqb x y
  | Inherited m, Inherited n => String.eqb (memberName m) (memberName n)
  | _, _ => false
  end.

(** [v != null] *)
Definition notNullish (v : value) : bool :=
  match v with Scalar VUndefined | Scalar VNull => false | _ => true end.

(** The text of an inherited member, as Node prints it. *)
Definition nativeText (m : member) : string :=
  match m with
  | Mproto => "[object Object]"
  | Mconstructor => "function Object() { [native code] }"
  | _ => "function " +:+ memberName m +:+ "() { [native code] }"
  end.

(** [v.toString()], for a [v] that is neither [undefined] nor [null]. *)
Definition toString (v : value) : string :=
  match v with
  | Scalar VUndefined => "undefined"
  | Scalar VNull => "null"
  | Scalar (VBoolean b) => if b then "true" else "false"
  | Scalar (VNumber n) => numberToString n
  | Scalar (VString s) => s
  | Inherited m => nativeText m
  end.

Inductive exn :=
| TypeError
| Error (message : string).

(** [String.prototype.toUpperCase] on the letters [a]-[z]. *)
Definition upperChar (c : ascii) : ascii :=
  let n := N_of_ascii c in
  if ((97 <=? n) && (n <=? 122))%N then ascii_of_N (n - 32) else c.

Fixpoint toUpperCase (s : string) : string :=
  match s with
  | EmptyString => EmptyString
  | String c rest => String (upperChar c) (toUpperCase rest)
  end.

(** [Buffer.prototype.toString("hex")]: two lower-case digits per byte. *)
Definition hexDigit (n : N) : ascii :=
  if (n <? 10)%N then ascii_of_N (48 + n) else ascii_of_N (87 + n).

Fixpoint toHex (bytes : list byte) : string :=
  match bytes with
  | [] => EmptyString
  | b :: rest =>
      String (hexDigit (Byte.to_N b / 16)) (String (hexDigit (Byte.to_N b mod 16))
        (toHex rest))
  end.

End JS.

(** ** Column-letter codec *)

Definition fromCharCode (n : N) : string := String (ascii_of_N n) "".

(** ["A".charCodeAt(0)] *)
Definition charCodeA : N := 65.

(** [letter]: the character at [modulo = num % 26] after "A". *)
Definition letterOf (num : N) : string :=
  fromCharCode (charCodeA + num mod 26)%N.

(** The index is an array position, hence a natural number; the test is on
    [remainder = Math.floor(num / 26)]. *)
Equations? zeroBasedColumnNumberToSpreadsheetColumnLetters (num : N) : string
  by wf (N.to_nat num) lt :=
  zeroBasedColumnNumberToSpreadsheetColumnLetters num
    with N.eq_dec (num / 26)%N 0%N := {
    | left _ => letterOf num
    | right nonzero =>
        zeroBasedColumnNumberToSpreadsheetColumnLetters (num / 26 - 1)%N
          +:+ letterOf num }.
Proof.
  assert (num <> 0%N) by (intros ->; now apply nonzero).
  assert (num / 26 < num)%N by (apply N.div_lt; lia).
  lia.
Qed.

Abbreviation letters := zeroBasedColumnNumberToSpreadsheetColumnLetters.

(** The value of a letter string in bijective base 26 ([A] = 1 ... [Z] = 26). *)
Fixpoint bijectiveValue (acc : N) (s : string) : N :=
  match s with
  | EmptyString => acc
  | String c rest => bijectiveValue (acc * 26 + (N_of_ascii c - 64))%N rest
  end.

Definition isUpperLetter (c : ascii) : bool :=
  ((65 <=? N_of_ascii c) && (N_of_ascii c <=? 90))%N.

Fixpoint allUpperLetters (s : string) : bool :=
  match s with
  | EmptyString => true
  | String c rest => isUpperLetter c && allUpperLetters rest
  end.

(** Column order of a spreadsheet: shorter names first, names of one length
    in dictionary order (A ... Z, AA ... AZ, BA ...). *)
Definition columnOrder_lt (s t : string) : Prop :=
  String.length s < String.length t
  \/ (String.length s = String.length t /\ String.compare s t = Lt).

Import JS.

(** ** Objects *)

(** A record: the own properties of an object created as [{}] and filled
    by assignment, or of a plain object of the caller. *)
Abbreviation record := (gmap string value).

(** What the end of every prototype chain holds under [k]. *)
Definition fromObjectPrototype (k : string) : value :=
  match memberOf k with
  | Some m => Inherited m
  | None => VUndefined
  end.

(** [o[k]]: the own property, else what [Object.prototype] holds. *)
Definition getField (o : record) (k : string) : value :=
  match o !! k with
  | Some v => v
  | None => fromObjectPrototype k
  end.

(** [o[k] = v] on a plain object: sets the own property [k]; under the
    name [__proto__] the assignment goes to the accessor of
    [Object.prototype] and makes no own property (a string or [undefined]
    is ignored by the accessor; [null] changes the prototype, which is not
    among the own properties that a record lists). *)
Definition assign (o : record) (k : string) (v : value) : record :=
  if String.eqb k "__proto__" then o else <[k := v]> o.

(** A query or a patch: the own enumerable properties in enumeration order
    (each key once), then the enumerable properties of the prototype
    chain, and whether the chain ends at [Object.prototype] (as for an
    object literal) or at [null] (as for [Object.create(null)]). The
    properties are scalars. *)
Record object := {
  own : list (string * scalar);
  inherited : list (string * scalar);
  rooted : bool
}.

Fixpoint assoc (k : string) (kvs : list (string * scalar)) : option scalar :=
  match kvs with
  | [] => None
  | (k', v) :: rest => if String.eqb k' k then Some v else assoc k rest
  end.

(** What [Object.prototype.hasOwnProperty] answers. *)
Definition isOwn (o : object) (prop : string) : bool :=
  match assoc prop (own o) with Some _ => true | None => false end.

(** [o[prop]]: the own property, else the inherited one, else what
    [Object.prototype] holds when the chain reaches it. *)
Definition getProp (o : object) (prop : string) : value :=
  match assoc prop (own o) with
  | Some v => v
  | None =>
      match assoc prop (inherited o) with
      | Some v => v
      | None => if rooted o then fromObjectPrototype prop else VUndefined
      end
  end.

(** [o.hasOwnProperty(prop)]: the method is looked up through the object;
    when a property of that name hides the built-in, or the chain does
    not reach [Object.prototype], the call is a call of a scalar and
    throws. *)
Definition hasOwnProperty (o : object) (prop : string) : exn + bool :=
  match getProp o "hasOwnProperty" with
  | Inherited MhasOwnProperty => inr (isOwn o prop)
  | _ => inl TypeError
  end.

(** The keys that [for (const prop in o)] visits. *)
Definition forIn (o : object) : list string :=
  map fst (own o)
    ++ List.filter (fun k => negb (isOwn o k)) (map fst (inherited o)).

(** ** Pure helpers of [src/index.js] *)

Definition convertObjectToRow (fields : list string) (newProps : record)
  : list string :=
  map (fun fieldName =>
         if notNullish (getField newProps fieldName)
         then trim (toString (getField newProps fieldName))
         else "")
      fields.

Definition areEqual (a b : value) : bool :=
  if strictEquals a b then true
  else if (negb (isNaN (Number a)) && negb (isNaN (Number b))
           && numberEquals (Number a) (Number b))%bool then true
  else false.

(** The loop of [dataMatchesQuery] over the keys still to visit. *)
Fixpoint matchProps (dataRow : record) (query : object) (props : list string)
  : exn + bool :=
  match props with
  | [] => inr true
  | prop :: rest =>
      match hasOwnProperty query prop with
      | inl e => inl e
      | inr false => matchProps dataRow query rest
      | inr true =>
          if negb (areEqual (getField dataRow prop) (getProp query prop))
          then inr false
          else matchProps dataRow query rest
      end
  end.

(** [query] is [None] for a null or undefined argument. *)
Definition dataMatchesQuery (dataRow : record) (query : option object)
  : exn + bool :=
  match query with
  | None => inr true
  | Some q => matchProps dataRow q (forIn q)
  end.

(** [fields[0] = 'ID'] on an array: replaces the first element, and gives an
    empty array its first element. *)
Definition assignFirst (fields : list string) (x : string) : list string :=
  match fields with
  | [] => [x]
  | _ :: rest => x :: rest
  end.

(** [row[index]] *)
Definition cell (row : list string) (index : nat) : value :=
  match row !! index with
  | Some s => VString s
  | None => VUndefined
  end.

(** [fields.forEach((item, index) => newItem[fields[index]] = row[index])],
    from position [index] on. *)
Fixpoint forEachField (fields : list string) (index : nat) (row : list string)
  (newItem : record) : record :=
  match fields with
  | [] => newItem
  | name :: rest =>
      forEachField rest (S index) row (assign newItem name (cell row index))
  end.

Definition projectRow (fields row : list string) : record :=
  forEachField fields 0 row ∅.

(** [rest.reduce((accum, row) => ..., accum)], for the rows still to read. *)
Fixpoint reduceRows (fields : list string) (query : option object)
  (rest : list (list string)) (accum : list record) : exn + list record :=
  match rest with
  | [] => inr accum
  | row :: rest' =>
      let newItem := projectRow fields row in
      match dataMatchesQuery newItem query with
      | inl e => inl e
      | inr true => reduceRows fields query rest' (accum ++ [newItem])
      | inr false => reduceRows fields query rest' accum
      end
  end.

Definition projectRows (fields : list string) (rest : list (list string))
  (query : option object) : exn + list record :=
  reduceRows fields query rest [].

(** [fields.indexOf(prop)], counting from [i]. *)
Fixpoint indexOfFrom (fields : list string) (prop : string) (i : Z) : Z :=
  match fields with
  | [] => (-1)%Z
  | f :: rest => if String.eqb f prop then i else indexOfFrom rest prop (i + 1)%Z
  end.

Definition indexOf (fields : list string) (prop : string) : Z :=
  indexOfFrom fields prop 0.

(** ** The remote service, the caller's objects and the random source *)

(** One element of [resource.data] of a batch update:
    [{ range, values: [[propValue]] }]. *)
Record cellWrite := {
  range : string;
  values : value
}.

Inductive event :=
| ValuesGet (spreadsheetId range : string)
| ValuesAppend (spreadsheetId range : string) (rows : list (list string))
| ValuesBatchUpdate (spreadsheetId : string) (data : list cellWrite)
| ConsoleLog (message : string) (query : option object).

Definition isRemoteWrite (e : event) : bool :=
  match e with
  | ValuesAppend _ _ _ | ValuesBatchUpdate _ _ => true
  | _ => false
  end.

(** The four bytes of one [crypto.randomBytes(4)]. *)
Record bytes4 := { byte0 : byte; byte1 : byte; byte2 : byte; byte3 : byte }.

Definition bufferOf (d : bytes4) : list byte :=
  [byte0 d; byte1 d; byte2 d; byte3 d].

Abbreviation loc := nat.

Record world := {
  sheet : option (list (list string));  (* [data.values] of a fetch *)
  heap : gmap loc record;               (* the objects the caller holds *)
  draws : list bytes4;                  (* the random draws to come *)
  log : list event                      (* the calls made so far, in order *)
}.

Definition deref (h : gmap loc record) (l : loc) : record :=
  default ∅ (h !! l).

(** [Pending]: the identifier loop has used up the known draws and is still
    running. *)
Inductive outcome (A : Type) :=
| Returned (a : A)
| Thrown (e : exn)
| Pending.
Arguments Returned {A} a.
Arguments Thrown {A} e.
Arguments Pending {A}.

Definition M (A : Type) : Type := world -> outcome A * world.

Definition ret {A} (a : A) : M A := fun w => (Returned a, w).

Definition bind {A B} (m : M A) (k : A -> M B) : M B :=
  fun w =>
    match m w with
    | (Returned a, w') => k a w'
    | (Thrown e, w') => (Thrown e, w')
    | (Pending, w') => (Pending, w')
    end.

Definition throw {A} (e : exn) : M A := fun w => (Thrown e, w).

Notation "x <- m ;; k" := (bind m (fun x => k))
  (at level 100, m at next level, right associativity).
Notation "m ;;; k" := (bind m (fun _ => k))
  (at level 100, right associativity).

(** The world after more calls. *)
Definition logged (w : world) (es : list event) : world :=
  {| sheet := sheet w; heap := heap w; draws := draws w; log := log w ++ es |}.

Definition emit (e : event) : M unit := fun w => (Returned tt, logged w [e]).

Definition fetched : M (option (list (list string))) :=
  fun w => (Returned (sheet w), w).

Definition readObject (l : loc) : M record :=
  fun w => (Returned (deref (heap w) l), w).

Definition withHeap (w : world) (h : gmap loc record) : world :=
  {| sheet := sheet w; heap := h; draws := draws w; log := log w |}.

Definition withDraws (w : world) (ds : list bytes4) : world :=
  {| sheet := sheet w; heap := heap w; draws := ds; log := log w |}.

(** [obj[k] = v] on the caller's object at [l]. *)
Definition writeField (l : loc) (k : string) (v : value) : M unit :=
  fun w =>
    (Returned tt, withHeap w (<[l := assign (deref (heap w) l) k v]> (heap w))).

(** An element of the working array [data] of [_insert]: a record of the
    fetch, or an object of the caller pushed during the loop. *)
Inductive dataEntry :=
| Fetched (item : record)
| Supplied (ref : loc).

Definition entryObject (h : gmap loc record) (x : dataEntry) : record :=
  match x with
  | Fetched item => item
  | Supplied l => deref h l
  end.

(** [data.find(x => x.ID === proposedId) != null] *)
Definition idTaken (h : gmap loc record) (data : list dataEntry)
  (proposedId : string) : bool :=
  existsb
    (fun x => strictEquals (getField (entryObject h x) "ID") (VString proposedId))
    data.

(** [crypto.randomBytes(4).toString("hex").toUpperCase()] *)
Definition candidate (d : bytes4) : string := toUpperCase (toHex (bufferOf d)).
Arguments candidate : simpl never.

(** [do { proposedId = ... } while (taken proposedId)] over the draws to
    come: the identifier kept and the draws left, or [None] when every
    known draw was refused. *)
Fixpoint proposeId (taken : string -> bool) (pending : list bytes4)
  : option (string * list bytes4) :=
  match pending with
  | [] => None
  | d :: rest =>
      let proposedId := candidate d in
      if taken proposedId then proposeId taken rest else Some (proposedId, rest)
  end.

Definition generateId (data : list dataEntry) : M string :=
  fun w =>
    match proposeId (idTaken (heap w) data) (draws w) with
    | Some (proposedId, rest) => (Returned proposedId, withDraws w rest)
    | None => (Pending, withDraws w [])
    end.

(** The argument of [insert]: one record, or an array of records. *)
Inductive insertArgument :=
| One (newProps : loc)
| Many (newData : list loc).

(** [if (!Array.isArray(newData)) newData = [newData]] *)
Definition asArray (newData : insertArgument) : list loc :=
  match newData with
  | One newProps => [newProps]
  | Many l => l
  end.

(** ** The store: [module.exports = function(spreadsheetId, sheetName)] *)

Section Store.

Variables spreadsheetId sheetName : string.

Definition valuesGet : M (option (list (list string))) :=
  emit (ValuesGet spreadsheetId sheetName) ;;; fetched.

Definition _query (query : option object) : M (list record) :=
  data <- valuesGet ;;
  match data with
  | None => throw TypeError            (* [data.values] is not iterable *)
  | Some [] => throw TypeError         (* [fields] is undefined *)
  | Some (fields :: rest) =>
      let fields := assignFirst fields "ID" in
      match projectRows fields rest query with
      | inl e => throw e               (* thrown inside the reducer *)
      | inr accum => ret accum
      end
  end.

Definition _fields : M (list string) :=
  data <- valuesGet ;;
  match data with
  | None => throw TypeError
  | Some [] => throw TypeError
  | Some (fields :: _) => ret (assignFirst fields "ID")
  end.

(** The body of [for (const newProps of newData)], for the records still to
    insert. *)
Fixpoint insertLoop (fields : list string) (newData : list loc)
  (data : list dataEntry) (newRows : list (list string))
  : M (list (list string)) :=
  match newData with
  | [] => ret newRows
  | newProps :: rest =>
      obj <- readObject newProps ;;
      (if strictEquals (getField obj "ID") VUndefined
       then proposedId <- generateId data ;;
            writeField newProps "ID" (VString proposedId)
       else ret tt) ;;;
      obj' <- readObject newProps ;;
      insertLoop fields rest (data ++ [Supplied newProps])
        (newRows ++ [convertObjectToRow fields obj'])
  end.

Definition _insert (newData : insertArgument) : M (list loc) :=
  data <- _query None ;;
  fields <- _fields ;;
  let newData := asArray newData in
  newRows <- insertLoop fields newData (map Fetched data) [] ;;
  emit (ValuesAppend spreadsheetId sheetName newRows) ;;;
  ret newData.

(** The state of the loop over the patch for one record. *)
Record patchState := {
  updatedSomething : bool;
  updatedDataRow : record;
  updateData : list cellWrite
}.

(** [for (const prop in values)], for the keys still to visit. *)
Fixpoint patchLoop (fields : list string) (patch : object) (dataRowIndex : nat)
  (props : list string) (st : patchState) : exn + patchState :=
  match props with
  | [] => inr st
  | prop :: rest =>
      match hasOwnProperty patch prop with
      | inl e => inl e
      | inr false => patchLoop fields patch dataRowIndex rest st
      | inr true =>
        let propValue := getProp patch prop in
        let row := assign (updatedDataRow st) prop propValue in
        let columnNumber := indexOf fields prop in
        if (columnNumber =? -1)%Z then inl (Error ("Bad field: " +:+ prop))
        else
          let columnLetters := letters (Z.to_N columnNumber) in
          let range :=
            sheetName +:+ "!" +:+ columnLetters
              +:+ decimalOfZ (Z.of_nat dataRowIndex + 2) in
          patchLoop fields patch dataRowIndex rest
            {| updatedSomething := true;
               updatedDataRow := row;
               updateData :=
                 updateData st ++ [{| range := range; values := propValue |}] |}
      end
  end.

(** [for (const dataEntry of Object.entries(data))], from position
    [dataRowIndex] on. *)
Fixpoint rowLoop (fields : list string) (query : option object) (patch : object)
  (dataRowIndex : nat) (data : list record)
  (writes : list cellWrite) (changedItems : list record)
  : exn + (list cellWrite * list record) :=
  match data with
  | [] => inr (writes, changedItems)
  | dataRow :: rest =>
      match dataMatchesQuery dataRow query with
      | inl e => inl e
      | inr false =>
          rowLoop fields query patch (S dataRowIndex) rest writes changedItems
      | inr true =>
        match patchLoop fields patch dataRowIndex (forIn patch)
                {| updatedSomething := false;
                   updatedDataRow := dataRow;
                   updateData := writes |} with
        | inl e => inl e
        | inr st =>
            rowLoop fields query patch (S dataRowIndex) rest (updateData st)
              (if updatedSomething st
               then changedItems ++ [updatedDataRow st]
               else changedItems)
        end
      end
  end.

(** The result is [None] for a call that returns without a value. *)
Definition _update (query : option object) (patch : object)
  : M (option (list record)) :=
  data <- _query None ;;
  if (length data =? 0)%nat then
    emit (ConsoleLog "0 rows returned for " query) ;;; ret None
  else
    fields <- _fields ;;
    match rowLoop fields query patch 0 data [] [] with
    | inl e => throw e
    | inr (writes, changedItems) =>
        emit (ValuesBatchUpdate spreadsheetId writes) ;;;
        ret (Some changedItems)
    end.

End Store.

(** ** What an update is to write and to report, in the words of the
    specification *)

(** The own keys of a query or patch, in enumeration order. *)
Definition ownKeys (o : object) : list string := map fst (own o).

(** The filter lets the record through: it answers true, without
    throwing. *)
Definition matches (dataRow : record) (query : option object) : bool :=
  match dataMatchesQuery dataRow query with
  | inr b => b
  | inl _ => false
  end.

(** The object's [hasOwnProperty] is the built-in one: the prototype chain
    reaches [Object.prototype] and no own or inherited property of that
    name hides it. *)
Definition builtIn (o : object) : bool :=
  match getProp o "hasOwnProperty" with
  | Inherited MhasOwnProperty => true
  | _ => false
  end.

(** The calls of [o.hasOwnProperty] that a loop over the keys of [o] makes
    succeed: the method is the built-in one, or there is no key to
    visit. *)
Definition callable (o : object) : bool :=
  builtIn o || match forIn o with [] => true | _ :: _ => false end.

Definition callableQuery (query : option object) : bool :=
  match query with
  | None => true
  | Some q => callable q
  end.

(** The address of the cell of column [column] (zero-based) in the row of
    the record at [dataRowIndex] (zero-based, the header not counted). *)
Definition cellAddress (sheetName : string) (column : Z) (dataRowIndex : nat)
  : string :=
  sheetName +:+ "!" +:+ letters (Z.to_N column)
    +:+ decimalOfZ (Z.of_nat dataRowIndex + 2).

(** One single-cell write per patch field, for one record. *)
Definition writesOfRecord (sheetName : string) (fields : list string)
  (patch : object) (dataRowIndex : nat) : list cellWrite :=
  map (fun prop =>
         {| range := cellAddress sheetName (indexOf fields prop) dataRowIndex;
            values := getProp patch prop |})
      (ownKeys patch).

(** The writes for the matching records among [data], whose first element
    is at position [dataRowIndex]. *)
Fixpoint expectedWrites (sheetName : string) (fields : list string)
  (query : option object) (patch : object) (dataRowIndex : nat)
  (data : list record) : list cellWrite :=
  match data with
  | [] => []
  | dataRow :: rest =>
      (if matches dataRow query
       then writesOfRecord sheetName fields patch dataRowIndex
       else [])
      ++ expectedWrites sheetName fields query patch (S dataRowIndex) rest
  end.

(** [prop] is the first field of the patch that is not in the field
    list. *)
Definition firstUnknown (fields : list string) (patch : object)
  (prop : string) : Prop :=
  exists pre post,
    ownKeys patch = pre ++ prop :: post
    /\ (forall k, In k pre -> In k fields)
    /\ ~ In prop fields.

(** How the loop over the patch fails, if it does: on the call of a
    [hasOwnProperty] that is not callable, or on the first field that is
    not in the field list. *)
Definition patchFailure (fields : list string) (patch : object) (e : exn)
  : Prop :=
  (callable patch = false /\ e = TypeError)
  \/ (callable patch = true
      /\ exists prop, firstUnknown fields patch prop
                      /\ e = Error ("Bad field: " +:+ prop)).

(** A record with every patch field applied. *)
Definition patched (patch : object) (dataRow : record) : record :=
  fold_left (fun row prop => assign row prop (getProp patch prop))
    (ownKeys patch) dataRow.

(** The matching records, patched; none under a patch without own keys. *)
Definition expectedChanged (query : option object) (patch : object)
  (data : list record) : list record :=
  match ownKeys patch with
  | [] => []
  | _ :: _ =>
      map (patched patch)
        (List.filter (fun dataRow => matches dataRow query) data)
  end.

(** ** Identifier shape *)

(** The objects among [refs] on which the test [newProps.ID === undefined]
    of [_insert] succeeds. *)
Definition withoutId (h : gmap loc record) (refs : list loc) : list loc :=
  List.filter
    (fun l => strictEquals (getField (deref h l) "ID") VUndefined) refs.

Definition isUpperHexDigit (c : ascii) : bool :=
  let n := N_of_ascii c in
  (((48 <=? n) && (n <=? 57)) || ((65 <=? n) && (n <=? 70)))%N.

Fixpoint allUpperHex (s : string) : bool :=
  match s with
  | EmptyString => true
  | String c rest => isUpperHexDigit c && allUpperHex rest
  end.

(** ** A sheet used in the examples: a header and one record *)

Definition exampleSheet : list (list string) :=
  [["Name"; "Status"]; ["AB12"; "open"]].

Definition exampleWorld : world :=
  {| sheet := Some exampleSheet; heap := ∅; draws := []; log := [] |}.

(** An object literal. *)
Definition plain (props : list (string * scalar)) : object :=
  {| own := props; inherited := []; rooted := true |}.

(** The same range with an empty first row. *)
Definition blankHeaderWorld : world :=
  {| sheet := Some [[]; ["AB12"; "open"]]; heap := ∅; draws := []; log := [] |}.

(** A caller holding two objects, [{Status: "new"}] and
    [{ID: "ZZ99", Status: "old"}], and a random source about to draw the
    bytes 00 AB FF 1C, then 12 34 56 78. *)
Definition callerWorld : world :=
  {| sheet := Some exampleSheet;
     heap := {[ 0 := {[ "Status" := Scalar (VString "new") ]};
                1 := {[ "ID" := Scalar (VString "ZZ99");
                        "Status" := Scalar (VString "old") ]} ]};
     draws := [{| byte0 := x00; byte1 := xab; byte2 := xff; byte3 := x1c |};
               {| byte0 := x12; byte1 := x34; byte2 := x56; byte3 := x78 |}];
     log := [] |}.

(** The same caller on a range whose one record has the identifier that
    the first draw proposes. *)
Definition collidingWorld : world :=
  {| sheet := Some [["Name"; "Status"]; ["00ABFF1C"; "open"]];
     heap := heap callerWorld;
     draws := draws callerWorld;
     log := [] |}.

(** A caller holding one object, [{ID: null, Status: "new"}]. *)
Definition nullIdWorld : world :=
  {| sheet := Some exampleSheet;
     heap := {[ 0 := {[ "ID" := Scalar VNull;
                        "Status" := Scalar (VString "new") ]} ]};
     draws := draws callerWorld;
     log := [] |}.

(** ** Reading names and addresses back *)

(** The column that a name of letters stands for. *)
Definition columnOfLetters (s : string) : N := (bijectiveValue 0 s - 1)%N.

Fixpoint allDecimalDigits (s : string) : bool :=
  match s with
  | EmptyString => true
  | String c rest => isDecimalDigit c && allDecimalDigits rest
  end.

(** A string that [trim] leaves alone starts with no white space. *)
Definition startsClean (s : string) : Prop :=
  match s with
  | EmptyString => True
  | String c _ => isWhiteSpace c = false
  end.

(** A range that has no row at all. *)
Definition emptyRangeWorld : world :=
  {| sheet := Some []; heap := ∅; draws := []; log := [] |}.

(** * Properties *)

(** ** The runtime operations on known inputs *)

Example trim_both_ends : trim "  a b  " = "a b" /\ trim "   " = "".
Proof. split; reflexivity. Qed.

Example stringToNumber_decimal :
  stringToNumber " 1.50e1 " = Finite 15
  /\ stringToNumber "-.5" = Finite (-1 # 2)
  /\ stringToNumber "0x1F" = Finite 31
  /\ stringToNumber "" = Finite 0
  /\ stringToNumber "-Infinity" = Infinity true.
Proof. repeat split; vm_compute; reflexivity. Qed.

Example stringToNumber_not_numeric :
  stringToNumber "abc" = NaN /\ stringToNumber "1 2" = NaN
  /\ stringToNumber "." = NaN /\ stringToNumber "-0x10" = NaN.
Proof. repeat split; vm_compute; reflexivity. Qed.

Example stringToNumber_rounds :
  stringToNumber "9007199254740993" = Finite 9007199254740992
  /\ stringToNumber "1e400" = Infinity false
  /\ stringToNumber "0.1" = Finite (3602879701896397 # 36028797018963968).
Proof. repeat split; vm_compute; reflexivity. Qed.

Example numberToString_shortest :
  numberToString (stringToNumber "0.1") = "0.1"
  /\ numberToString (stringToNumber "0.30000000000000004")
     = "0.30000000000000004"
  /\ numberToString (stringToNumber "1e21") = "1e+21"
  /\ numberToString (stringToNumber "123456789012345678901")
     = "123456789012345680000"
  /\ numberToString (stringToNumber "1e-7") = "1e-7"
  /\ numberToString (stringToNumber "-42") = "-42".
Proof. repeat split; vm_compute; reflexivity. Qed.

Example candidate_of_bytes :
  candidate {| byte0 := x00; byte1 := xab; byte2 := xff; byte3 := x1c |}
  = "00ABFF1C".
Proof. reflexivity. Qed.

(** ** Column-letter codec *)

Section CodecProperties.

Local Open Scope N_scope.

(** Names the quotients and remainders by 26, so that linear arithmetic
    sees them as unknowns tied by the division equation alone. *)
Ltac name_quotients :=
  repeat match goal with
    | H : context [(?a / 26)%N] |- _ =>
        let q := fresh "q" in set (q := (a / 26)%N) in *; clearbody q
    | |- context [(?a / 26)%N] =>
        let q := fresh "q" in set (q := (a / 26)%N) in *; clearbody q
    | H : context [(?a mod 26)%N] |- _ =>
        let r := fresh "r" in set (r := (a mod 26)%N) in *; clearbody r
    | |- context [(?a mod 26)%N] =>
        let r := fresh "r" in set (r := (a mod 26)%N) in *; clearbody r
    end.

Ltac quotient_lia := name_quotients; lia.

Lemma letters_unfold (num : N) :
  letters num =
  if (num / 26 =? 0)%N then letterOf num
  else letters (num / 26 - 1) +:+ letterOf num.
Proof.
  rewrite (zeroBasedColumnNumberToSpreadsheetColumnLetters_equation_1 num).
  destruct (N.eq_dec (num / 26) 0) as [e | ne]; simpl.
  - apply N.eqb_eq in e. now rewrite e.
  - apply N.eqb_neq in ne. now rewrite ne.
Qed.

Lemma quotient_pred_lt (num : N) : num / 26 <> 0 -> num / 26 - 1 < num.
Proof.
  intros ne.
  assert (num <> 0) by (intros ->; now apply ne).
  assert (num / 26 < num) by (apply N.div_lt; lia).
  lia.
Qed.

Lemma letterOf_code (num : N) :
  letterOf num = String (ascii_of_N (65 + num mod 26)) ""
  /\ N_of_ascii (ascii_of_N (65 + num mod 26)) = (65 + num mod 26)%N.
Proof.
  split; [reflexivity |].
  apply N_ascii_embedding.
  assert (num mod 26 < 26)%N by (apply N.mod_lt; lia). quotient_lia.
Qed.

Lemma bijectiveValue_app (s t : string) (acc : N) :
  bijectiveValue acc (s +:+ t) = bijectiveValue (bijectiveValue acc s) t.
Proof.
  revert acc. induction s as [| c s IH]; intros acc; simpl; [reflexivity |].
  apply IH.
Qed.

Lemma letters_bijectiveValue (num : N) :
  bijectiveValue 0 (letters num) = (num + 1)%N.
Proof.
  induction num as [num IH] using (well_founded_induction N.lt_wf_0).
  rewrite letters_unfold.
  destruct (letterOf_code num) as [Hl Hc].
  pose proof (N.div_mod num 26 ltac:(lia)) as Hdm.
  assert (num mod 26 < 26)%N by (apply N.mod_lt; lia).
  destruct (N.eqb_spec (num / 26) 0) as [Hq | Hq].
  - rewrite Hl. simpl. rewrite Hc. clear IH Hl Hc. quotient_lia.
  - rewrite bijectiveValue_app, IH by now apply quotient_pred_lt.
    rewrite Hl. simpl. rewrite Hc. clear IH Hl Hc. quotient_lia.
Qed.

Lemma allUpperLetters_app (s t : string) :
  allUpperLetters (s +:+ t) = allUpperLetters s && allUpperLetters t.
Proof.
  induction s as [| c s IH]; simpl; [reflexivity |].
  now rewrite IH, andb_assoc.
Qed.

Lemma letters_allUpper (num : N) : allUpperLetters (letters num) = true.
Proof.
  induction num as [num IH] using (well_founded_induction N.lt_wf_0).
  rewrite letters_unfold.
  destruct (letterOf_code num) as [Hl Hc].
  assert (num mod 26 < 26)%N by (apply N.mod_lt; lia).
  assert (Hone : allUpperLetters (letterOf num) = true).
  { rewrite Hl. simpl. unfold isUpperLetter. rewrite Hc.
    rewrite andb_true_r. apply andb_true_iff.
    split; apply N.leb_le; clear IH Hl Hc; quotient_lia. }
  destruct (N.eqb_spec (num / 26) 0) as [Hq | Hq]; [exact Hone |].
  rewrite allUpperLetters_app, Hone, IH; [reflexivity |].
  now apply quotient_pred_lt.
Qed.

Lemma string_length_app (s t : string) :
  String.length (s +:+ t) = (String.length s + String.length t)%nat.
Proof. induction s as [| c s IH]; simpl; [reflexivity | now rewrite IH]. Qed.

Lemma ascii_compare_refl (c : ascii) : Ascii.compare c c = Eq.
Proof. unfold Ascii.compare. apply N.compare_refl. Qed.

Lemma compare_app_same (p a b : string) :
  String.compare (p +:+ a) (p +:+ b) = String.compare a b.
Proof.
  induction p as [| c p IH]; simpl; [reflexivity |].
  now rewrite ascii_compare_refl.
Qed.

Lemma compare_app_lt (p q a b : string) :
  String.length p = String.length q ->
  String.compare p q = Lt ->
  String.compare (p +:+ a) (q +:+ b) = Lt.
Proof.
  revert q. induction p as [| c p IH]; intros [| d q] Hlen Hlt;
    simpl in *; try discriminate.
  destruct (Ascii.compare c d); try discriminate; [| reflexivity].
  apply IH; [congruence | assumption].
Qed.

Lemma columnOrder_app (p q a b : string) :
  String.length a = String.length b ->
  columnOrder_lt p q -> columnOrder_lt (p +:+ a) (q +:+ b).
Proof.
  intros Hab [Hlt | [Hlen Hcmp]]; unfold columnOrder_lt;
    rewrite !string_length_app.
  - left. lia.
  - right. split; [lia |]. now apply compare_app_lt.
Qed.

Lemma letterOf_lt (m n : N) :
  (m mod 26 < n mod 26)%N -> String.compare (letterOf m) (letterOf n) = Lt.
Proof.
  intros Hlt.
  destruct (letterOf_code m) as [Hm Hcm], (letterOf_code n) as [Hn Hcn].
  rewrite Hm, Hn. simpl. unfold Ascii.compare. rewrite Hcm, Hcn.
  assert (Hc : (65 + m mod 26 ?= 65 + n mod 26)%N = Lt)
    by (apply N.compare_lt_iff; clear Hm Hn Hcm Hcn; quotient_lia).
  now rewrite Hc.
Qed.

Lemma letters_length_pos (num : N) : (1 <= String.length (letters num))%nat.
Proof.
  rewrite letters_unfold.
  destruct (num / 26 =? 0)%N; [simpl; lia |].
  rewrite string_length_app. simpl. lia.
Qed.

Lemma letters_monotonic (m n : N) :
  (m < n)%N -> columnOrder_lt (letters m) (letters n).
Proof.
  revert m. induction n as [n IH] using (well_founded_induction N.lt_wf_0).
  intros m Hmn.
  pose proof (N.div_mod m 26 ltac:(lia)) as Hm.
  pose proof (N.div_mod n 26 ltac:(lia)) as Hn.
  assert (m mod 26 < 26)%N by (apply N.mod_lt; lia).
  assert (n mod 26 < 26)%N by (apply N.mod_lt; lia).
  rewrite (letters_unfold m), (letters_unfold n).
  destruct (N.eqb_spec (n / 26) 0) as [Hqn | Hqn].
  - assert (Hqm : (m / 26 = 0)%N) by (clear IH; quotient_lia).
    rewrite Hqm. simpl. right. split; [reflexivity |].
    apply letterOf_lt. clear IH. quotient_lia.
  - destruct (N.eqb_spec (m / 26) 0) as [Hqm | Hqm].
    + left. rewrite string_length_app.
      pose proof (letters_length_pos (n / 26 - 1)). simpl. lia.
    + destruct (N.eq_dec (m / 26) (n / 26)) as [Heq | Hne].
      * rewrite Heq. right. split.
        -- now rewrite !string_length_app.
        -- rewrite compare_app_same. apply letterOf_lt. clear IH. quotient_lia.
      * apply columnOrder_app; [reflexivity |].
        apply IH; [now apply quotient_pred_lt | clear IH; quotient_lia].
Qed.

(** C6. The codec takes [num mod 26] as the last letter and recurses on
    [floor(num / 26) - 1] unless that quotient is 0; its output is made of
    the letters A-Z and is the bijective base-26 numeral of [num + 1]; it
    maps 0, 25, 26, 701, 702 to A, Z, AA, ZZ, AAA; and it is strictly
    monotonic from the order of indexes to the column order of names
    (shorter first, then alphabetical). *)
Theorem codec_bijective_base26 :
  (forall num : N,
      letters num =
      if (num / 26 =? 0)%N
      then fromCharCode (charCodeA + num mod 26)
      else letters (num / 26 - 1) +:+ fromCharCode (charCodeA + num mod 26))
  /\ (forall num : N,
        allUpperLetters (letters num) = true
        /\ bijectiveValue 0 (letters num) = (num + 1)%N)
  /\ letters 0 = "A" /\ letters 25 = "Z" /\ letters 26 = "AA"
  /\ letters 701 = "ZZ" /\ letters 702 = "AAA"
  /\ (forall m n : N, (m < n)%N -> columnOrder_lt (letters m) (letters n)).
Proof.
  split; [exact letters_unfold |].
  split; [intros num; split; [apply letters_allUpper | apply letters_bijectiveValue] |].
  repeat (split; [reflexivity |]).
  exact letters_monotonic.
Qed.

Lemma codec_bijective_base26_witness :
  (25 < 26)%N /\ columnOrder_lt (letters 25) (letters 26).
Proof.
  split; [reflexivity |].
  apply (proj2 (proj2 (proj2 (proj2 (proj2 (proj2 (proj2
           codec_bijective_base26))))))).
  reflexivity.
Defined.

End CodecProperties.

(** ** Value equality matcher *)

Lemma strictEquals_string (s : string) (b : value) :
  strictEquals (VString s) b = true <-> b = VString s.
Proof.
  destruct b as [[| | x | x | t] | m]; simpl; split; intros H;
    try discriminate.
  - apply String.eqb_eq in H. now subst.
  - injection H as ->. apply String.eqb_refl.
Qed.

Lemma numberEquals_not_NaN (a b : number) :
  numberEquals a b = true -> isNaN a = false /\ isNaN b = false.
Proof. destruct a, b; simpl; intros H; try discriminate; now split. Qed.

Lemma areEqual_true (a b : value) :
  areEqual a b = true <->
  strictEquals a b = true
  \/ (isNaN (Number a) = false /\ isNaN (Number b) = false
      /\ numberEquals (Number a) (Number b) = true).
Proof.
  unfold areEqual.
  destruct (strictEquals a b); [split; auto |].
  destruct (isNaN (Number a)), (isNaN (Number b)),
    (numberEquals (Number a) (Number b)); simpl;
    split; intros H; try discriminate; auto;
    destruct H as [H | (H1 & H2 & H3)]; discriminate.
Qed.

(** C2, counterexample. The empty string converts to the number 0, so it
    matches the number 0 although the two are not strictly identical. *)
Lemma areEqual_empty_string_zero :
  strictEquals (VString "") (VNumber (Finite 0)) = false
  /\ Number (VString "") = Finite 0
  /\ areEqual (VString "") (VNumber (Finite 0)) = true.
Proof. repeat split. Qed.

(** C2, as the code has it. The matcher answers true exactly when the two
    values are strictly identical, or both convert under [Number] to numbers
    other than NaN that are equal; so "5" and "05" match 5, "abc" matches
    "abc" and [undefined] matches [undefined]. The empty string converts to
    0: it matches "", and besides it every value that converts to 0, the
    number 0 among them. *)
Theorem areEqual_strict_or_numeric :
  (forall a b : value,
      areEqual a b = true <->
      strictEquals a b = true
      \/ (isNaN (Number a) = false /\ isNaN (Number b) = false
          /\ numberEquals (Number a) (Number b) = true))
  /\ areEqual (VString "5") (VNumber (Finite 5)) = true
  /\ areEqual (VString "05") (VNumber (Finite 5)) = true
  /\ areEqual (VString "abc") (VString "abc") = true
  /\ areEqual VUndefined VUndefined = true
  /\ Number (VString "") = Finite 0
  /\ areEqual (VString "") (VNumber (Finite 0)) = true
  /\ (forall b : value,
        areEqual (VString "") b = true <->
        b = VString "" \/ numberEquals (Finite 0) (Number b) = true).
Proof.
  split; [exact areEqual_true |].
  repeat (split; [reflexivity |]).
  intros b. rewrite areEqual_true, strictEquals_string.
  change (Number (VString "")) with (Finite 0).
  split; intros [H | H]; auto.
  - right. apply H.
  - right. destruct (numberEquals_not_NaN _ _ H). auto.
Qed.

Lemma areEqual_strict_or_numeric_witness :
  areEqual (VString " 5.0 ") (VNumber (Finite 5)) = true.
Proof.
  apply (proj1 areEqual_strict_or_numeric). right. repeat split.
Defined.

(** ** Query filter *)

Lemma assoc_In (k : string) (kvs : list (string * scalar)) :
  is_Some (assoc k kvs) <-> In k (map fst kvs).
Proof.
  induction kvs as [| [k' v] kvs IH]; simpl.
  - split; [intros [x Hx]; discriminate | tauto].
  - destruct (String.eqb_spec k' k) as [-> | ne].
    + split; eauto.
    + rewrite IH. split; [auto | intros [H | H]; [congruence | exact H]].
Qed.

Lemma assoc_None (k : string) (o : list (string * scalar)) :
  assoc k o = None <-> ~ In k (map fst o).
Proof.
  rewrite <- assoc_In. destruct (assoc k o); split; intros H;
    try discriminate; try reflexivity.
  - exfalso. apply H. eauto.
  - intros [x Hx]. discriminate.
Qed.

Lemma isOwn_In (o : object) (prop : string) :
  isOwn o prop = true <-> In prop (map fst (own o)).
Proof.
  rewrite <- assoc_In. unfold isOwn.
  destruct (assoc prop (own o)); split; intros H; eauto; try discriminate.
  destruct H as [x Hx]; discriminate.
Qed.

(** The built-in is called exactly when the chain reaches it and no
    property hides it. *)
Lemma builtIn_unhidden (o : object) :
  builtIn o = true <->
  rooted o = true
  /\ ~ In "hasOwnProperty" (map fst (own o))
  /\ ~ In "hasOwnProperty" (map fst (inherited o)).
Proof.
  rewrite <- !assoc_None. unfold builtIn, getProp.
  destruct (assoc "hasOwnProperty" (own o)) as [v |].
  - split; [discriminate | intros (_ & H & _); discriminate].
  - destruct (assoc "hasOwnProperty" (inherited o)) as [v |].
    + split; [discriminate | intros (_ & _ & H); discriminate].
    + destruct (rooted o); simpl.
      * split; [auto | reflexivity].
      * split; [discriminate | intros (H & _); discriminate].
Qed.

Lemma hasOwnProperty_builtIn (o : object) (prop : string) :
  builtIn o = true -> hasOwnProperty o prop = inr (isOwn o prop).
Proof.
  unfold builtIn, hasOwnProperty.
  destruct (getProp o "hasOwnProperty") as [v | []]; try discriminate.
  reflexivity.
Qed.

Lemma hasOwnProperty_hidden (o : object) (prop : string) :
  builtIn o = false -> hasOwnProperty o prop = inl TypeError.
Proof.
  unfold builtIn, hasOwnProperty.
  destruct (getProp o "hasOwnProperty") as [v | []]; try discriminate;
    reflexivity.
Qed.

Lemma callable_cases (o : object) :
  callable o = true <-> builtIn o = true \/ forIn o = [].
Proof.
  unfold callable. rewrite orb_true_iff.
  destruct (forIn o); split; intros [H | H]; auto; discriminate.
Qed.

Lemma callable_unhidden (o : object) :
  callable o = true <->
  (rooted o = true
   /\ ~ In "hasOwnProperty" (map fst (own o))
   /\ ~ In "hasOwnProperty" (map fst (inherited o)))
  \/ forIn o = [].
Proof. now rewrite callable_cases, builtIn_unhidden. Qed.

(** An object whose calls fail has a key to visit, and not the built-in
    method. *)
Lemma hidden_forIn (o : object) :
  callable o = false ->
  builtIn o = false /\ exists prop rest, forIn o = prop :: rest.
Proof.
  unfold callable. intros H. apply orb_false_iff in H as [Hb Hf].
  split; [exact Hb |]. destruct (forIn o) as [| prop rest]; [discriminate |].
  eauto.
Qed.

Lemma forIn_nil_own (o : object) : forIn o = [] -> own o = [].
Proof.
  unfold forIn. intros H. apply app_eq_nil in H as [H _].
  now destruct (own o).
Qed.

Lemma matchProps_builtIn (dataRow : record) (q : object) (props : list string) :
  builtIn q = true ->
  exists b,
    matchProps dataRow q props = inr b
    /\ (b = true <->
        forall prop, In prop props -> isOwn q prop = true ->
                     areEqual (getField dataRow prop) (getProp q prop) = true).
Proof.
  intros Hc. induction props as [| p props (b & Hrun & Hb)]; simpl.
  - exists true. split; [reflexivity |]. split; [intros _ prop [] | reflexivity].
  - rewrite (hasOwnProperty_builtIn q p Hc).
    destruct (isOwn q p) eqn:Hown.
    + destruct (areEqual (getField dataRow p) (getProp q p)) eqn:Heq; simpl.
      * exists b. split; [exact Hrun |]. rewrite Hb.
        split; intros H prop; [intros [<- | Hin] | ]; auto.
      * exists false. split; [reflexivity |].
        split; [discriminate |]. intros H.
        rewrite <- Heq. apply H; auto.
    + exists b. split; [exact Hrun |]. rewrite Hb.
      split; intros H prop; [intros [<- | Hin] | ]; auto.
      congruence.
Qed.

Lemma dataMatchesQuery_callable (dataRow : record) (q : object) :
  callable q = true ->
  exists b,
    dataMatchesQuery dataRow (Some q) = inr b
    /\ (b = true <->
        forall prop, In prop (map fst (own q)) ->
                     areEqual (getField dataRow prop) (getProp q prop) = true).
Proof.
  intros Hc. simpl. apply callable_cases in Hc as [Hc | Hnil].
  - destruct (matchProps_builtIn dataRow q (forIn q) Hc) as (b & Hrun & Hb).
    exists b. split; [exact Hrun |]. rewrite Hb. unfold forIn.
    split; intros H prop.
    + intros Hin. apply H; [apply in_or_app; auto | now apply isOwn_In].
    + intros _ Hown. apply H. now apply isOwn_In.
  - rewrite Hnil, (forIn_nil_own q Hnil). exists true.
    split; [reflexivity |]. split; [intros _ prop [] | reflexivity].
Qed.

Lemma dataMatchesQuery_own (dataRow : record) (q : object) :
  callable q = true ->
  dataMatchesQuery dataRow (Some q) = inr true <->
  forall prop, In prop (map fst (own q)) ->
               areEqual (getField dataRow prop) (getProp q prop) = true.
Proof.
  intros Hc. destruct (dataMatchesQuery_callable dataRow q Hc) as (b & -> & Hb).
  rewrite <- Hb. split; [now intros [= ->] | now intros ->].
Qed.

Lemma dataMatchesQuery_hidden (dataRow : record) (q : object) :
  callable q = false -> dataMatchesQuery dataRow (Some q) = inl TypeError.
Proof.
  intros Hc. simpl. destruct (hidden_forIn q Hc) as (Hb & prop & rest & ->).
  simpl. now rewrite (hasOwnProperty_hidden q prop Hb).
Qed.

(** The answer of the filter is an answer or a TypeError. *)
Lemma dataMatchesQuery_cases (dataRow : record) (q : option object) :
  (callableQuery q = true /\ dataMatchesQuery dataRow q = inr (matches dataRow q))
  \/ (callableQuery q = false /\ dataMatchesQuery dataRow q = inl TypeError).
Proof.
  unfold matches. destruct q as [q |]; [| left; auto]. simpl callableQuery.
  destruct (callable q) eqn:Hc.
  - left. destruct (dataMatchesQuery_callable dataRow q Hc) as (b & Hrun & _).
    rewrite Hrun. auto.
  - right. split; [reflexivity | now apply dataMatchesQuery_hidden].
Qed.

Lemma matches_own (dataRow : record) (q : object) :
  matches dataRow (Some q) = true <->
  callable q = true
  /\ forall prop, In prop (map fst (own q)) ->
                  areEqual (getField dataRow prop) (getProp q prop) = true.
Proof.
  unfold matches. destruct (callable q) eqn:Hc.
  - destruct (dataMatchesQuery_callable dataRow q Hc) as (b & -> & Hb).
    rewrite Hb. tauto.
  - rewrite (dataMatchesQuery_hidden dataRow q Hc).
    split; [discriminate | intros [H _]; discriminate].
Qed.

Lemma getProp_own (o i i' : list (string * scalar)) (r r' : bool)
  (prop : string) :
  In prop (map fst o) ->
  getProp {| own := o; inherited := i; rooted := r |} prop
  = getProp {| own := o; inherited := i'; rooted := r' |} prop.
Proof.
  intros Hin. apply assoc_In in Hin as [v Hv].
  unfold getProp. simpl. now rewrite Hv.
Qed.

(** C7, counterexample. A query with the own key [status] that inherits
    an enumerable property called [hasOwnProperty]: the call
    [query.hasOwnProperty(prop)] is a call of a string and the filter
    throws, where the same query without the inherited property matches.
    The same query made with [Object.create(null)] has no
    [hasOwnProperty] at all, and the filter throws as well. *)
Lemma dataMatchesQuery_hidden_method :
  dataMatchesQuery {[ "status" := Scalar (VString "done") ]}
    (Some {| own := [("status", VString "done")];
             inherited := [("hasOwnProperty", VString "x")];
             rooted := true |})
  = inl TypeError
  /\ dataMatchesQuery {[ "status" := Scalar (VString "done") ]}
       (Some {| own := [("status", VString "done")];
                inherited := [];
                rooted := true |})
     = inr true
  /\ dataMatchesQuery {[ "status" := Scalar (VString "done") ]}
       (Some {| own := [("status", VString "done")];
                inherited := [];
                rooted := false |})
     = inl TypeError.
Proof. repeat split. Qed.

(** C7, as the code has it. For a query whose [hasOwnProperty] is the
    built-in one (its prototype chain ends at [Object.prototype] and it
    neither has nor inherits an enumerable property of that name), and
    for a query without any enumerable key, the filter returns, and
    answers true exactly when, for every own enumerable key of the query,
    the matcher judges the record's value for that key equal to the
    query's value; a null query, the empty query [{}] and any such query
    without own keys match every record; among such queries the inherited properties do not
    change the answer. Every other query makes the filter throw a
    TypeError. *)
Theorem dataMatchesQuery_own_keys (dataRow : record) :
  (forall q : object,
      callable q = true ->
      (exists b, dataMatchesQuery dataRow (Some q) = inr b)
      /\ (dataMatchesQuery dataRow (Some q) = inr true <->
          forall prop, In prop (map fst (own q)) ->
                       areEqual (getField dataRow prop) (getProp q prop) = true))
  /\ dataMatchesQuery dataRow None = inr true
  /\ dataMatchesQuery dataRow (Some (plain [])) = inr true
  /\ (forall i r,
        callable {| own := []; inherited := i; rooted := r |} = true ->
        dataMatchesQuery dataRow
          (Some {| own := []; inherited := i; rooted := r |}) = inr true)
  /\ (forall o i i' r r',
        callable {| own := o; inherited := i; rooted := r |} = true ->
        callable {| own := o; inherited := i'; rooted := r' |} = true ->
        dataMatchesQuery dataRow
          (Some {| own := o; inherited := i; rooted := r |})
        = dataMatchesQuery dataRow
            (Some {| own := o; inherited := i'; rooted := r' |}))
  /\ (forall q : object,
        callable q = false ->
        dataMatchesQuery dataRow (Some q) = inl TypeError)
  /\ (forall q : object,
        callable q = true <->
        (rooted q = true
         /\ ~ In "hasOwnProperty" (map fst (own q))
         /\ ~ In "hasOwnProperty" (map fst (inherited q)))
        \/ forIn q = []).
Proof.
  split.
  { intros q Hc. split; [| now apply dataMatchesQuery_own].
    destruct (dataMatchesQuery_callable dataRow q Hc) as (b & Hrun & _). eauto. }
  split; [reflexivity |].
  split; [reflexivity |].
  split.
  { intros i r Hc. apply dataMatchesQuery_own; [exact Hc |]. intros prop []. }
  split.
  { intros o i i' r r' Hc Hc'.
    destruct (dataMatchesQuery_callable dataRow _ Hc) as (b & -> & Hb).
    destruct (dataMatchesQuery_callable dataRow _ Hc') as (b' & -> & Hb').
    f_equal. apply eq_true_iff_eq. rewrite Hb, Hb'. simpl.
    split; intros H prop Hin.
    - rewrite <- (getProp_own o i i' r r') by assumption. now apply H.
    - rewrite (getProp_own o i i' r r') by assumption. now apply H. }
  split; [intros q; apply dataMatchesQuery_hidden |].
  intros q. apply callable_unhidden.
Qed.

Lemma dataMatchesQuery_own_keys_witness :
  dataMatchesQuery {[ "status" := Scalar (VString "done") ]}
    (Some {| own := [("status", VString "done")];
             inherited := [("owner", VString "nobody")];
             rooted := true |}) = inr true.
Proof.
  apply (proj1 (dataMatchesQuery_own_keys _)); [reflexivity |].
  intros prop [<- | []]. reflexivity.
Defined.

(** ** Record projector *)

Lemma lookup_map {A B} (f : A -> B) (l : list A) (i : nat) :
  map f l !! i = f <$> (l !! i).
Proof.
  revert i. induction l as [| x l IH]; intros [| i]; simpl; auto.
Qed.

Lemma lookup_In {A} (l : list A) (i : nat) (x : A) : l !! i = Some x -> In x l.
Proof.
  revert i. induction l as [| y l IH]; intros [| i] H; simpl in *;
    try discriminate.
  - injection H as ->. now left.
  - right. eauto.
Qed.

Lemma assign_other (o : record) (k name : string) (v : value) :
  k <> name -> assign o k v !! name = o !! name.
Proof.
  intros ne. unfold assign. destruct (String.eqb k "__proto__"); [reflexivity |].
  now apply lookup_insert_ne.
Qed.

Lemma assign_named (o : record) (name : string) (v : value) :
  name <> "__proto__" -> assign o name v = <[name := v]> o.
Proof.
  intros ne. unfold assign. now destruct (String.eqb_spec name "__proto__").
Qed.

(** An assignment under the name [__proto__] leaves the own properties as
    they are. *)
Lemma assign_proto (o : record) (v : value) : assign o "__proto__" v = o.
Proof. reflexivity. Qed.

Lemma forEachField_other (fields row : list string) (index : nat)
  (newItem : record) (name : string) :
  ~ In name fields ->
  forEachField fields index row newItem !! name = newItem !! name.
Proof.
  revert index newItem.
  induction fields as [| f fields IH]; intros index newItem Hnot; simpl.
  - reflexivity.
  - rewrite IH by (intros Hin; apply Hnot; now right).
    apply assign_other. intros ->. apply Hnot. now left.
Qed.

Lemma forEachField_proto (fields row : list string) (index : nat)
  (newItem : record) :
  forEachField fields index row newItem !! "__proto__" = newItem !! "__proto__".
Proof.
  revert index newItem.
  induction fields as [| f fields IH]; intros index newItem; simpl.
  - reflexivity.
  - rewrite IH. destruct (String.eqb_spec f "__proto__") as [-> | ne].
    + reflexivity.
    + now apply assign_other.
Qed.

Lemma forEachField_lookup (fields row : list string) (index j : nat)
  (newItem : record) (name : string) :
  List.NoDup fields ->
  fields !! j = Some name ->
  name <> "__proto__" ->
  forEachField fields index row newItem !! name = Some (cell row (index + j)).
Proof.
  revert index j newItem.
  induction fields as [| f fields IH]; intros index j newItem Hnd Hj Hname.
  - discriminate.
  - inversion Hnd as [| ? ? Hnot Hnd']; subst. destruct j as [| j]; simpl in *.
    + injection Hj as ->. rewrite forEachField_other by assumption.
      rewrite assign_named by assumption.
      rewrite lookup_insert_eq. do 2 f_equal. lia.
    + rewrite (IH (S index) j) by assumption. do 2 f_equal. lia.
Qed.

Lemma projectRow_field (fields row : list string) (j : nat) (name : string) :
  List.NoDup fields ->
  fields !! j = Some name ->
  name <> "__proto__" ->
  getField (projectRow fields row) name = cell row j.
Proof.
  intros Hnd Hj Hname. unfold getField, projectRow.
  now rewrite (forEachField_lookup fields row 0 j ∅ name Hnd Hj Hname).
Qed.

(** A record of the projector reads [Object.prototype] under the name
    [__proto__], whatever the header and the row. *)
Lemma projectRow_proto (fields row : list string) :
  getField (projectRow fields row) "__proto__" = Inherited Mproto.
Proof.
  unfold getField, projectRow. now rewrite forEachField_proto.
Qed.

Lemma reduceRows_callable (fields : list string) (rest : list (list string))
  (query : option object) (accum : list record) :
  callableQuery query = true ->
  reduceRows fields query rest accum
  = inr (accum
           ++ List.filter (fun item => matches item query)
                (map (projectRow fields) rest)).
Proof.
  intros Hc. revert accum.
  induction rest as [| row rest IH]; intros accum; simpl.
  - now rewrite app_nil_r.
  - destruct (dataMatchesQuery_cases (projectRow fields row) query)
      as [[_ Hrun] | [Hh _]]; [| congruence].
    rewrite Hrun. destruct (matches (projectRow fields row) query).
    + rewrite IH. now rewrite <- app_assoc.
    + apply IH.
Qed.

Lemma reduceRows_hidden (fields row : list string) (rest : list (list string))
  (query : option object) (accum : list record) :
  callableQuery query = false ->
  reduceRows fields query (row :: rest) accum = inl TypeError.
Proof.
  intros Hc. simpl.
  destruct (dataMatchesQuery_cases (projectRow fields row) query)
    as [[Hh _] | [_ Hrun]]; [congruence |].
  now rewrite Hrun.
Qed.

Lemma projectRows_filter (fields : list string) (rest : list (list string))
  (query : option object) :
  callableQuery query = true ->
  projectRows fields rest query
  = inr (List.filter (fun item => matches item query)
           (map (projectRow fields) rest)).
Proof. intros Hc. unfold projectRows. now rewrite reduceRows_callable. Qed.

Lemma filter_all {A} (l : list A) : List.filter (fun _ => true) l = l.
Proof. induction l as [| x l IH]; simpl; [reflexivity | now rewrite IH]. Qed.

Lemma projectRows_all (fields : list string) (rest : list (list string)) :
  projectRows fields rest None = inr (map (projectRow fields) rest).
Proof.
  rewrite projectRows_filter by reflexivity.
  unfold matches. simpl. now rewrite filter_all.
Qed.

Lemma convertObjectToRow_length (fields : list string) (newProps : record) :
  length (convertObjectToRow fields newProps) = length fields.
Proof. unfold convertObjectToRow. apply length_map. Qed.

Lemma round_trip_cell (fields row : list string) (j : nat) :
  List.NoDup fields ->
  ~ In "__proto__" fields ->
  j < length fields ->
  convertObjectToRow fields (projectRow fields row) !! j
  = Some (match row !! j with Some s => trim s | None => "" end).
Proof.
  intros Hnd Hproto Hj. unfold convertObjectToRow. rewrite lookup_map.
  destruct (lookup_lt_is_Some_2 fields j Hj) as [name Hname].
  rewrite Hname. simpl. f_equal.
  rewrite (projectRow_field fields row j name Hnd Hname).
  - unfold cell. destruct (row !! j); reflexivity.
  - intros ->. apply Hproto. eapply lookup_In, Hname.
Qed.

Lemma list_eq_lookup_Some {A} (l k : list A) :
  length l = length k ->
  (forall j, j < length l -> l !! j = k !! j) ->
  l = k.
Proof.
  intros Hlen H. apply list_eq. intros j.
  destruct (decide (j < length l)) as [Hlt | Hge]; [auto |].
  rewrite !lookup_ge_None_2 by lia. reflexivity.
Qed.

Lemma round_trip_full_row (fields row : list string) :
  List.NoDup fields ->
  ~ In "__proto__" fields ->
  length row = length fields ->
  convertObjectToRow fields (projectRow fields row) = map trim row.
Proof.
  intros Hnd Hproto Hlen. apply list_eq_lookup_Some.
  - now rewrite convertObjectToRow_length, length_map.
  - intros j Hj. rewrite convertObjectToRow_length in Hj.
    rewrite round_trip_cell, lookup_map by assumption.
    destruct (lookup_lt_is_Some_2 row j ltac:(lia)) as [s Hs].
    now rewrite Hs.
Qed.

(** ** Field list *)

Lemma indexOfFrom_spec (fields : list string) (prop : string) (i : Z) :
  (In prop fields ->
   exists c : nat,
     indexOfFrom fields prop i = (i + Z.of_nat c)%Z
     /\ fields !! c = Some prop
     /\ forall j, j < c -> fields !! j <> Some prop)
  /\ (~ In prop fields -> indexOfFrom fields prop i = (-1)%Z).
Proof.
  revert i. induction fields as [| f fields IH]; intros i; simpl.
  - split; [intros [] | reflexivity].
  - destruct (String.eqb_spec f prop) as [-> | ne].
    + split; [| intros H; exfalso; apply H; now left].
      intros _. exists 0. split; [lia |]. split; [reflexivity |]. lia.
    + destruct (IH (i + 1)%Z) as [Hin Hnot]. split.
      * intros [-> | H]; [congruence |].
        destruct (Hin H) as (c & Hc & Hl & Hmin).
        exists (S c). split; [lia |]. split; [exact Hl |].
        intros [| j] Hj; simpl; [congruence | apply Hmin; lia].
      * intros H. apply Hnot. tauto.
Qed.

Lemma indexOf_found (fields : list string) (prop : string) :
  In prop fields ->
  exists c : nat,
    indexOf fields prop = Z.of_nat c
    /\ fields !! c = Some prop
    /\ forall j, j < c -> fields !! j <> Some prop.
Proof.
  intros H. destruct (proj1 (indexOfFrom_spec fields prop 0) H) as (c & Hc & Hrest).
  exists c. split; [exact Hc | exact Hrest].
Qed.

Lemma indexOf_missing (fields : list string) (prop : string) :
  ~ In prop fields <-> indexOf fields prop = (-1)%Z.
Proof.
  split; [apply (indexOfFrom_spec fields prop 0) |].
  intros Hm Hin. destruct (indexOf_found fields prop Hin) as (c & Hc & _). lia.
Qed.

Lemma logged_app (w : world) (a b : list event) :
  logged (logged w a) b = logged w (a ++ b).
Proof. unfold logged. simpl. now rewrite <- app_assoc. Qed.

Section StoreProperties.

Variables spreadsheetId sheetName : string.

Local Abbreviation query := (_query spreadsheetId sheetName).
Local Abbreviation fieldList := (_fields spreadsheetId sheetName).
Local Abbreviation insert := (_insert spreadsheetId sheetName).
Local Abbreviation update := (_update spreadsheetId sheetName).
Local Abbreviation fetch := (ValuesGet spreadsheetId sheetName).

Lemma query_run (w : world) (header : list string) (rows : list (list string))
  (q : option object) :
  sheet w = Some (header :: rows) ->
  query q w
  = (match projectRows (assignFirst header "ID") rows q with
     | inl e => Thrown e
     | inr accum => Returned accum
     end, logged w [fetch]).
Proof.
  intros Hs. unfold _query, valuesGet, bind, emit, fetched. simpl.
  rewrite Hs. now destruct (projectRows (assignFirst header "ID") rows q).
Qed.

Lemma query_all_run (w : world) (header : list string)
  (rows : list (list string)) :
  sheet w = Some (header :: rows) ->
  query None w
  = (Returned (map (projectRow (assignFirst header "ID")) rows),
     logged w [fetch]).
Proof.
  intros Hs. rewrite (query_run w header rows None Hs).
  now rewrite projectRows_all.
Qed.

Lemma fields_run (w : world) (header : list string) (rows : list (list string)) :
  sheet w = Some (header :: rows) ->
  fieldList w = (Returned (assignFirst header "ID"), logged w [fetch]).
Proof.
  intros Hs. unfold _fields, valuesGet, bind, emit, fetched. simpl.
  now rewrite Hs.
Qed.

(** *** The loops of [_update] *)

Lemma filter_own_forIn (o : object) :
  List.filter (isOwn o) (forIn o) = ownKeys o.
Proof.
  unfold forIn, ownKeys. rewrite List.filter_app.
  assert (H1 : List.filter (isOwn o) (map fst (own o)) = map fst (own o)).
  { apply forallb_filter_id. apply forallb_forall.
    intros k Hk. now apply isOwn_In. }
  assert (H2 : forall l,
             List.filter (isOwn o)
               (List.filter (fun k => negb (isOwn o k)) l) = []).
  { induction l as [| k l IH]; simpl; [reflexivity |].
    destruct (isOwn o k) eqn:E; simpl; [exact IH |].
    now rewrite E. }
  now rewrite H1, H2, app_nil_r.
Qed.

Lemma patchLoop_builtIn (fields : list string) (patch : object) (i : nat)
  (props : list string) (st : patchState) :
  builtIn patch = true ->
  (forall prop, In prop props -> isOwn patch prop = true ->
                indexOf fields prop <> (-1)%Z) ->
  patchLoop sheetName fields patch i props st
  = inr {| updatedSomething :=
             match List.filter (isOwn patch) props with
             | [] => updatedSomething st
             | _ :: _ => true
             end;
           updatedDataRow :=
             fold_left (fun row prop => assign row prop (getProp patch prop))
               (List.filter (isOwn patch) props) (updatedDataRow st);
           updateData :=
             updateData st
               ++ map (fun prop =>
                         {| range :=
                              cellAddress sheetName (indexOf fields prop) i;
                            values := getProp patch prop |})
                    (List.filter (isOwn patch) props) |}.
Proof.
  intros Hc. revert st.
  induction props as [| prop props IH]; intros st Hknown; simpl.
  - rewrite app_nil_r. now destruct st.
  - rewrite (hasOwnProperty_builtIn patch prop Hc).
    destruct (isOwn patch prop) eqn:Hown; simpl.
    + assert (Hne : indexOf fields prop <> (-1)%Z)
        by (apply Hknown; auto with datatypes).
      apply Z.eqb_neq in Hne. rewrite Hne.
      rewrite IH by (intros p Hp; apply Hknown; auto with datatypes). simpl.
      rewrite <- app_assoc. simpl.
      now destruct (List.filter (isOwn patch) props).
    + apply IH. intros p Hp. apply Hknown. auto with datatypes.
Qed.

(** The loop over a patch whose fields are all in the field list. *)
Lemma patchLoop_known (fields : list string) (patch : object) (i : nat)
  (st : patchState) :
  callable patch = true ->
  (forall prop, In prop (ownKeys patch) -> indexOf fields prop <> (-1)%Z) ->
  patchLoop sheetName fields patch i (forIn patch) st
  = inr {| updatedSomething :=
             match ownKeys patch with
             | [] => updatedSomething st
             | _ :: _ => true
             end;
           updatedDataRow :=
             fold_left (fun row prop => assign row prop (getProp patch prop))
               (ownKeys patch) (updatedDataRow st);
           updateData :=
             updateData st
               ++ map (fun prop =>
                         {| range :=
                              cellAddress sheetName (indexOf fields prop) i;
                            values := getProp patch prop |})
                    (ownKeys patch) |}.
Proof.
  intros Hc Hknown. apply callable_cases in Hc as [Hb | Hnil].
  - rewrite patchLoop_builtIn, filter_own_forIn; [reflexivity | exact Hb |].
    intros prop _ Hown. apply Hknown. now apply isOwn_In.
  - unfold ownKeys. rewrite Hnil, (forIn_nil_own patch Hnil). simpl.
    rewrite app_nil_r. now destruct st.
Qed.

Lemma patchLoop_builtIn_inl (fields : list string) (patch : object) (i : nat)
  (props : list string) (st : patchState) (e : exn) :
  builtIn patch = true ->
  patchLoop sheetName fields patch i props st = inl e ->
  exists prop, In prop props /\ isOwn patch prop = true
               /\ indexOf fields prop = (-1)%Z
               /\ e = Error ("Bad field: " +:+ prop).
Proof.
  intros Hc. revert st. induction props as [| p props IH]; intros st; simpl.
  - discriminate.
  - rewrite (hasOwnProperty_builtIn patch p Hc).
    destruct (isOwn patch p) eqn:Hown; simpl.
    + destruct (Z.eqb_spec (indexOf fields p) (-1)) as [Hbad | Hok].
      * intros [= <-]. exists p. auto.
      * intros H. destruct (IH _ H) as (k & Hin & Hrest). exists k. auto.
    + intros H. destruct (IH _ H) as (k & Hin & Hrest). exists k. auto.
Qed.

(** The loop over a callable patch throws the bad-field error only, and
    for a field of the patch that is not in the field list. *)
Lemma patchLoop_inl (fields : list string) (patch : object) (i : nat)
  (st : patchState) (e : exn) :
  callable patch = true ->
  patchLoop sheetName fields patch i (forIn patch) st = inl e ->
  exists prop, In prop (ownKeys patch)
               /\ indexOf fields prop = (-1)%Z
               /\ e = Error ("Bad field: " +:+ prop).
Proof.
  intros Hc Hrun. apply callable_cases in Hc as [Hb | Hnil].
  - destruct (patchLoop_builtIn_inl _ _ _ _ _ _ Hb Hrun)
      as (k & _ & Hown & Hbad & ->).
    exists k. split; [now apply isOwn_In | auto].
  - rewrite Hnil in Hrun. discriminate.
Qed.

Lemma patchLoop_inr (fields : list string) (patch : object) (i : nat)
  (st st' : patchState) :
  callable patch = true ->
  patchLoop sheetName fields patch i (forIn patch) st = inr st' ->
  forall prop, In prop (ownKeys patch) -> indexOf fields prop <> (-1)%Z.
Proof.
  intros Hc Hrun prop Hprop Hbad.
  assert (Hin : In prop (forIn patch))
    by (unfold forIn; apply in_or_app; now left).
  apply callable_cases in Hc as [Hb | Hnil]; [| rewrite Hnil in Hin; destruct Hin].
  apply isOwn_In in Hprop.
  revert st Hrun Hin. generalize (forIn patch) as props.
  induction props as [| p props IH]; intros st Hrun Hin; [destruct Hin |].
  simpl in Hrun. rewrite (hasOwnProperty_builtIn patch p Hb) in Hrun.
  destruct (isOwn patch p) eqn:Hown.
  - destruct (Z.eqb_spec (indexOf fields p) (-1)) as [Hm | Hk];
      [discriminate |].
    destruct Hin as [-> | Hin]; [contradiction | eauto].
  - destruct Hin as [-> | Hin]; [congruence | eauto].
Qed.

(** With a field that is not in the field list, the loop throws. *)
Lemma patchLoop_unknown (fields : list string) (patch : object) (i : nat)
  (st : patchState) :
  callable patch = true ->
  (exists prop, In prop (ownKeys patch) /\ indexOf fields prop = (-1)%Z) ->
  exists prop, In prop (ownKeys patch)
               /\ indexOf fields prop = (-1)%Z
               /\ patchLoop sheetName fields patch i (forIn patch) st
                  = inl (Error ("Bad field: " +:+ prop)).
Proof.
  intros Hc (k & Hk & Hbad).
  destruct (patchLoop sheetName fields patch i (forIn patch) st)
    as [e | st'] eqn:Hrun.
  - destruct (patchLoop_inl _ _ _ _ _ Hc Hrun) as (k' & Hk' & Hbad' & ->).
    eauto.
  - exfalso. now apply (patchLoop_inr _ _ _ _ _ Hc Hrun k Hk).
Qed.

(** A patch whose [hasOwnProperty] fails stops the loop at its first
    key. *)
Lemma patchLoop_hidden (fields : list string) (patch : object) (i : nat)
  (st : patchState) :
  callable patch = false ->
  patchLoop sheetName fields patch i (forIn patch) st = inl TypeError.
Proof.
  intros Hc. destruct (hidden_forIn patch Hc) as (Hb & prop & rest & ->).
  simpl. now rewrite (hasOwnProperty_hidden patch prop Hb).
Qed.

Lemma rowLoop_known (fields : list string) (q : option object) (patch : object)
  (i : nat) (data : list record) (writes : list cellWrite)
  (changedItems : list record) :
  callableQuery q = true ->
  callable patch = true ->
  (forall prop, In prop (ownKeys patch) -> indexOf fields prop <> (-1)%Z) ->
  rowLoop sheetName fields q patch i data writes changedItems
  = inr (writes ++ expectedWrites sheetName fields q patch i data,
         changedItems ++ expectedChanged q patch data).
Proof.
  intros Hq Hc Hknown.
  revert i writes changedItems.
  induction data as [| dataRow data IH]; intros i writes changedItems; simpl.
  - unfold expectedChanged. destruct (ownKeys patch); simpl;
      now rewrite !app_nil_r.
  - destruct (dataMatchesQuery_cases dataRow q) as [[_ Hrun] | [Hh _]];
      [| congruence].
    rewrite Hrun. destruct (matches dataRow q) eqn:Hm; simpl.
    + rewrite patchLoop_known by assumption. simpl.
      rewrite IH. f_equal.
      rewrite <- app_assoc. f_equal.
      unfold expectedChanged. simpl. rewrite Hm.
      destruct (ownKeys patch) eqn:Hkeys; [reflexivity |].
      rewrite <- app_assoc. simpl. unfold patched. now rewrite Hkeys.
    + rewrite IH. f_equal. unfold expectedChanged. simpl. now rewrite Hm.
Qed.

Lemma rowLoop_no_match (fields : list string) (q : option object)
  (patch : object) (i : nat) (data : list record) (writes : list cellWrite)
  (changedItems : list record) :
  (forall dataRow, In dataRow data -> dataMatchesQuery dataRow q = inr false) ->
  rowLoop sheetName fields q patch i data writes changedItems
  = inr (writes, changedItems).
Proof.
  revert i. induction data as [| dataRow data IH]; intros i Hno; simpl.
  - reflexivity.
  - rewrite (Hno dataRow) by now left. simpl.
    apply IH. intros r Hr. apply Hno. now right.
Qed.

Lemma rowLoop_unknown (fields : list string) (q : option object)
  (patch : object) (i : nat) (data : list record) (writes : list cellWrite)
  (changedItems : list record) :
  callableQuery q = true ->
  callable patch = true ->
  (exists dataRow, In dataRow data /\ matches dataRow q = true) ->
  (exists prop, In prop (ownKeys patch) /\ indexOf fields prop = (-1)%Z) ->
  exists prop, In prop (ownKeys patch) /\ indexOf fields prop = (-1)%Z
               /\ rowLoop sheetName fields q patch i data writes changedItems
                  = inl (Error ("Bad field: " +:+ prop)).
Proof.
  intros Hq Hc Hmatch (k & Hk & Hbad).
  revert i. induction data as [| dataRow data IH]; intros i.
  - destruct Hmatch as (r & [] & _).
  - simpl.
    destruct (dataMatchesQuery_cases dataRow q) as [[_ Hrun] | [Hh _]];
      [| congruence].
    rewrite Hrun. destruct (matches dataRow q) eqn:Hm; simpl.
    + edestruct (patchLoop_unknown fields patch i)
        as (k' & Hk' & Hbad' & Hrun'); [exact Hc | exists k; eauto |].
      rewrite Hrun'. exists k'. auto.
    + apply IH. destruct Hmatch as (r & [<- | Hin] & Hr); [congruence |].
      exists r. auto.
Qed.

(** *** [_update] as a whole *)

Lemma update_no_data (w : world) (header : list string) (q : option object)
  (patch : object) :
  sheet w = Some [header] ->
  update q patch w
  = (Returned None, logged w [fetch; ConsoleLog "0 rows returned for " q]).
Proof.
  intros Hs. unfold _update, bind.
  rewrite (query_all_run w header [] Hs). simpl.
  unfold emit, ret. now rewrite logged_app.
Qed.

Lemma update_run (w : world) (header : list string) (rows : list (list string))
  (q : option object) (patch : object) :
  sheet w = Some (header :: rows) ->
  rows <> [] ->
  update q patch w
  = match rowLoop sheetName (assignFirst header "ID") q patch 0
            (map (projectRow (assignFirst header "ID")) rows) [] [] with
    | inl e => (Thrown e, logged w [fetch; fetch])
    | inr (writes, changedItems) =>
        (Returned (Some changedItems),
         logged w [fetch; fetch; ValuesBatchUpdate spreadsheetId writes])
    end.
Proof.
  intros Hs Hrows. unfold _update, bind.
  rewrite (query_all_run w header rows Hs).
  destruct rows as [| row rows]; [congruence |].
  cbn [map length Nat.eqb].
  rewrite (fields_run (logged w [fetch]) header (row :: rows) Hs), logged_app.
  destruct (rowLoop _ _ _ _ _ _ _ _) as [e | [writes changedItems]].
  - reflexivity.
  - unfold emit, ret. now rewrite logged_app.
Qed.

Lemma expectedWrites_In (fields : list string) (q : option object)
  (patch : object) (start i : nat) (data : list record) (dataRow : record)
  (prop : string) :
  data !! i = Some dataRow ->
  matches dataRow q = true ->
  In prop (ownKeys patch) ->
  In {| range := cellAddress sheetName (indexOf fields prop) (start + i);
        values := getProp patch prop |}
     (expectedWrites sheetName fields q patch start data).
Proof.
  revert start i. induction data as [| r data IH]; intros start i Hi Hm Hp.
  - discriminate.
  - simpl. apply in_or_app. destruct i as [| i]; simpl in Hi.
    + injection Hi as ->. rewrite Hm. left. rewrite Nat.add_0_r.
      unfold writesOfRecord.
      apply (in_map (fun prop =>
                       {| range := cellAddress sheetName (indexOf fields prop) start;
                          values := getProp patch prop |})).
      exact Hp.
    + right. replace (start + S i) with (S start + i) by lia.
      now apply IH.
Qed.

Lemma expectedWrites_length (fields : list string) (q : option object)
  (patch : object) (start : nat) (data : list record) :
  length (expectedWrites sheetName fields q patch start data)
  = length (List.filter (fun dataRow => matches dataRow q) data)
    * length (ownKeys patch).
Proof.
  revert start. induction data as [| r data IH]; intros start; simpl.
  - reflexivity.
  - rewrite length_app, IH. destruct (matches r q); simpl.
    + unfold writesOfRecord. now rewrite length_map.
    + reflexivity.
Qed.

Lemma fold_assign_other (patch : object) (keys : list string) (row : record)
  (k : string) :
  ~ In k keys \/ k = "__proto__" ->
  fold_left (fun row prop => assign row prop (getProp patch prop)) keys row !! k
  = row !! k.
Proof.
  revert row. induction keys as [| p keys IH]; intros row Hnot; simpl.
  - reflexivity.
  - rewrite IH by (destruct Hnot as [Hnot | ->]; [left | now right];
                   intros H; apply Hnot; now right).
    destruct (String.eqb_spec p "__proto__") as [-> | Hp]; [reflexivity |].
    apply assign_other. intros ->. destruct Hnot as [Hnot | Hk].
    + apply Hnot. now left.
    + contradiction.
Qed.

Lemma fold_assign_applied (patch : object) (keys : list string) (row : record)
  (k : string) :
  In k keys ->
  k <> "__proto__" ->
  fold_left (fun row prop => assign row prop (getProp patch prop)) keys row !! k
  = Some (getProp patch k).
Proof.
  revert row. induction keys as [| p keys IH]; intros row Hin Hk; simpl.
  - destruct Hin.
  - destruct (in_dec string_dec k keys) as [Hk' | Hk']; [now apply IH |].
    destruct Hin as [-> | Hin]; [| contradiction].
    rewrite fold_assign_other by now left.
    rewrite assign_named by assumption. apply lookup_insert_eq.
Qed.

Lemma patched_lookup (patch : object) (dataRow : record) (k : string) :
  (In k (ownKeys patch) -> k <> "__proto__" ->
   patched patch dataRow !! k = Some (getProp patch k))
  /\ (~ In k (ownKeys patch) \/ k = "__proto__" ->
      patched patch dataRow !! k = dataRow !! k).
Proof.
  split; [apply fold_assign_applied | apply fold_assign_other].
Qed.

(** C3, as the code has it. For a query and a patch on which the calls of
    [hasOwnProperty] succeed (the method is the built-in one, or the
    object has no enumerable key), on a range with at least one record and
    a patch whose fields are all in the field list, [update] fetches the records
    and the field list, then makes exactly one batched update call and no
    other write; the call is made whatever the number of cell writes, so
    also with none under a patch without fields. The call carries, for
    every matching record at data position [i] and every patch field at
    column [c] of the field list, one single-cell write of the patch value
    at column [letters c] and row [i + 2], and nothing else: one write per
    matching record and patch field. The result is the matching records,
    each once and with every patch field applied (a field named
    [__proto__] is written to its cell but makes no property of the
    record); under a patch without fields the result is empty and the
    call carries no cell write. *)
Theorem update_batches_cell_writes (w : world) (header : list string)
  (rows : list (list string)) (q : option object) (patch : object) :
  sheet w = Some (header :: rows) ->
  rows <> [] ->
  callableQuery q = true ->
  callable patch = true ->
  (forall prop, In prop (ownKeys patch) -> In prop (assignFirst header "ID")) ->
  let fields := assignFirst header "ID" in
  let data := map (projectRow fields) rows in
  let matching := List.filter (fun dataRow => matches dataRow q) data in
  exists writes changedItems,
    update q patch w
    = (Returned (Some changedItems),
       logged w [fetch; fetch; ValuesBatchUpdate spreadsheetId writes])
    /\ List.filter isRemoteWrite
         [fetch; fetch; ValuesBatchUpdate spreadsheetId writes]
       = [ValuesBatchUpdate spreadsheetId writes]
    /\ writes = expectedWrites sheetName fields q patch 0 data
    /\ (forall i dataRow prop c,
           data !! i = Some dataRow ->
           dataMatchesQuery dataRow q = inr true ->
           In prop (ownKeys patch) ->
           indexOf fields prop = Z.of_nat c ->
           In {| range := sheetName +:+ "!" +:+ letters (N.of_nat c)
                            +:+ decimalOfZ (Z.of_nat i + 2);
                 values := getProp patch prop |} writes)
    /\ length writes = length matching * length (ownKeys patch)
    /\ (forall dataRow, In dataRow matching <->
                        In dataRow data /\ dataMatchesQuery dataRow q = inr true)
    /\ changedItems = expectedChanged q patch data
    /\ (ownKeys patch <> [] -> changedItems = map (patched patch) matching)
    /\ (ownKeys patch = [] -> changedItems = [] /\ writes = [])
    /\ (forall dataRow k,
           (In k (ownKeys patch) -> k <> "__proto__" ->
            patched patch dataRow !! k = Some (getProp patch k))
           /\ (~ In k (ownKeys patch) \/ k = "__proto__" ->
               patched patch dataRow !! k = dataRow !! k)).
Proof.
  intros Hs Hrows Hq Hc Hknown fields data matching.
  exists (expectedWrites sheetName fields q patch 0 data),
         (expectedChanged q patch data).
  assert (Hk : forall prop, In prop (ownKeys patch) ->
                            indexOf fields prop <> (-1)%Z).
  { intros prop Hp Hm. apply indexOf_missing in Hm. apply Hm. now apply Hknown. }
  assert (Hmatches : forall dataRow,
             matches dataRow q = true <-> dataMatchesQuery dataRow q = inr true).
  { intros dataRow. unfold matches.
    destruct (dataMatchesQuery dataRow q) as [e | b];
      split; intros H; congruence. }
  split.
  { rewrite (update_run w header rows q patch Hs Hrows).
    fold fields. fold data.
    now rewrite (rowLoop_known fields q patch 0 data [] [] Hq Hc Hk). }
  split; [reflexivity |].
  split; [reflexivity |].
  split.
  { intros i dataRow prop c Hi Hm Hp Hcol. apply Hmatches in Hm.
    pose proof (expectedWrites_In fields q patch 0 i data dataRow prop Hi Hm Hp)
      as Hin.
    unfold cellAddress in Hin. rewrite Hcol in Hin.
    now rewrite <- nat_N_Z, N2Z.id in Hin. }
  split; [apply expectedWrites_length |].
  split.
  { intros dataRow. unfold matching. rewrite filter_In, Hmatches. tauto. }
  split; [reflexivity |].
  split.
  { intros Hne. unfold expectedChanged.
    destruct (ownKeys patch); [congruence | reflexivity]. }
  split.
  { intros He. split.
    - unfold expectedChanged. now rewrite He.
    - apply length_zero_iff_nil.
      rewrite expectedWrites_length, He. simpl. lia. }
  intros dataRow k. apply patched_lookup.
Qed.

(** C4, as the code has it. For a query and a patch on which the calls of
    [hasOwnProperty] succeed (the method is the built-in one, or the
    object has no enumerable key): when at least one record matches the
    criteria and the patch names a field that is not in the field list, [update] throws
    [Error("Bad field: <name>")] for such a field, after the two fetches
    and before any remote write. *)
Theorem update_unknown_field (w : world) (header : list string)
  (rows : list (list string)) (q : option object) (patch : object) :
  sheet w = Some (header :: rows) ->
  callableQuery q = true ->
  callable patch = true ->
  (exists row, In row rows
               /\ dataMatchesQuery (projectRow (assignFirst header "ID") row) q
                  = inr true) ->
  (exists prop, In prop (ownKeys patch)
                /\ ~ In prop (assignFirst header "ID")) ->
  exists prop,
    In prop (ownKeys patch)
    /\ ~ In prop (assignFirst header "ID")
    /\ update q patch w
       = (Thrown (Error ("Bad field: " +:+ prop)), logged w [fetch; fetch])
    /\ existsb isRemoteWrite [fetch; fetch] = false.
Proof.
  intros Hs Hq Hc (row & Hrow & Hm) (k & Hk & Hbad).
  assert (Hrows : rows <> []) by (intros ->; destruct Hrow).
  rewrite (update_run w header rows q patch Hs Hrows).
  edestruct (rowLoop_unknown (assignFirst header "ID") q patch 0
               (map (projectRow (assignFirst header "ID")) rows) [] [])
    as (k' & Hk' & Hbad' & Hrun); [exact Hq | exact Hc | | |].
  - exists (projectRow (assignFirst header "ID") row).
    split; [now apply in_map | unfold matches; now rewrite Hm].
  - exists k. split; [exact Hk | now apply indexOf_missing].
  - exists k'. rewrite Hrun. apply indexOf_missing in Hbad'. auto.
Qed.

(** *** The loop of [_insert] *)

Lemma strictEquals_undefined (v : value) :
  strictEquals v VUndefined = true <-> v = VUndefined.
Proof. destruct v as [[] | m]; simpl; split; intros H; congruence. Qed.

Lemma undefined_or_not (v : value) : v = VUndefined \/ v <> VUndefined.
Proof. destruct v as [[] | m]; [now left | right; discriminate ..]. Qed.

Lemma strictEquals_string_false (v : value) (s : string) :
  strictEquals v (VString s) = false <-> v <> VString s.
Proof.
  destruct v as [[| | | | t] | m]; simpl; split; intros H; try congruence.
  - intros [= ->]. now rewrite String.eqb_refl in H.
  - destruct (String.eqb_spec t s); [subst; congruence | reflexivity].
Qed.

Lemma deref_insert (h : gmap loc record) (l l' : loc) (o : record) :
  deref (<[l := o]> h) l' = if decide (l = l') then o else deref h l'.
Proof.
  unfold deref. destruct (decide (l = l')) as [-> | ne].
  - now rewrite lookup_insert_eq.
  - now rewrite lookup_insert_ne.
Qed.

Lemma getField_insert (o : record) (k k' : string) (v : value) :
  getField (<[k := v]> o) k' = if decide (k = k') then v else getField o k'.
Proof.
  unfold getField. destruct (decide (k = k')) as [-> | ne].
  - now rewrite lookup_insert_eq.
  - now rewrite lookup_insert_ne.
Qed.

Lemma insertLoop_nil (fields : list string) (data : list dataEntry)
  (newRows : list (list string)) (w : world) :
  insertLoop fields [] data newRows w = (Returned newRows, w).
Proof. reflexivity. Qed.

Lemma insertLoop_keep (fields : list string) (l : loc) (rest : list loc)
  (data : list dataEntry) (newRows : list (list string)) (w : world) :
  getField (deref (heap w) l) "ID" <> VUndefined ->
  insertLoop fields (l :: rest) data newRows w
  = insertLoop fields rest (data ++ [Supplied l])
      (newRows ++ [convertObjectToRow fields (deref (heap w) l)]) w.
Proof.
  intros Hid. simpl. unfold bind, readObject at 1.
  destruct (strictEquals (getField (deref (heap w) l) "ID") VUndefined) eqn:E.
  - apply strictEquals_undefined in E. contradiction.
  - reflexivity.
Qed.

Lemma insertLoop_generate (fields : list string) (l : loc) (rest : list loc)
  (data : list dataEntry) (newRows : list (list string)) (w : world) :
  getField (deref (heap w) l) "ID" = VUndefined ->
  insertLoop fields (l :: rest) data newRows w
  = match proposeId (idTaken (heap w) data) (draws w) with
    | Some (proposedId, ds) =>
        let obj := <["ID" := Scalar (VString proposedId)]> (deref (heap w) l) in
        insertLoop fields rest (data ++ [Supplied l])
          (newRows ++ [convertObjectToRow fields obj])
          (withHeap (withDraws w ds) (<[l := obj]> (heap w)))
    | None => (Pending, withDraws w [])
    end.
Proof.
  intros Hid. simpl. unfold bind, readObject at 1. rewrite Hid. simpl.
  unfold generateId.
  destruct (proposeId (idTaken (heap w) data) (draws w)) as [[proposedId ds] |];
    [| reflexivity].
  unfold writeField, readObject. simpl.
  now rewrite deref_insert, decide_True by reflexivity.
Qed.

Lemma proposeId_Some (taken : string -> bool) (pending ds : list bytes4)
  (proposedId : string) :
  proposeId taken pending = Some (proposedId, ds) ->
  taken proposedId = false
  /\ exists d, In d pending /\ proposedId = candidate d.
Proof.
  induction pending as [| d pending IH]; simpl; [discriminate |].
  destruct (taken (candidate d)) eqn:E.
  - intros H. destruct (IH H) as (Hf & d' & Hin & Heq). eauto.
  - intros [= <- <-]. eauto.
Qed.

Lemma proposeId_rest (taken : string -> bool) (pending ds : list bytes4)
  (proposedId : string) :
  proposeId taken pending = Some (proposedId, ds) ->
  forall d, In d ds -> In d pending.
Proof.
  induction pending as [| d0 pending IH]; simpl; [discriminate |].
  destruct (taken (candidate d0)).
  - intros H d Hd. right. now apply IH.
  - intros [= _ <-]. auto.
Qed.

Lemma proposeId_fresh (taken : string -> bool) (pending : list bytes4) :
  (exists d, In d pending /\ taken (candidate d) = false) ->
  exists proposedId ds, proposeId taken pending = Some (proposedId, ds).
Proof.
  induction pending as [| d pending IH]; intros (d' & Hin & Hf).
  - destruct Hin.
  - simpl. destruct (taken (candidate d)) eqn:E; [| eauto].
    destruct Hin as [-> | Hin]; [congruence |]. apply IH. eauto.
Qed.

Lemma idTaken_false (h : gmap loc record) (data : list dataEntry)
  (proposedId : string) :
  idTaken h data proposedId = false <->
  forall x, In x data -> getField (entryObject h x) "ID" <> VString proposedId.
Proof.
  unfold idTaken. induction data as [| x data IH]; simpl.
  - split; [intros _ x [] | reflexivity].
  - rewrite orb_false_iff, IH, strictEquals_string_false.
    split.
    + intros [Hx Hrest] y [<- | Hy]; auto.
    + intros H. split; [apply H; now left | intros y Hy; apply H; now right].
Qed.

(** The log and the sheet are not touched by the loop. *)
Lemma insertLoop_frame (fields : list string) (refs : list loc)
  (data : list dataEntry) (newRows out : list (list string)) (w w' : world) :
  insertLoop fields refs data newRows w = (Returned out, w') ->
  sheet w' = sheet w /\ log w' = log w.
Proof.
  revert data newRows w. induction refs as [| l refs IH]; intros data newRows w.
  - rewrite insertLoop_nil. intros [= _ <-]. auto.
  - destruct (undefined_or_not (getField (deref (heap w) l) "ID")) as [Hu | Hd].
    + rewrite insertLoop_generate by assumption.
      destruct (proposeId _ _) as [[proposedId ds] |]; [| discriminate].
      intros H. apply IH in H. exact H.
    + rewrite insertLoop_keep by assumption. apply IH.
Qed.

(** What the loop does to the caller's objects: an object among [refs]
    without an identifier receives one; everything else stays as it is. *)
Lemma insertLoop_heap (fields : list string) (refs : list loc)
  (data : list dataEntry) (newRows out : list (list string)) (w w' : world) :
  insertLoop fields refs data newRows w = (Returned out, w') ->
  forall l,
    (getField (deref (heap w) l) "ID" <> VUndefined \/ ~ In l refs ->
     heap w' !! l = heap w !! l)
    /\ (getField (deref (heap w) l) "ID" = VUndefined -> In l refs ->
        exists d, In d (draws w)
                  /\ heap w' !! l
                     = Some (<["ID" := Scalar (VString (candidate d))]> (deref (heap w) l))).
Proof.
  revert data newRows w. induction refs as [| r refs IH]; intros data newRows w.
  - rewrite insertLoop_nil. intros [= _ <-] l. split; [reflexivity | intros _ []].
  - destruct (undefined_or_not (getField (deref (heap w) r) "ID")) as [Hu | Hd].
    + rewrite insertLoop_generate by assumption.
      destruct (proposeId _ _) as [[proposedId ds] |] eqn:Hp; [| discriminate].
      destruct (proposeId_Some _ _ _ _ Hp) as (_ & d & Hd & Heq).
      subst proposedId. intros Hrun l.
      destruct (IH _ _ _ Hrun l) as [Hsame Hnew]. simpl in *.
      pose proof (proposeId_rest _ _ _ _ Hp) as Hds.
      destruct (decide (r = l)) as [-> | ne].
      * rewrite deref_insert, decide_True in Hsame by reflexivity.
        rewrite getField_insert, decide_True in Hsame by reflexivity.
        split; [intros [H | H]; [contradiction | exfalso; apply H; now left] |].
        intros _ _. exists d. split; [exact Hd |].
        rewrite Hsame by (left; discriminate). now rewrite lookup_insert_eq.
      * rewrite deref_insert, decide_False in Hsame, Hnew by assumption.
        rewrite lookup_insert_ne in Hsame by assumption.
        split.
        -- intros [H | H]; apply Hsame; [now left | right].
           intros Hin. apply H. now right.
        -- intros Hl [-> | Hin]; [contradiction |].
           destruct (Hnew Hl Hin) as (d' & Hd' & Hheap). eauto.
    + rewrite insertLoop_keep by assumption.
      intros Hrun l. destruct (IH _ _ _ Hrun l) as [Hsame Hnew].
      split.
      * intros [H | H]; apply Hsame; [now left |].
        destruct (decide (r = l)) as [-> | ne]; [now left | right].
        intros Hin. apply H. now right.
      * intros Hl [-> | Hin]; [contradiction | auto].
Qed.

Lemma deref_eq (h h' : gmap loc record) (l : loc) :
  h' !! l = h !! l -> deref h' l = deref h l.
Proof. unfold deref. now intros ->. Qed.

(** The rows handed to the append call are the rows of the objects as the
    loop leaves them, in the order of [refs]. *)
Lemma insertLoop_rows (fields : list string) (refs : list loc)
  (data : list dataEntry) (newRows out : list (list string)) (w w' : world) :
  insertLoop fields refs data newRows w = (Returned out, w') ->
  out = newRows
        ++ map (fun l => convertObjectToRow fields (deref (heap w') l)) refs.
Proof.
  revert data newRows w. induction refs as [| r refs IH]; intros data newRows w.
  - rewrite insertLoop_nil. intros [= <- _]. simpl. now rewrite app_nil_r.
  - destruct (undefined_or_not (getField (deref (heap w) r) "ID")) as [Hu | Hd].
    + rewrite insertLoop_generate by assumption.
      destruct (proposeId _ _) as [[proposedId ds] |] eqn:Hp; [| discriminate].
      intros Hrun. rewrite (IH _ _ _ Hrun), <- app_assoc. simpl.
      do 3 f_equal.
      destruct (insertLoop_heap _ _ _ _ _ _ _ Hrun r) as [Hsame _].
      simpl in Hsame. rewrite deref_insert, decide_True in Hsame by reflexivity.
      rewrite getField_insert, decide_True in Hsame by reflexivity.
      unfold deref at 2. rewrite Hsame by (left; discriminate).
      now rewrite lookup_insert_eq.
    + rewrite insertLoop_keep by assumption.
      intros Hrun. rewrite (IH _ _ _ Hrun), <- app_assoc. simpl.
      do 3 f_equal. symmetry. apply deref_eq.
      apply (insertLoop_heap _ _ _ _ _ _ _ Hrun r). now left.
Qed.

(** An identifier given by the loop is not the identifier of a record of
    [data], nor of an object that comes earlier among [refs]. *)
Lemma insertLoop_fresh (fields : list string) (refs : list loc)
  (data : list dataEntry) (newRows out : list (list string)) (w w' : world) :
  (forall l, In (Supplied l) data ->
             getField (deref (heap w) l) "ID" <> VUndefined) ->
  insertLoop fields refs data newRows w = (Returned out, w') ->
  forall j l,
    refs !! j = Some l ->
    getField (deref (heap w) l) "ID" = VUndefined ->
    ~ In l (take j refs) ->
    (forall x, In x data ->
               getField (entryObject (heap w) x) "ID"
               <> getField (deref (heap w') l) "ID")
    /\ (forall l', In l' (take j refs) ->
                   getField (deref (heap w') l') "ID"
                   <> getField (deref (heap w') l) "ID").
Proof.
  revert data newRows w.
  induction refs as [| r refs IH]; intros data newRows w Hinv Hrun j l Hj Hl Hfirst.
  - discriminate.
  - destruct (undefined_or_not (getField (deref (heap w) r) "ID")) as [Hu | Hd].
    + rewrite insertLoop_generate in Hrun by assumption.
      destruct (proposeId _ _) as [[proposedId ds] |] eqn:Hp; [| discriminate].
      destruct (proposeId_Some _ _ _ _ Hp) as (Hfree & _).
      pose proof (proj1 (idTaken_false _ _ _) Hfree) as Hdata.
      destruct (insertLoop_heap _ _ _ _ _ _ _ Hrun r) as [Hr _].
      simpl in Hr. rewrite deref_insert, decide_True in Hr by reflexivity.
      rewrite getField_insert, decide_True in Hr by reflexivity.
      assert (Hfinal : getField (deref (heap w') r) "ID" = VString proposedId).
      { unfold deref. rewrite Hr by (left; discriminate).
        rewrite lookup_insert_eq. simpl.
        now rewrite getField_insert, decide_True by reflexivity. }
      destruct j as [| j]; simpl in Hj.
      * injection Hj as <-. split; [| intros l' []].
        intros x Hx. rewrite Hfinal. now apply Hdata.
      * simpl in Hfirst.
        assert (Hne : r <> l) by (intros ->; apply Hfirst; now left).
        assert (Hinv' : forall l0, In (Supplied l0) (data ++ [Supplied r]) ->
                  getField
                    (deref (heap (withHeap (withDraws w ds)
                       (<[r := <["ID" := Scalar (VString proposedId)]> (deref (heap w) r)]>
                          (heap w)))) l0) "ID" <> VUndefined).
        { intros l0 Hl0. simpl. rewrite deref_insert.
          destruct (decide (r = l0)) as [<- | ne0].
          - rewrite getField_insert, decide_True by reflexivity. discriminate.
          - apply Hinv. apply in_app_or in Hl0 as [H | [H | []]]; [exact H |].
            congruence. }
        edestruct (IH _ _ _ Hinv' Hrun j l Hj) as [Hd' Hearlier].
        { simpl. now rewrite deref_insert, decide_False by assumption. }
        { intros Hin. apply Hfirst. now right. }
        split.
        -- intros x Hx.
           specialize (Hd' x (in_or_app _ _ _ (or_introl Hx))).
           destruct x as [item | l0]; [exact Hd' |].
           simpl in Hd'. rewrite deref_insert in Hd'.
           destruct (decide (r = l0)) as [<- | ne0]; [| exact Hd'].
           exfalso. now apply (Hinv r).
        -- intros l' [<- | Hin]; [| now apply Hearlier].
           assert (Hlast : In (Supplied r) (data ++ [Supplied r]))
             by (apply in_or_app; right; now left).
           specialize (Hd' (Supplied r) Hlast).
           simpl in Hd'. rewrite deref_insert, decide_True in Hd' by reflexivity.
           rewrite getField_insert, decide_True in Hd' by reflexivity.
           now rewrite Hfinal.
    + rewrite insertLoop_keep in Hrun by assumption.
      destruct j as [| j]; simpl in Hj; [congruence |].
      simpl in Hfirst.
      assert (Hinv' : forall l0, In (Supplied l0) (data ++ [Supplied r]) ->
                getField (deref (heap w) l0) "ID" <> VUndefined).
      { intros l0 Hl0. apply in_app_or in Hl0 as [H | [H | []]]; [now apply Hinv |].
        congruence. }
      edestruct (IH _ _ _ Hinv' Hrun j l Hj Hl) as [Hd' Hearlier].
      { intros Hin. apply Hfirst. now right. }
      split.
      * intros x Hx. apply Hd'. apply in_or_app. now left.
      * intros l' [<- | Hin]; [| now apply Hearlier].
        assert (Hlast : In (Supplied r) (data ++ [Supplied r]))
          by (apply in_or_app; right; now left).
        specialize (Hd' (Supplied r) Hlast).
        simpl in Hd'.
        rewrite (deref_eq (heap w) (heap w') r); [exact Hd' |].
        apply (insertLoop_heap _ _ _ _ _ _ _ Hrun r). now left.
Qed.

Lemma proposeId_keeps (taken : string -> bool) (pending ds : list bytes4)
  (proposedId : string) :
  proposeId taken pending = Some (proposedId, ds) ->
  forall d, In d pending -> taken (candidate d) = false ->
            candidate d <> proposedId -> In d ds.
Proof.
  induction pending as [| d0 pending IH]; simpl; [discriminate |].
  destruct (taken (candidate d0)) eqn:E.
  - intros H d [<- | Hd] Hf Hne; [congruence | now apply IH].
  - intros [= <- <-] d [<- | Hd] Hf Hne; [congruence | exact Hd].
Qed.

Lemma others_NoDup (proposedId : string) (good : list bytes4) :
  List.NoDup (map candidate good) ->
  List.NoDup
    (map candidate
       (List.filter (fun d => negb (String.eqb (candidate d) proposedId)) good)).
Proof.
  induction good as [| d good IH]; cbn [List.filter map]; intros Hnd;
    [constructor |].
  inversion Hnd as [| ? ? Hnot Hnd']; subst.
  destruct (String.eqb (candidate d) proposedId); cbn [negb map];
    [now apply IH |].
  constructor; [| now apply IH].
  intros Hin. apply Hnot. apply in_map_iff in Hin as (d' & Heq & Hd').
  apply filter_In in Hd' as [Hd' _]. rewrite <- Heq. now apply in_map.
Qed.

(** Among draws of pairwise distinct candidates, at most one proposes a
    given identifier. *)
Lemma others_length (proposedId : string) (good : list bytes4) :
  List.NoDup (map candidate good) ->
  length good
  <= S (length
          (List.filter (fun d => negb (String.eqb (candidate d) proposedId)) good)).
Proof.
  induction good as [| d good IH]; cbn [List.filter map length]; intros Hnd;
    [lia |].
  inversion Hnd as [| ? ? Hnot Hnd']; subst.
  destruct (String.eqb_spec (candidate d) proposedId) as [Heq | Hne];
    cbn [negb length].
  - rewrite forallb_filter_id; [lia |].
    apply forallb_forall. intros d' Hd'. apply negb_true_iff.
    apply String.eqb_neq. intros Heq'. apply Hnot.
    rewrite Heq, <- Heq'. now apply in_map.
  - specialize (IH Hnd'). lia.
Qed.

Lemma filter_length_le {A} (f g : A -> bool) (l : list A) :
  (forall x, In x l -> f x = true -> g x = true) ->
  length (List.filter f l) <= length (List.filter g l).
Proof.
  induction l as [| x l IH]; intros H; simpl; [lia |].
  assert (IH' : length (List.filter f l) <= length (List.filter g l))
    by (apply IH; intros y Hy; apply H; now right).
  destruct (f x) eqn:Hf.
  - rewrite (H x) by (auto with datatypes). simpl. lia.
  - destruct (g x); simpl; lia.
Qed.

(** The loop returns when the draws to come hold enough good ones: draws
    of pairwise distinct candidates that are nobody's identifier, one for
    each object that is to receive an identifier. The other draws, which
    the loop may have to refuse, can be any. *)
Lemma insertLoop_returns (fields : list string) (refs : list loc)
  (data : list dataEntry) (newRows : list (list string)) (w : world)
  (good : list bytes4) :
  List.NoDup (map candidate good) ->
  (forall d, In d good -> In d (draws w)) ->
  (forall d x, In d good -> In x data ->
               getField (entryObject (heap w) x) "ID" <> VString (candidate d)) ->
  (forall d l, In d good -> In l refs ->
               getField (deref (heap w) l) "ID" <> VString (candidate d)) ->
  length (withoutId (heap w) refs) <= length good ->
  exists out w', insertLoop fields refs data newRows w = (Returned out, w').
Proof.
  revert data newRows w good.
  induction refs as [| r refs IH];
    intros data newRows w good Hnd Hdraws Hdata Hrefs Hlen.
  - rewrite insertLoop_nil. eauto.
  - destruct (undefined_or_not (getField (deref (heap w) r) "ID")) as [Hu | Hd].
    + rewrite insertLoop_generate by assumption.
      assert (Hfree : forall d, In d good ->
                        idTaken (heap w) data (candidate d) = false).
      { intros d Hd. apply idTaken_false. intros x Hx. now apply Hdata. }
      unfold withoutId in Hlen. simpl in Hlen. rewrite Hu in Hlen.
      simpl in Hlen.
      destruct (proposeId_fresh (idTaken (heap w) data) (draws w))
        as (proposedId & ds & Hp).
      { destruct good as [| g good']; [simpl in Hlen; lia |].
        exists g. split; [apply Hdraws | apply Hfree]; now left. }
      rewrite Hp.
      apply (IH _ _ _
               (List.filter
                  (fun d => negb (String.eqb (candidate d) proposedId)) good));
        cbn [heap draws withHeap withDraws].
      * now apply others_NoDup.
      * intros d Hd. apply filter_In in Hd as [Hd Hne].
        apply negb_true_iff, String.eqb_neq in Hne.
        apply (proposeId_keeps _ _ _ _ Hp); auto.
      * intros d x Hd Hx. apply filter_In in Hd as [Hd Hne].
        apply negb_true_iff, String.eqb_neq in Hne.
        apply in_app_or in Hx as [Hx | [<- | []]].
        -- destruct x as [item | l0]; simpl.
           ++ now apply (Hdata d (Fetched item)).
           ++ rewrite deref_insert. destruct (decide (r = l0)) as [<- | ne0].
              ** rewrite getField_insert, decide_True by reflexivity.
                 congruence.
              ** now apply (Hdata d (Supplied l0)).
        -- simpl. rewrite deref_insert, decide_True by reflexivity.
           rewrite getField_insert, decide_True by reflexivity.
           congruence.
      * intros d l Hd Hl. apply filter_In in Hd as [Hd Hne].
        apply negb_true_iff, String.eqb_neq in Hne.
        rewrite deref_insert. destruct (decide (r = l)) as [<- | ne0].
        -- rewrite getField_insert, decide_True by reflexivity. congruence.
        -- apply Hrefs; [exact Hd | now right].
      * pose proof (others_length proposedId good Hnd) as Hothers.
        assert (Hfewer :
                 length (withoutId
                           (<[r := <["ID" := Scalar (VString proposedId)]>
                                     (deref (heap w) r)]> (heap w)) refs)
                 <= length (withoutId (heap w) refs)).
        { apply filter_length_le. intros l _. rewrite deref_insert.
          destruct (decide (r = l)) as [<- | ne0]; [| auto].
          rewrite getField_insert, decide_True by reflexivity. discriminate. }
        fold (withoutId (heap w) refs) in Hlen. lia.
    + rewrite insertLoop_keep by assumption. apply (IH _ _ _ good).
      * exact Hnd.
      * exact Hdraws.
      * intros d x Hd' Hx. apply in_app_or in Hx as [Hx | [<- | []]].
        -- now apply Hdata.
        -- simpl. apply Hrefs; [exact Hd' | now left].
      * intros d l Hd' Hl. apply Hrefs; [exact Hd' | now right].
      * unfold withoutId in *. simpl in Hlen.
        destruct (strictEquals (getField (deref (heap w) r) "ID") VUndefined)
          eqn:E; [| exact Hlen].
        apply strictEquals_undefined in E. contradiction.
Qed.

(** *** The shape of a generated identifier *)

Lemma hex_high_nibble (b : byte) :
  isUpperHexDigit (upperChar (hexDigit (Byte.to_N b / 16))) = true.
Proof. destruct b; reflexivity. Qed.

Lemma hex_low_nibble (b : byte) :
  isUpperHexDigit (upperChar (hexDigit (Byte.to_N b mod 16))) = true.
Proof. destruct b; reflexivity. Qed.

Lemma candidate_shape (d : bytes4) :
  String.length (candidate d) = 8 /\ allUpperHex (candidate d) = true.
Proof.
  destruct d as [b0 b1 b2 b3]. unfold candidate, bufferOf. simpl.
  split; [reflexivity |].
  now rewrite !hex_high_nibble, !hex_low_nibble.
Qed.

(** *** [_insert] as a whole *)

Lemma insert_run (w : world) (header : list string) (rows : list (list string))
  (newData : insertArgument) :
  sheet w = Some (header :: rows) ->
  insert newData w
  = match insertLoop (assignFirst header "ID") (asArray newData)
            (map Fetched (map (projectRow (assignFirst header "ID")) rows)) []
            (logged w [fetch; fetch]) with
    | (Returned newRows, w1) =>
        (Returned (asArray newData),
         logged w1 [ValuesAppend spreadsheetId sheetName newRows])
    | (Thrown e, w1) => (Thrown e, w1)
    | (Pending, w1) => (Pending, w1)
    end.
Proof.
  intros Hs. unfold _insert, bind.
  rewrite (query_all_run w header rows Hs).
  rewrite (fields_run (logged w [fetch]) header rows Hs), logged_app. simpl.
  destruct (insertLoop _ _ _ _ _) as [[newRows | e |] w1]; reflexivity.
Qed.

Lemma insert_returned (w w' : world) (header : list string)
  (rows : list (list string)) (newData : insertArgument) (out : list loc) :
  sheet w = Some (header :: rows) ->
  insert newData w = (Returned out, w') ->
  out = asArray newData
  /\ exists newRows w1,
      insertLoop (assignFirst header "ID") (asArray newData)
        (map Fetched (map (projectRow (assignFirst header "ID")) rows)) []
        (logged w [fetch; fetch]) = (Returned newRows, w1)
      /\ w' = logged w1 [ValuesAppend spreadsheetId sheetName newRows].
Proof.
  intros Hs. rewrite (insert_run w header rows newData Hs).
  destruct (insertLoop _ _ _ _ _) as [[newRows | e |] w1]; try discriminate.
  intros [= <- <-]. eauto.
Qed.

Lemma insert_returns (w : world) (header : list string)
  (rows : list (list string)) (newData : insertArgument) (good : list bytes4) :
  sheet w = Some (header :: rows) ->
  List.NoDup (map candidate good) ->
  (forall d, In d good -> In d (draws w)) ->
  (forall d item, In d good ->
     In item (map (projectRow (assignFirst header "ID")) rows) ->
     getField item "ID" <> VString (candidate d)) ->
  (forall d l, In d good -> In l (asArray newData) ->
     getField (deref (heap w) l) "ID" <> VString (candidate d)) ->
  length (withoutId (heap w) (asArray newData)) <= length good ->
  exists w', insert newData w = (Returned (asArray newData), w').
Proof.
  intros Hs Hnd Hdraws Hexisting Hgiven Hlen.
  rewrite (insert_run w header rows newData Hs).
  edestruct (insertLoop_returns (assignFirst header "ID") (asArray newData)
               (map Fetched (map (projectRow (assignFirst header "ID")) rows))
               [] (logged w [fetch; fetch]) good) as (newRows & w1 & Hrun);
    try assumption.
  - intros d x Hd Hx. apply in_map_iff in Hx as (item & <- & Hitem).
    simpl. now apply Hexisting.
  - rewrite Hrun. eauto.
Qed.

(** C5, as the code has it. [insert] takes one record or an array of
    records. The run returns when the draws to come hold, for each record
    whose [ID] is [undefined], a draw of its own that proposes nobody's
    identifier; the draws before and between them, which the loop refuses,
    can be any. A run that returns has made, after the two fetches,
    exactly one append call, whose rows are the converted records in input
    order, and returns the input records. Every record whose [ID] is
    [undefined] when the loop reaches it (it is not an object met earlier
    in the batch) has received an identifier of exactly 8 upper-case
    hexadecimal characters, which is the [ID] of no fetched record and of
    no earlier record of the batch. A record with any other [ID], [null]
    included, is left as it is. *)
Theorem insert_assigns_fresh_ids (w : world) (header : list string)
  (rows : list (list string)) (newData : insertArgument) :
  sheet w = Some (header :: rows) ->
  let fields := assignFirst header "ID" in
  let existing := map (projectRow fields) rows in
  let given := asArray newData in
  (forall good,
      List.NoDup (map candidate good) ->
      (forall d, In d good -> In d (draws w)) ->
      (forall d item, In d good -> In item existing ->
                      getField item "ID" <> VString (candidate d)) ->
      (forall d l, In d good -> In l given ->
                   getField (deref (heap w) l) "ID" <> VString (candidate d)) ->
      length (withoutId (heap w) given) <= length good ->
      exists w', insert newData w = (Returned given, w'))
  /\ (forall out w',
        insert newData w = (Returned out, w') ->
        out = given
        /\ log w'
           = log w
               ++ [fetch; fetch;
                   ValuesAppend spreadsheetId sheetName
                     (map (fun l => convertObjectToRow fields (deref (heap w') l))
                        given)]
        /\ (forall j l,
               given !! j = Some l ->
               getField (deref (heap w) l) "ID" = VUndefined ->
               ~ In l (take j given) ->
               exists proposedId,
                 getField (deref (heap w') l) "ID" = VString proposedId
                 /\ String.length proposedId = 8
                 /\ allUpperHex proposedId = true
                 /\ (forall item, In item existing ->
                                  getField item "ID" <> VString proposedId)
                 /\ (forall l', In l' (take j given) ->
                                getField (deref (heap w') l') "ID"
                                <> VString proposedId))
        /\ (forall l,
               In l given ->
               getField (deref (heap w) l) "ID" <> VUndefined ->
               deref (heap w') l = deref (heap w) l)).
Proof.
  intros Hs fields existing given. split.
  { intros good Hnd Hdraws Hexisting Hgiven Hlen.
    now apply (insert_returns w header rows newData good Hs). }
  intros out w' Hrun.
  destruct (insert_returned w w' header rows newData out Hs Hrun)
    as (Hout & newRows & w1 & Hloop & ->).
  fold fields existing given in Hloop.
  destruct (insertLoop_frame _ _ _ _ _ _ _ Hloop) as [_ Hlog].
  pose proof (insertLoop_rows _ _ _ _ _ _ _ Hloop) as Hrows.
  split; [exact Hout |]. split.
  { simpl. rewrite Hlog, Hrows. simpl. now rewrite <- app_assoc. }
  split.
  { intros j l Hj Hl Hfirst. simpl.
    destruct (insertLoop_heap _ _ _ _ _ _ _ Hloop l) as [_ Hnew].
    destruct (Hnew Hl (lookup_In _ _ _ Hj)) as (d & _ & Hheap).
    assert (Hid : getField (deref (heap w1) l) "ID" = VString (candidate d)).
    { unfold deref. rewrite Hheap. simpl.
      now rewrite getField_insert, decide_True by reflexivity. }
    destruct (insertLoop_fresh fields given (map Fetched existing) [] newRows
                (logged w [fetch; fetch]) w1) with (j := j) (l := l)
      as [Hdata Hearlier]; try assumption.
    { intros l0 Hl0. apply in_map_iff in Hl0 as (item & Heq & _). discriminate. }
    exists (candidate d). split; [exact Hid |].
    destruct (candidate_shape d) as [Hlen Hhex].
    split; [exact Hlen |]. split; [exact Hhex |]. split.
    - intros item Hitem. rewrite <- Hid.
      apply (Hdata (Fetched item)). now apply in_map.
    - intros l' Hl'. rewrite <- Hid. now apply Hearlier. }
  intros l _ Hl. simpl. apply deref_eq.
  apply (insertLoop_heap _ _ _ _ _ _ _ Hloop l). now left.
Qed.

(** C10, as the code has it. [insert] works on the caller's own objects.
    The run returns when the draws to come hold, for each object whose
    [ID] is [undefined], a draw of its own that proposes nobody's
    identifier. A run that returns hands back the very objects it was
    given, a single record as an array of that one object; an object
    among them whose [ID] was [undefined] is the same object with its [ID]
    field set to a generated identifier, and every other object, given
    with another [ID] ([null] included) or not given, is as it was. *)
Theorem insert_mutates_in_place (w : world) (header : list string)
  (rows : list (list string)) (newData : insertArgument) :
  sheet w = Some (header :: rows) ->
  (forall good,
      List.NoDup (map candidate good) ->
      (forall d, In d good -> In d (draws w)) ->
      (forall d row, In d good -> In row rows ->
         getField (projectRow (assignFirst header "ID") row) "ID"
         <> VString (candidate d)) ->
      (forall d l, In d good -> In l (asArray newData) ->
         getField (deref (heap w) l) "ID" <> VString (candidate d)) ->
      length (withoutId (heap w) (asArray newData)) <= length good ->
      exists out w', insert newData w = (Returned out, w'))
  /\ forall out w',
      insert newData w = (Returned out, w') ->
      (forall newProps, newData = One newProps -> out = [newProps])
      /\ (forall refs, newData = Many refs -> out = refs)
      /\ forall l,
          (In l out ->
           getField (deref (heap w) l) "ID" = VUndefined ->
           exists d,
             In d (draws w)
             /\ heap w' !! l
                = Some (<["ID" := Scalar (VString (candidate d))]>
                          (deref (heap w) l)))
          /\ (In l out ->
              getField (deref (heap w) l) "ID" <> VUndefined ->
              heap w' !! l = heap w !! l)
          /\ (~ In l out -> heap w' !! l = heap w !! l).
Proof.
  intros Hs. split.
  { intros good Hnd Hdraws Hexisting Hgiven Hlen.
    destruct (insert_returns w header rows newData good Hs) as [w' Hrun];
      try assumption; [| eauto].
    intros d item Hd Hitem. apply in_map_iff in Hitem as (row & <- & Hrow).
    now apply Hexisting. }
  intros out w' Hrun.
  destruct (insert_returned w w' header rows newData out Hs Hrun)
    as (Hout & newRows & w1 & Hloop & ->).
  split; [intros newProps ->; exact Hout |].
  split; [intros refs ->; exact Hout |].
  intros l. destruct (insertLoop_heap _ _ _ _ _ _ _ Hloop l) as [Hsame Hnew].
  rewrite Hout. simpl in *. split; [| split].
  - intros Hin Hl. now apply Hnew.
  - intros _ Hl. apply Hsame. now left.
  - intros Hnot. apply Hsame. now right.
Qed.

(** *** Reads *)

Lemma assignFirst_length (header : list string) (x : string) :
  length (assignFirst header x) = Nat.max 1 (length header).
Proof. destruct header; simpl; lia. Qed.

(** C9, as the code has it. On every read of a range that has a header
    row, the field list is "ID" followed by the header row without its
    first cell: position 0 is "ID" whatever the cell holds, every other
    position is the header's. Its length is the number of columns of the
    header row when that row has a cell, and 1 when the header row is
    empty. Looking a name up gives the first position that holds it, and
    -1 for a name that is not in the list. *)
Theorem field_list_of_header (w : world) (header : list string)
  (rows : list (list string)) :
  sheet w = Some (header :: rows) ->
  let fields := assignFirst header "ID" in
  fieldList w = (Returned fields, logged w [fetch])
  /\ (forall q,
        query q w
        = (match projectRows fields rows q with
           | inl e => Thrown e
           | inr accum => Returned accum
           end, logged w [fetch]))
  /\ fields = "ID" :: tail header
  /\ (forall i, 0 < i -> fields !! i = header !! i)
  /\ length fields = Nat.max 1 (length header)
  /\ (header <> [] -> length fields = length header)
  /\ (forall prop,
        (In prop fields ->
         exists c : nat,
           indexOf fields prop = Z.of_nat c
           /\ fields !! c = Some prop
           /\ forall j, j < c -> fields !! j <> Some prop)
        /\ (~ In prop fields -> indexOf fields prop = (-1)%Z)).
Proof.
  intros Hs fields.
  split; [now apply fields_run with rows |].
  split; [intros q; now apply query_run |].
  split; [now destruct header |].
  split; [intros [| i] Hi; [lia | now destruct header] |].
  split; [apply assignFirst_length |].
  split; [intros Hne; destruct header; [congruence | reflexivity] |].
  intros prop. split; [apply indexOf_found | apply indexOf_missing].
Qed.

(** C8, as the code has it. When the names of the field list are pairwise
    distinct and none of them is [__proto__], reading the records and
    converting each back with the same field list gives, cell by cell, the
    trimmed cell of the original row, and the empty string where the row
    has no cell: a row as long as the field list comes back trimmed, a
    shorter row reads as [undefined] in its missing fields and comes back
    padded with empty strings, and the cells of a longer row beyond the
    field list are dropped. *)
Theorem projector_round_trip (w : world) (header : list string)
  (rows : list (list string)) :
  sheet w = Some (header :: rows) ->
  List.NoDup (assignFirst header "ID") ->
  ~ In "__proto__" (assignFirst header "ID") ->
  let fields := assignFirst header "ID" in
  query None w = (Returned (map (projectRow fields) rows), logged w [fetch])
  /\ forall row,
      In row rows ->
      let back := convertObjectToRow fields (projectRow fields row) in
      length back = length fields
      /\ (forall j, j < length fields ->
                    back !! j
                    = Some (match row !! j with Some s => trim s | None => "" end))
      /\ (length row = length fields -> back = map trim row)
      /\ (forall j name,
             fields !! j = Some name -> length row <= j ->
             getField (projectRow fields row) name = VUndefined
             /\ back !! j = Some "").
Proof.
  intros Hs Hnd Hproto fields. split.
  { now apply query_all_run. }
  intros row _ back.
  split; [apply convertObjectToRow_length |].
  split; [intros j Hj; now apply round_trip_cell |].
  split; [now apply round_trip_full_row |].
  intros j name Hname Hshort. split.
  - rewrite (projectRow_field fields row j name Hnd Hname).
    + unfold cell. now rewrite lookup_ge_None_2.
    + intros ->. apply Hproto. eapply lookup_In, Hname.
  - unfold back. rewrite round_trip_cell.
    + now rewrite lookup_ge_None_2.
    + exact Hnd.
    + exact Hproto.
    + apply lookup_lt_is_Some_1. eauto.
Qed.

(** *** Updates that match no record *)

(** C1, what the code does. The early return of [update] looks at the
    number of fetched records, not at the number of matching ones. With no
    record at all it stops after the first fetch, with a notice and without
    a value. With records of which none matches, it goes on: it fetches the
    field list, makes one batched update call with no cell write in it, and
    returns an empty array. *)
Theorem update_zero_match (w : world) (header : list string)
  (rows : list (list string)) (q : option object) (patch : object) :
  sheet w = Some (header :: rows) ->
  (forall row, In row rows ->
     dataMatchesQuery (projectRow (assignFirst header "ID") row) q
     = inr false) ->
  (rows = [] ->
   update q patch w
   = (Returned None, logged w [fetch; ConsoleLog "0 rows returned for " q]))
  /\ (rows <> [] ->
      update q patch w
      = (Returned (Some []),
         logged w [fetch; fetch; ValuesBatchUpdate spreadsheetId []])).
Proof.
  intros Hs Hnone. split.
  - intros ->. now apply update_no_data with header.
  - intros Hrows. rewrite (update_run w header rows q patch Hs Hrows).
    rewrite rowLoop_no_match; [reflexivity |].
    intros dataRow Hin. apply in_map_iff in Hin as (row & <- & Hrow).
    now apply Hnone.
Qed.

End StoreProperties.

(** ** The theorems at work on concrete ranges *)

Lemma update_zero_match_witness :
  _update "doc" "Sheet1" (Some (plain [("ID", VString "none")]))
    (plain [("Status", VString "x")]) exampleWorld
  = (Returned (Some []),
     logged exampleWorld
       [ValuesGet "doc" "Sheet1"; ValuesGet "doc" "Sheet1";
        ValuesBatchUpdate "doc" []]).
Proof.
  apply (update_zero_match "doc" "Sheet1" exampleWorld ["Name"; "Status"]
           [["AB12"; "open"]]).
  - reflexivity.
  - intros row [<- | []]. reflexivity.
  - discriminate.
Defined.

(** C3, counterexample. A record matches and the patch has no field: no
    cell is written and no record is reported, but the batched update
    call, a remote write, is made all the same. *)
Lemma update_empty_patch_still_calls :
  dataMatchesQuery (projectRow ["ID"; "Status"] ["AB12"; "open"])
    (Some (plain [("ID", VString "AB12")])) = inr true
  /\ _update "doc" "Sheet1" (Some (plain [("ID", VString "AB12")]))
       (plain []) exampleWorld
     = (Returned (Some []),
        logged exampleWorld
          [ValuesGet "doc" "Sheet1"; ValuesGet "doc" "Sheet1";
           ValuesBatchUpdate "doc" []])
  /\ List.filter isRemoteWrite
       (log (snd (_update "doc" "Sheet1"
                    (Some (plain [("ID", VString "AB12")]))
                    (plain []) exampleWorld)))
     = [ValuesBatchUpdate "doc" []].
Proof. repeat split. Qed.

Lemma update_batches_cell_writes_witness :
  exists changedItems,
    _update "doc" "Sheet1" (Some (plain [("ID", VString "AB12")]))
      (plain [("Status", VString "closed")]) exampleWorld
    = (Returned (Some changedItems),
       logged exampleWorld
         [ValuesGet "doc" "Sheet1"; ValuesGet "doc" "Sheet1";
          ValuesBatchUpdate "doc"
            [{| range := "Sheet1!B2"; values := VString "closed" |}]])
    /\ changedItems
       = [ {[ "ID" := Scalar (VString "AB12");
              "Status" := Scalar (VString "closed") ]} ].
Proof.
  destruct (update_batches_cell_writes "doc" "Sheet1" exampleWorld
              ["Name"; "Status"] [["AB12"; "open"]]
              (Some (plain [("ID", VString "AB12")]))
              (plain [("Status", VString "closed")]))
    as (writes & changedItems & Hrun & _ & Hwrites & _ & _ & _ & Hchanged & _).
  - reflexivity.
  - discriminate.
  - reflexivity.
  - reflexivity.
  - intros prop [<- | []]. simpl. auto.
  - exists changedItems. subst writes changedItems. split; [exact Hrun |].
    vm_compute. reflexivity.
Defined.

(** C4, counterexample. The patch names a field that is not in the field
    list, no record matches the criteria: nothing is thrown, and the empty
    batch call is made. *)
Lemma update_unknown_field_unmatched :
  indexOf (assignFirst ["Name"; "Status"] "ID") "Bogus" = (-1)%Z
  /\ _update "doc" "Sheet1" (Some (plain [("ID", VString "none")]))
       (plain [("Bogus", VString "x")]) exampleWorld
     = (Returned (Some []),
        logged exampleWorld
          [ValuesGet "doc" "Sheet1"; ValuesGet "doc" "Sheet1";
           ValuesBatchUpdate "doc" []]).
Proof. split; reflexivity. Qed.

Lemma update_unknown_field_witness :
  exists prop,
    _update "doc" "Sheet1" (Some (plain [("ID", VString "AB12")]))
      (plain [("Bogus", VString "x")]) exampleWorld
    = (Thrown (Error ("Bad field: " +:+ prop)),
       logged exampleWorld [ValuesGet "doc" "Sheet1"; ValuesGet "doc" "Sheet1"]).
Proof.
  destruct (update_unknown_field "doc" "Sheet1" exampleWorld
              ["Name"; "Status"] [["AB12"; "open"]]
              (Some (plain [("ID", VString "AB12")]))
              (plain [("Bogus", VString "x")]))
    as (prop & _ & _ & Hrun & _).
  - reflexivity.
  - reflexivity.
  - reflexivity.
  - exists ["AB12"; "open"]. split; [now left | reflexivity].
  - exists "Bogus". split; [now left |].
    simpl. intros [H | [H | []]]; discriminate.
  - exists prop. exact Hrun.
Defined.

(** C9, counterexample. The header row of the range is empty: the field
    list has one name, the header row has no column. *)
Lemma field_list_of_empty_header :
  _fields "doc" "Sheet1" blankHeaderWorld
  = (Returned ["ID"], logged blankHeaderWorld [ValuesGet "doc" "Sheet1"])
  /\ length ["ID"] <> length (@nil string).
Proof. split; [reflexivity | discriminate]. Qed.

Lemma field_list_of_header_witness :
  _fields "doc" "Sheet1" exampleWorld
  = (Returned ["ID"; "Status"], logged exampleWorld [ValuesGet "doc" "Sheet1"]).
Proof.
  apply (field_list_of_header "doc" "Sheet1" exampleWorld ["Name"; "Status"]
           [["AB12"; "open"]]).
  reflexivity.
Defined.

(** C8, counterexample. Two columns with one name: the record keeps the
    later cell only and the row does not come back. A row longer than the
    header: its last cell does not come back. A column named [__proto__]:
    the record gets no such property, and the cell comes back as the text
    of [Object.prototype]. *)
Lemma round_trip_loses_cells :
  convertObjectToRow (assignFirst ["Name"; "Tag"; "Tag"] "ID")
    (projectRow (assignFirst ["Name"; "Tag"; "Tag"] "ID") ["AB12"; "x"; "y"])
  = ["AB12"; "y"; "y"]
  /\ map trim ["AB12"; "x"; "y"] = ["AB12"; "x"; "y"]
  /\ convertObjectToRow (assignFirst ["Name"; "Status"] "ID")
       (projectRow (assignFirst ["Name"; "Status"] "ID") ["AB12"; "open"; "late"])
     = ["AB12"; "open"]
  /\ map trim ["AB12"; "open"; "late"] = ["AB12"; "open"; "late"]
  /\ convertObjectToRow (assignFirst ["Name"; "__proto__"] "ID")
       (projectRow (assignFirst ["Name"; "__proto__"] "ID") ["AB12"; "x"])
     = ["AB12"; "[object Object]"]
  /\ map trim ["AB12"; "x"] = ["AB12"; "x"].
Proof. repeat split. Qed.

Lemma projector_round_trip_witness :
  convertObjectToRow ["ID"; "Status"] (projectRow ["ID"; "Status"] ["AB12"])
  !! 1 = Some "".
Proof.
  destruct (projector_round_trip "doc" "Sheet1"
              {| sheet := Some [["Name"; "Status"]; ["AB12"]];
                 heap := ∅; draws := []; log := [] |}
              ["Name"; "Status"] [["AB12"]]) as [_ Hrow].
  - reflexivity.
  - repeat constructor; simpl; intuition discriminate.
  - simpl. intros [H | [H | []]]; discriminate.
  - destruct (Hrow ["AB12"]) as (_ & _ & _ & Hshort); [now left |].
    apply (Hshort 1 "Status"); [reflexivity | simpl; lia].
Defined.

(** C5, counterexample. A record whose [ID] is [null] lacks an identifier
    (its first cell is written empty) and is given none: the object is
    left as it is and no draw is used. *)
Lemma insert_keeps_null_id :
  getField (deref (heap nullIdWorld) 0) "ID" = VNull
  /\ _insert "doc" "Sheet1" (One 0) nullIdWorld
     = (Returned [0],
        logged nullIdWorld
          [ValuesGet "doc" "Sheet1"; ValuesGet "doc" "Sheet1";
           ValuesAppend "doc" "Sheet1" [[""; "new"]]]).
Proof. split; reflexivity. Qed.

(** The first draw proposes the identifier of the record of the range and
    is refused; the second is kept. *)
Lemma insert_assigns_fresh_ids_witness :
  candidate {| byte0 := x00; byte1 := xab; byte2 := xff; byte3 := x1c |}
  = "00ABFF1C"
  /\ exists w' proposedId,
      _insert "doc" "Sheet1" (Many [0; 1]) collidingWorld = (Returned [0; 1], w')
      /\ getField (deref (heap w') 0) "ID" = VString proposedId
      /\ String.length proposedId = 8
      /\ proposedId <> "00ABFF1C"
      /\ getField (deref (heap w') 1) "ID" = VString "ZZ99".
Proof.
  split; [reflexivity |].
  destruct (insert_assigns_fresh_ids "doc" "Sheet1" collidingWorld
              ["Name"; "Status"] [["00ABFF1C"; "open"]] (Many [0; 1]) eq_refl)
    as [Hreturns Hreturned].
  destruct (Hreturns
              [{| byte0 := x12; byte1 := x34; byte2 := x56; byte3 := x78 |}])
    as [w' Hrun].
  - repeat constructor. simpl. tauto.
  - intros d [<- | []]. simpl. auto.
  - intros d item [<- | []] [<- | []]. vm_compute. discriminate.
  - intros d l [<- | []] [<- | [<- | []]]; vm_compute; discriminate.
  - vm_compute. lia.
  - destruct (Hreturned _ _ Hrun) as (_ & _ & Hnew & Hkept).
    destruct (Hnew 0 0) as (proposedId & Hid & Hlen & _ & Hfresh & _).
    + reflexivity.
    + reflexivity.
    + simpl. tauto.
    + exists w', proposedId. split; [exact Hrun |]. split; [exact Hid |].
      split; [exact Hlen |]. split.
      * intros ->.
        apply (Hfresh (projectRow ["ID"; "Status"] ["00ABFF1C"; "open"]));
          [now left | reflexivity].
      * rewrite (Hkept 1); [reflexivity | simpl; auto | discriminate].
Defined.

(** C10, counterexample. An object whose [ID] is [null] lacks an
    identifier, and [insert] writes none onto it: it is handed back as it
    was given. *)
Lemma insert_writes_nothing_over_null :
  fst (_insert "doc" "Sheet1" (Many [0]) nullIdWorld) = Returned [0]
  /\ heap (snd (_insert "doc" "Sheet1" (Many [0]) nullIdWorld))
     = heap nullIdWorld
  /\ getField
       (deref (heap (snd (_insert "doc" "Sheet1" (Many [0]) nullIdWorld))) 0)
       "ID"
     = VNull.
Proof. repeat split. Qed.

(** The object given receives its identifier, the other object of the
    caller is as it was. *)
Lemma insert_mutates_in_place_witness :
  exists w',
    _insert "doc" "Sheet1" (One 0) callerWorld = (Returned [0], w')
    /\ (exists d,
           In d (draws callerWorld)
           /\ heap w' !! 0
              = Some (<["ID" := Scalar (VString (candidate d))]>
                        (deref (heap callerWorld) 0)))
    /\ heap w' !! 1 = heap callerWorld !! 1.
Proof.
  destruct (insert_mutates_in_place "doc" "Sheet1" callerWorld
              ["Name"; "Status"] [["AB12"; "open"]] (One 0) eq_refl)
    as [Hreturns Hreturned].
  destruct (Hreturns
              [{| byte0 := x00; byte1 := xab; byte2 := xff; byte3 := x1c |}])
    as (out & w' & Hrun).
  - repeat constructor. simpl. tauto.
  - intros d [<- | []]. simpl. auto.
  - intros d row [<- | []] [<- | []]. vm_compute. discriminate.
  - intros d l [<- | []] [<- | []]. vm_compute. discriminate.
  - vm_compute. lia.
  - destruct (Hreturned out w' Hrun) as (Hone & _ & Hheap).
    rewrite (Hone 0 eq_refl) in Hrun, Hheap.
    exists w'. split; [exact Hrun |]. split.
    + apply (Hheap 0); [now left | reflexivity].
    + apply (Hheap 1). simpl. intros [H | []]. discriminate.
Defined.

(** * Further properties of the module *)

Section Reads.

Variables spreadsheetId sheetName : string.

Local Abbreviation query := (_query spreadsheetId sheetName).
Local Abbreviation fieldList := (_fields spreadsheetId sheetName).
Local Abbreviation insert := (_insert spreadsheetId sheetName).
Local Abbreviation update := (_update spreadsheetId sheetName).
Local Abbreviation fetch := (ValuesGet spreadsheetId sheetName).

(** X1. A query makes one fetch and nothing else. With no query, or a
    query on which the calls of [hasOwnProperty] succeed (the method is
    the built-in one, or the query has no enumerable key), it returns
    exactly the records of the rows that match, in the order of the rows:
    the records of a query without criteria, filtered. With any other
    query (a property called [hasOwnProperty] hides the built-in method,
    or the prototype chain ends at [null]) it throws a TypeError at the
    first row, and returns the empty array when there is no row. *)
Theorem query_returns_matching_rows (w : world) (header : list string)
  (rows : list (list string)) (q : option object) :
  sheet w = Some (header :: rows) ->
  let all := map (projectRow (assignFirst header "ID")) rows in
  query None w = (Returned all, logged w [fetch])
  /\ (callableQuery q = true ->
      query q w
      = (Returned (List.filter (fun item => matches item q) all),
         logged w [fetch])
      /\ forall item,
          In item (List.filter (fun item => matches item q) all) <->
          In item all /\ dataMatchesQuery item q = inr true)
  /\ (callableQuery q = false -> rows <> [] ->
      query q w = (Thrown TypeError, logged w [fetch]))
  /\ (callableQuery q = false -> rows = [] ->
      query q w = (Returned [], logged w [fetch])).
Proof.
  intros Hs all. rewrite !(query_run _ _ w header rows _ Hs).
  split; [now rewrite projectRows_all |].
  split.
  { intros Hc. rewrite projectRows_filter by assumption.
    split; [reflexivity |]. intros item. rewrite filter_In.
    unfold matches. destruct (dataMatchesQuery_cases item q)
      as [[_ ->] | [Hh _]]; [| congruence].
    split; intros [Hin Hm]; (split; [exact Hin | congruence]). }
  split.
  { intros Hc Hrows. destruct rows as [| row rows']; [congruence |].
    unfold projectRows. now rewrite reduceRows_hidden. }
  intros _ ->. reflexivity.
Qed.

(** X2. On a range without a header row (no values at all, or an empty
    list of rows) every operation throws a TypeError right after its first
    fetch: nothing is written, no object of the caller is touched and no
    random draw is used. *)
Theorem range_without_header_throws (w : world) (q : option object)
  (patch : object) (newData : insertArgument) :
  sheet w = None \/ sheet w = Some [] ->
  query q w = (Thrown TypeError, logged w [fetch])
  /\ fieldList w = (Thrown TypeError, logged w [fetch])
  /\ insert newData w = (Thrown TypeError, logged w [fetch])
  /\ update q patch w = (Thrown TypeError, logged w [fetch])
  /\ heap (logged w [fetch]) = heap w
  /\ draws (logged w [fetch]) = draws w.
Proof.
  intros Hs.
  assert (Hq : forall q', query q' w = (Thrown TypeError, logged w [fetch])).
  { intros q'. unfold _query, valuesGet, bind, emit, fetched. simpl.
    destruct Hs as [-> | ->]; reflexivity. }
  split; [apply Hq |]. split.
  { unfold _fields, valuesGet, bind, emit, fetched. simpl.
    destruct Hs as [-> | ->]; reflexivity. }
  split; [unfold _insert, bind; now rewrite Hq |].
  split; [unfold _update, bind; now rewrite Hq |].
  split; reflexivity.
Qed.

Lemma forEachField_dom (fields row : list string) (index : nat)
  (newItem : record) :
  dom (forEachField fields index row newItem)
  =@{gset string}
  list_to_set (List.filter (fun name => negb (String.eqb name "__proto__")) fields)
    ∪ dom newItem.
Proof.
  revert index newItem.
  induction fields as [| name fields IH]; intros index newItem; simpl.
  - set_solver.
  - rewrite IH. unfold assign.
    destruct (String.eqb name "__proto__"); simpl.
    + reflexivity.
    + rewrite dom_insert_L. set_solver.
Qed.

(** X3. Every record that a query returns has as its keys exactly the
    names of the field list other than [__proto__], whatever the length of
    its row; so it always has an [ID] key and never a [__proto__] key, and
    when no other column is called "ID" its [ID] is the first cell of its
    row ([undefined] for an empty row). *)
Theorem queried_records_have_the_fields (w w' : world) (header : list string)
  (rows : list (list string)) (q : option object) (found : list record) :
  sheet w = Some (header :: rows) ->
  query q w = (Returned found, w') ->
  forall item,
    In item found ->
    dom item
    =@{gset string}
    list_to_set
      (List.filter (fun name => negb (String.eqb name "__proto__"))
         (assignFirst header "ID"))
    /\ "ID" ∈ dom item
    /\ item !! "__proto__" = None
    /\ (~ In "ID" (tail header) ->
        exists row, In row rows /\ dataMatchesQuery item q = inr true
                    /\ getField item "ID" = cell row 0).
Proof.
  intros Hs Hrun item Hitem.
  rewrite (query_run _ _ w header rows q Hs) in Hrun.
  assert (Hfound : In item (map (projectRow (assignFirst header "ID")) rows)
                   /\ dataMatchesQuery item q = inr true).
  { destruct (callableQuery q) eqn:Hc.
    - rewrite projectRows_filter in Hrun by assumption.
      injection Hrun as <- _. apply filter_In in Hitem as [Hin Hm].
      split; [exact Hin |]. unfold matches in Hm.
      destruct (dataMatchesQuery item q) as [e | b]; congruence.
    - destruct rows as [| row rows'].
      + injection Hrun as <- _. destruct Hitem.
      + unfold projectRows in Hrun. rewrite reduceRows_hidden in Hrun by assumption.
        discriminate. }
  destruct Hfound as [Hin Hmatch].
  apply in_map_iff in Hin as (row & <- & Hrow).
  assert (Hdom : dom (projectRow (assignFirst header "ID") row)
                 =@{gset string}
                 list_to_set
                   (List.filter (fun name => negb (String.eqb name "__proto__"))
                      (assignFirst header "ID"))).
  { unfold projectRow. rewrite forEachField_dom. set_solver. }
  split; [exact Hdom |]. split.
  { rewrite Hdom. destruct header; simpl; set_solver. }
  split.
  { unfold projectRow. now rewrite forEachField_proto. }
  intros Hnot. exists row. split; [exact Hrow |]. split; [exact Hmatch |].
  unfold getField, projectRow.
  replace (assignFirst header "ID") with ("ID" :: tail header)
    by now destruct header.
  simpl. rewrite forEachField_other by assumption.
  rewrite assign_named by discriminate.
  now rewrite lookup_insert_eq.
Qed.

End Reads.

(** ** Column names read back *)

Section CodecInverse.

Local Open Scope N_scope.

Lemma letters_small (d : N) : d < 26 -> letters d = fromCharCode (charCodeA + d).
Proof.
  intros Hd. rewrite letters_unfold. unfold letterOf.
  rewrite (N.div_small d 26 Hd), (N.mod_small d 26 Hd). reflexivity.
Qed.

Lemma letters_step (v d : N) :
  1 <= v -> d < 26 ->
  letters (v * 26 + d) = letters (v - 1) +:+ fromCharCode (charCodeA + d).
Proof.
  intros Hv Hd. rewrite letters_unfold.
  assert (Hq : (v * 26 + d) / 26 = v)
    by (rewrite N.div_add_l by lia; rewrite (N.div_small d 26 Hd); lia).
  assert (Hr : (v * 26 + d) mod 26 = d)
    by (rewrite N.add_comm, N.Div0.mod_add; now apply N.mod_small).
  rewrite Hq. unfold letterOf. rewrite Hr.
  destruct (N.eqb_spec v 0); [lia | reflexivity].
Qed.

Lemma upper_letter_code (c : ascii) :
  isUpperLetter c = true ->
  exists d, d < 26 /\ N_of_ascii c - 64 = d + 1
            /\ fromCharCode (charCodeA + d) = String c "".
Proof.
  unfold isUpperLetter. intros H. apply andb_true_iff in H as [Hlo Hhi].
  apply N.leb_le in Hlo, Hhi.
  exists (N_of_ascii c - 65). split; [lia |]. split; [lia |].
  unfold fromCharCode, charCodeA.
  replace (65 + (N_of_ascii c - 65)) with (N_of_ascii c) by lia.
  now rewrite ascii_N_embedding.
Qed.

Lemma string_app_assoc (a b c : string) : (a +:+ b) +:+ c = a +:+ (b +:+ c).
Proof.
  induction a as [| x a IH]; [reflexivity |].
  change (String x ((a +:+ b) +:+ c) = String x (a +:+ (b +:+ c))).
  now f_equal.
Qed.

Lemma string_app_empty_r (p : string) : p +:+ "" = p.
Proof.
  induction p as [| x p IH]; [reflexivity |].
  change (String x (p +:+ "") = String x p). now f_equal.
Qed.

Lemma letters_of_value (s p : string) (v : N) :
  1 <= v ->
  letters (v - 1) = p ->
  allUpperLetters s = true ->
  1 <= bijectiveValue v s /\ letters (bijectiveValue v s - 1) = p +:+ s.
Proof.
  revert p v. induction s as [| c s IH]; intros p v Hv Hp Hs; simpl.
  - split; [exact Hv |]. now rewrite Hp, string_app_empty_r.
  - simpl in Hs. apply andb_true_iff in Hs as [Hc Hs].
    destruct (upper_letter_code c Hc) as (d & Hd & Hcode & Hchar).
    rewrite Hcode.
    destruct (IH (p +:+ String c "") (v * 26 + (d + 1))) as [Hpos Hlet];
      [lia | | exact Hs |].
    + replace (v * 26 + (d + 1) - 1) with (v * 26 + d) by lia.
      now rewrite letters_step, Hp, Hchar by assumption.
    + split; [exact Hpos |]. rewrite Hlet. now rewrite string_app_assoc.
Qed.

Lemma columnOfLetters_letters (num : N) : columnOfLetters (letters num) = num.
Proof. unfold columnOfLetters. rewrite letters_bijectiveValue. lia. Qed.

Lemma letters_inj (m n : N) : letters m = letters n -> m = n.
Proof.
  intros Heq.
  rewrite <- (columnOfLetters_letters m), <- (columnOfLetters_letters n).
  now rewrite Heq.
Qed.

(** X5. Column names and column indexes correspond one to one: reading
    the name of a column back gives the column, two different columns
    never share a name, and every non-empty string of the letters A-Z is
    the name of the column that it reads back as. *)
Theorem column_names_one_to_one :
  (forall num : N, columnOfLetters (letters num) = num)
  /\ (forall m n : N, letters m = letters n -> m = n)
  /\ (forall s : string,
        s <> "" -> allUpperLetters s = true ->
        letters (columnOfLetters s) = s).
Proof.
  split; [exact columnOfLetters_letters |]. split; [exact letters_inj |].
  - intros [| c s] Hne Hs; [congruence |]. simpl in Hs.
    apply andb_true_iff in Hs as [Hc Hs].
    destruct (upper_letter_code c Hc) as (d & Hd & Hcode & Hchar).
    unfold columnOfLetters. simpl. rewrite Hcode.
    destruct (letters_of_value s (String c "") (d + 1)) as [_ Hlet];
      [lia | | exact Hs | exact Hlet].
    replace (d + 1 - 1) with d by lia. now rewrite letters_small.
Qed.

Lemma column_names_one_to_one_witness : letters (columnOfLetters "BC") = "BC".
Proof.
  apply (proj2 (proj2 column_names_one_to_one)); [discriminate | reflexivity].
Defined.

End CodecInverse.

(** ** The matcher as a relation *)

Lemma numberEquals_sym (a b : number) : numberEquals a b = numberEquals b a.
Proof.
  destruct a as [| s | p], b as [| t | q]; simpl; try reflexivity.
  - now destruct s, t.
  - apply eq_true_iff_eq. rewrite !Qeq_bool_iff. split; intros H; now symmetry.
Qed.

Lemma numberEquals_trans (a b c : number) :
  numberEquals a b = true -> numberEquals b c = true -> numberEquals a c = true.
Proof.
  destruct a as [| s | p], b as [| t | q], c as [| u | r]; simpl;
    try discriminate.
  - destruct s, t, u; simpl; congruence.
  - rewrite !Qeq_bool_iff. intros H1 H2. now rewrite H1.
Qed.

Lemma numberEquals_refl (a : number) : isNaN a = false -> numberEquals a a = true.
Proof.
  destruct a as [| s | p]; simpl; intros H; [discriminate | now destruct s |].
  now apply Qeq_bool_iff.
Qed.

Lemma strictEquals_sym (a b : value) : strictEquals a b = strictEquals b a.
Proof.
  destruct a as [[| | x | x | x] | m], b as [[| | y | y | y] | n]; simpl;
    try reflexivity.
  - now destruct x, y.
  - apply numberEquals_sym.
  - apply String.eqb_sym.
  - apply String.eqb_sym.
Qed.

(** Strictly identical values convert to the same number. *)
Lemma strictEquals_Number (a b : value) :
  strictEquals a b = true ->
  isNaN (Number a) = isNaN (Number b)
  /\ (isNaN (Number a) = false -> numberEquals (Number a) (Number b) = true).
Proof.
  destruct a as [[| | x | x | x] | m], b as [[| | y | y | y] | n]; simpl;
    try discriminate; intros H.
  - split; [reflexivity | discriminate].
  - split; [reflexivity | reflexivity].
  - apply Bool.eqb_prop in H as ->. split; [reflexivity |].
    now destruct y.
  - split; [| now intros _].
    destruct x, y; simpl in *; congruence.
  - apply String.eqb_eq in H as ->. split; [reflexivity |].
    apply numberEquals_refl.
  - split; [reflexivity | discriminate].
Qed.

Lemma strictEquals_trans (a b c : value) :
  strictEquals a b = true -> strictEquals b c = true -> strictEquals a c = true.
Proof.
  destruct a as [[| | x | x | x] | m], b as [[| | y | y | y] | n],
    c as [[| | z | z | z] | o];
    simpl; try discriminate; try reflexivity.
  - intros H1 H2. apply Bool.eqb_prop in H1, H2. subst. apply Bool.eqb_reflx.
  - apply numberEquals_trans.
  - intros H1 H2. apply String.eqb_eq in H1, H2. subst. apply String.eqb_refl.
  - intros H1 H2. apply String.eqb_eq in H1, H2.
    apply String.eqb_eq. congruence.
Qed.

(** X6. The matcher is symmetric and transitive, and every value matches
    itself except the number NaN: it is an equivalence on the values other
    than NaN. *)
Theorem areEqual_equivalence :
  (forall a b : value, areEqual a b = areEqual b a)
  /\ (forall a b c : value,
        areEqual a b = true -> areEqual b c = true -> areEqual a c = true)
  /\ (forall a : value, areEqual a a = true <-> a <> VNumber NaN).
Proof.
  split; [| split].
  - intros a b. unfold areEqual.
    rewrite (strictEquals_sym a b), (numberEquals_sym (Number a) (Number b)).
    destruct (strictEquals b a); [reflexivity |].
    now destruct (isNaN (Number a)), (isNaN (Number b)).
  - intros a b c Hab Hbc. apply areEqual_true in Hab, Hbc. apply areEqual_true.
    destruct Hab as [Hab | (Ha & Hb & Hab)], Hbc as [Hbc | (Hb' & Hc & Hbc)].
    + left. now apply strictEquals_trans with b.
    + right. destruct (strictEquals_Number a b Hab) as [Hnan Hnum].
      rewrite Hb' in Hnan. split; [exact Hnan |]. split; [exact Hc |].
      apply numberEquals_trans with (Number b); auto.
    + right. destruct (strictEquals_Number b c Hbc) as [Hnan Hnum].
      rewrite Hb in Hnan. split; [exact Ha |]. split; [now symmetry |].
      apply numberEquals_trans with (Number b); auto.
    + right. split; [exact Ha |]. split; [exact Hc |].
      now apply numberEquals_trans with (Number b).
  - intros a. rewrite areEqual_true. split.
    + intros [H | (H & _)] ->; simpl in H; discriminate.
    + intros Hne. destruct a as [[| | x | x | x] | m]; simpl.
      * now left.
      * now left.
      * left. apply Bool.eqb_reflx.
      * destruct x as [| s | p]; [congruence | left; now destruct s |].
        left. simpl. now apply Qeq_bool_iff.
      * left. apply String.eqb_refl.
      * left. apply String.eqb_refl.
Qed.

Lemma areEqual_equivalence_witness :
  areEqual (VString "5") (VString "05") = true.
Proof.
  apply (proj1 (proj2 areEqual_equivalence) _ (VNumber (Finite 5)));
    vm_compute; reflexivity.
Defined.

(** ** Rows written, read back *)

Lemma trimEnd_fixed (s : string) : trimEnd (trimEnd s) = trimEnd s.
Proof.
  induction s as [| c s IH]; [reflexivity |].
  simpl. destruct (trimEnd s) as [| d r] eqn:E.
  - destruct (isWhiteSpace c) eqn:Hc; [reflexivity |].
    simpl. now rewrite Hc.
  - simpl in *. now rewrite IH.
Qed.

Lemma trimStart_clean (s : string) : startsClean (trimStart s).
Proof.
  induction s as [| c s IH]; simpl; [exact I |].
  destruct (isWhiteSpace c) eqn:Hc; [exact IH | exact Hc].
Qed.

Lemma trimStart_of_clean (s : string) : startsClean s -> trimStart s = s.
Proof. destruct s as [| c s]; simpl; [reflexivity | now intros ->]. Qed.

Lemma trimEnd_clean (s : string) : startsClean s -> startsClean (trimEnd s).
Proof.
  destruct s as [| c s]; simpl; [auto |]. intros Hc.
  destruct (trimEnd s); [now rewrite Hc | exact Hc].
Qed.

Lemma trim_fixed (s : string) : trim (trim s) = trim s.
Proof.
  unfold trim.
  rewrite (trimStart_of_clean (trimEnd (trimStart s)))
    by apply trimEnd_clean, trimStart_clean.
  apply trimEnd_fixed.
Qed.

Lemma converted_cell_fixed (fields : list string) (newProps : record)
  (c : string) :
  In c (convertObjectToRow fields newProps) -> trim c = c.
Proof.
  unfold convertObjectToRow. intros H.
  apply in_map_iff in H as (name & <- & _).
  destruct (notNullish (getField newProps name)); [apply trim_fixed | reflexivity].
Qed.

(** X4. A row made by the converter reads back as itself: it has one cell
    per field, every cell is already trimmed, the record that the
    projector builds from it holds each cell as a string under its field
    name (never [undefined]), and converting that record gives the same
    row again. The field names must be pairwise distinct, and none of
    them [__proto__]. *)
Theorem converted_row_reads_back (fields : list string) (newProps : record) :
  List.NoDup fields ->
  ~ In "__proto__" fields ->
  let row := convertObjectToRow fields newProps in
  length row = length fields
  /\ (forall c, In c row -> trim c = c)
  /\ (forall j name,
         fields !! j = Some name ->
         exists c, row !! j = Some c
                   /\ getField (projectRow fields row) name = VString c)
  /\ convertObjectToRow fields (projectRow fields row) = row.
Proof.
  intros Hnd Hproto row.
  assert (Hlen : length row = length fields) by apply convertObjectToRow_length.
  split; [exact Hlen |].
  split; [intros c; apply converted_cell_fixed |].
  split.
  - intros j name Hname.
    destruct (lookup_lt_is_Some_2 row j) as [c Hc].
    { rewrite Hlen. apply lookup_lt_is_Some_1. eauto. }
    exists c. split; [exact Hc |].
    rewrite (projectRow_field fields row j name Hnd Hname).
    + unfold cell. now rewrite Hc.
    + intros ->. apply Hproto. eapply lookup_In, Hname.
  - rewrite round_trip_full_row by assumption.
    rewrite <- (map_id row) at 2. apply map_ext_in.
    intros c. apply converted_cell_fixed.
Qed.

Lemma converted_row_reads_back_witness :
  convertObjectToRow ["ID"; "Status"]
    (projectRow ["ID"; "Status"]
       (convertObjectToRow ["ID"; "Status"]
          {[ "ID" := Scalar (VNumber (Finite 7)); "Status" := Scalar (VString " open ") ]}))
  = convertObjectToRow ["ID"; "Status"]
      {[ "ID" := Scalar (VNumber (Finite 7)); "Status" := Scalar (VString " open ") ]}.
Proof.
  apply (converted_row_reads_back ["ID"; "Status"]).
  - repeat constructor; simpl; intuition discriminate.
  - simpl. intros [H | [H | []]]; discriminate.
Defined.

(** ** Criteria taken together *)

Lemma assoc_app (k : string) (o1 o2 : list (string * scalar)) :
  assoc k (o1 ++ o2)
  = match assoc k o1 with Some v => Some v | None => assoc k o2 end.
Proof.
  induction o1 as [| [k' v] o1 IH]; simpl; [reflexivity |].
  now destruct (String.eqb k' k).
Qed.

Lemma forIn_nil (o i : list (string * scalar)) (r : bool) :
  forIn {| own := o; inherited := i; rooted := r |} = [] <-> o = [] /\ i = [].
Proof.
  unfold forIn. simpl. split.
  - intros H. apply app_eq_nil in H as [Ho Hi].
    destruct o as [| kv o]; [| discriminate]. split; [reflexivity |].
    destruct i as [| [k v] i]; [reflexivity | discriminate].
  - now intros [-> ->].
Qed.

Lemma callable_app (o1 o2 i : list (string * scalar)) (r : bool) :
  callable {| own := o1 ++ o2; inherited := i; rooted := r |}
  = callable {| own := o1; inherited := i; rooted := r |}
    && callable {| own := o2; inherited := i; rooted := r |}.
Proof.
  apply eq_true_iff_eq.
  rewrite andb_true_iff, !callable_unhidden, !forIn_nil. simpl.
  rewrite map_app, in_app_iff. split.
  - intros [(Hr & Ho & Hi) | [Ho ->]].
    + split; left; tauto.
    + apply app_eq_nil in Ho as [-> ->]. split; right; auto.
  - intros [[(Hr & Ho1 & Hi) | [-> ->]] [(Hr' & Ho2 & Hi') | [-> Hi']]].
    + left. tauto.
    + left. simpl. tauto.
    + left. simpl. tauto.
    + right. auto.
Qed.

(** X7. Criteria are conjunctive. A query made of two groups of criteria
    with no key in common lets a record through exactly when each group
    does, and the order of the groups changes nothing, neither to the
    answer nor to the failure; and whatever the keys, adding criteria to a
    query never lets a new record through. *)
Theorem query_criteria_conjoin (dataRow : record)
  (o1 o2 i : list (string * scalar)) (r : bool) :
  (dataMatchesQuery dataRow
     (Some {| own := o1 ++ o2; inherited := i; rooted := r |}) = inr true ->
   dataMatchesQuery dataRow
     (Some {| own := o1; inherited := i; rooted := r |}) = inr true)
  /\ ((forall k, In k (map fst o1) -> ~ In k (map fst o2)) ->
      matches dataRow (Some {| own := o1 ++ o2; inherited := i; rooted := r |})
      = matches dataRow (Some {| own := o1; inherited := i; rooted := r |})
        && matches dataRow (Some {| own := o2; inherited := i; rooted := r |})
      /\ dataMatchesQuery dataRow
           (Some {| own := o1 ++ o2; inherited := i; rooted := r |})
         = dataMatchesQuery dataRow
             (Some {| own := o2 ++ o1; inherited := i; rooted := r |})).
Proof.
  assert (Hleft : forall a b prop,
             In prop (map fst a) ->
             getProp {| own := a ++ b; inherited := i; rooted := r |} prop
             = getProp {| own := a; inherited := i; rooted := r |} prop).
  { intros a b prop Hin. apply assoc_In in Hin as [v Hv].
    unfold getProp. simpl. now rewrite assoc_app, Hv. }
  assert (Hright : forall a b prop,
             ~ In prop (map fst a) ->
             getProp {| own := a ++ b; inherited := i; rooted := r |} prop
             = getProp {| own := b; inherited := i; rooted := r |} prop).
  { intros a b prop Hnot. apply assoc_None in Hnot.
    unfold getProp. simpl. now rewrite assoc_app, Hnot. }
  assert (Hfirst : forall a b,
             matches dataRow
               (Some {| own := a ++ b; inherited := i; rooted := r |}) = true ->
             matches dataRow
               (Some {| own := a; inherited := i; rooted := r |}) = true).
  { intros a b. rewrite !matches_own, callable_app, andb_true_iff. simpl.
    rewrite map_app. intros [[Ha _] H]. split; [exact Ha |].
    intros prop Hin. rewrite <- (Hleft a b) by assumption.
    apply H, in_or_app. now left. }
  assert (Hboth : forall a b,
             (forall k, In k (map fst a) -> ~ In k (map fst b)) ->
             matches dataRow
               (Some {| own := a ++ b; inherited := i; rooted := r |})
             = matches dataRow (Some {| own := a; inherited := i; rooted := r |})
               && matches dataRow
                    (Some {| own := b; inherited := i; rooted := r |})).
  { intros a b Hdis. apply eq_true_iff_eq.
    rewrite andb_true_iff, !matches_own, callable_app, andb_true_iff. simpl.
    rewrite map_app. split.
    - intros [[Hca Hcb] H]. split; (split; [assumption |]); intros prop Hin.
      + rewrite <- (Hleft a b) by assumption. apply H, in_or_app. now left.
      + rewrite <- (Hright a b).
        * apply H, in_or_app. now right.
        * intros Ha. now apply (Hdis prop).
    - intros [[Hca Ha] [Hcb Hb]]. split; [now split |].
      intros prop Hin. apply in_app_or in Hin as [Hin | Hin].
      + rewrite Hleft by assumption. now apply Ha.
      + rewrite Hright; [now apply Hb |].
        intros Ha'. now apply (Hdis prop). }
  assert (Hsum : forall q, dataMatchesQuery dataRow (Some q) = inr true <->
                           matches dataRow (Some q) = true).
  { intros q. unfold matches.
    destruct (dataMatchesQuery dataRow (Some q)) as [e | b];
      split; intros H; congruence. }
  split.
  - rewrite !Hsum. apply Hfirst.
  - intros Hdis. split; [now apply Hboth |].
    assert (Hswap : matches dataRow
                      (Some {| own := o1 ++ o2; inherited := i; rooted := r |})
                    = matches dataRow
                        (Some {| own := o2 ++ o1; inherited := i; rooted := r |})).
    { rewrite (Hboth o1 o2 Hdis), (Hboth o2 o1), andb_comm; [reflexivity |].
      intros k Hk2 Hk1. now apply (Hdis k). }
    destruct (dataMatchesQuery_cases dataRow
                (Some {| own := o1 ++ o2; inherited := i; rooted := r |}))
      as [[Hc ->] | [Hc ->]];
      destruct (dataMatchesQuery_cases dataRow
                  (Some {| own := o2 ++ o1; inherited := i; rooted := r |}))
      as [[Hc' ->] | [Hc' ->]]; simpl in Hc, Hc'.
    + now rewrite Hswap.
    + rewrite callable_app in Hc. rewrite callable_app, andb_comm in Hc'.
      congruence.
    + rewrite callable_app in Hc. rewrite callable_app, andb_comm in Hc'.
      congruence.
    + reflexivity.
Qed.

Lemma query_criteria_conjoin_witness :
  matches {[ "ID" := Scalar (VString "AB12"); "Status" := Scalar (VString "open") ]}
    (Some (plain [("ID", VString "AB12"); ("Status", VString "open")]))
  = matches {[ "ID" := Scalar (VString "AB12"); "Status" := Scalar (VString "open") ]}
      (Some (plain [("ID", VString "AB12")]))
    && matches {[ "ID" := Scalar (VString "AB12"); "Status" := Scalar (VString "open") ]}
         (Some (plain [("Status", VString "open")])).
Proof.
  apply (proj2 (query_criteria_conjoin _ [("ID", VString "AB12")]
                  [("Status", VString "open")] [] true)).
  intros k [<- | []] [H | []]. discriminate.
Defined.

(** ** Updates, whatever their outcome *)

Section Updates.

Variables spreadsheetId sheetName : string.

Local Abbreviation query := (_query spreadsheetId sheetName).
Local Abbreviation update := (_update spreadsheetId sheetName).
Local Abbreviation fetch := (ValuesGet spreadsheetId sheetName).

Lemma patchLoop_first_inl (fields : list string) (patch : object) (i : nat)
  (props : list string) (st : patchState) (e : exn) :
  builtIn patch = true ->
  patchLoop sheetName fields patch i props st = inl e ->
  exists pre prop post,
    List.filter (isOwn patch) props = pre ++ prop :: post
    /\ (forall k, In k pre -> In k fields)
    /\ ~ In prop fields
    /\ e = Error ("Bad field: " +:+ prop).
Proof.
  intros Hc. revert st. induction props as [| p props IH]; intros st; simpl.
  - discriminate.
  - rewrite (hasOwnProperty_builtIn patch p Hc).
    destruct (isOwn patch p) eqn:Hown; simpl.
    + destruct (Z.eqb_spec (indexOf fields p) (-1)) as [Hbad | Hok].
      * intros [= <-]. exists [], p, (List.filter (isOwn patch) props).
        split; [reflexivity |]. split; [intros k [] |].
        split; [now apply indexOf_missing | reflexivity].
      * intros H. destruct (IH _ H) as (pre & k & post & -> & Hpre & Hk & ->).
        exists (p :: pre), k, post. split; [reflexivity |].
        split; [| auto]. intros x [<- | Hx]; [| auto].
        destruct (in_dec string_dec p fields) as [Hin | Hnot]; [exact Hin |].
        now apply indexOf_missing in Hnot.
    + apply IH.
Qed.

Lemma patchLoop_first (fields : list string) (patch : object) (i : nat)
  (props pre post : list string) (prop : string) (st : patchState) :
  builtIn patch = true ->
  List.filter (isOwn patch) props = pre ++ prop :: post ->
  (forall k, In k pre -> In k fields) ->
  ~ In prop fields ->
  patchLoop sheetName fields patch i props st
  = inl (Error ("Bad field: " +:+ prop)).
Proof.
  intros Hc. revert pre st.
  induction props as [| p props IH]; intros pre st Heq Hpre Hbad; simpl.
  - now destruct pre.
  - rewrite (hasOwnProperty_builtIn patch p Hc). simpl in Heq.
    destruct (isOwn patch p) eqn:Hown; [| now apply (IH pre)].
    destruct pre as [| k pre]; simpl in Heq; injection Heq as -> Heq.
    + apply indexOf_missing in Hbad. now rewrite Hbad.
    + assert (Hin : In k fields) by (apply Hpre; now left).
      destruct (Z.eqb_spec (indexOf fields k) (-1)) as [Hm | _].
      * apply indexOf_missing in Hm. contradiction.
      * apply (IH pre); [exact Heq | | exact Hbad].
        intros x Hx. apply Hpre. now right.
Qed.

(** The loop over the patch throws exactly as [patchFailure] says,
    whatever the record. *)
Lemma patchLoop_throws (fields : list string) (patch : object) (i : nat)
  (st : patchState) (e : exn) :
  patchLoop sheetName fields patch i (forIn patch) st = inl e <->
  patchFailure fields patch e.
Proof.
  unfold patchFailure, firstUnknown. destruct (callable patch) eqn:Hc.
  - split.
    + intros Hrun. right. split; [reflexivity |].
      apply callable_cases in Hc as [Hb | Hnil];
        [| rewrite Hnil in Hrun; discriminate].
      destruct (patchLoop_first_inl _ _ _ _ _ _ Hb Hrun)
        as (pre & prop & post & Heq & Hpre & Hbad & ->).
      rewrite filter_own_forIn in Heq. eauto 8.
    + intros [[H _] | (_ & prop & (pre & post & Heq & Hpre & Hbad) & ->)];
        [discriminate |].
      apply callable_cases in Hc as [Hb | Hnil].
      * apply (patchLoop_first _ _ _ _ pre post); try assumption.
        now rewrite filter_own_forIn.
      * unfold ownKeys in Heq. rewrite (forIn_nil_own patch Hnil) in Heq.
        now destruct pre.
  - rewrite patchLoop_hidden by assumption. split.
    + intros [= <-]. now left.
    + intros [[_ ->] | [H _]]; [reflexivity | discriminate].
Qed.

(** The loop over the records throws in two ways: on the first record,
    when the query's [hasOwnProperty] is not callable; on the first
    matching record, when the loop over the patch fails. *)
Lemma rowLoop_throws (fields : list string) (q : option object) (patch : object)
  (i : nat) (data : list record) (writes : list cellWrite)
  (changedItems : list record) (e : exn) :
  rowLoop sheetName fields q patch i data writes changedItems = inl e <->
  (callableQuery q = false /\ data <> [] /\ e = TypeError)
  \/ (callableQuery q = true
      /\ (exists dataRow, In dataRow data /\ dataMatchesQuery dataRow q = inr true)
      /\ patchFailure fields patch e).
Proof.
  revert i writes changedItems.
  induction data as [| dataRow data IH]; intros i writes changedItems; simpl.
  - split; [discriminate |].
    intros [(_ & H & _) | (_ & (r & [] & _) & _)]. congruence.
  - destruct (dataMatchesQuery_cases dataRow q) as [[Hq Hrun] | [Hq Hrun]];
      rewrite Hrun.
    + destruct (matches dataRow q) eqn:Hm.
      * destruct (patchLoop _ _ _ _ _ _) as [e' | st] eqn:Hp.
        -- split.
           ++ intros [= <-]. right. split; [exact Hq |].
              split; [exists dataRow; auto with datatypes |].
              exact (proj1 (patchLoop_throws _ _ _ _ _) Hp).
           ++ intros [(H & _) | (_ & _ & Hf)]; [congruence |].
              apply (patchLoop_throws fields patch i
                       {| updatedSomething := false;
                          updatedDataRow := dataRow;
                          updateData := writes |}) in Hf.
              congruence.
        -- rewrite IH. split.
           ++ intros [(H & _) | (_ & _ & Hf)]; [congruence |].
              apply (patchLoop_throws fields patch i
                       {| updatedSomething := false;
                          updatedDataRow := dataRow;
                          updateData := writes |}) in Hf.
              congruence.
           ++ intros [(H & _) | (_ & _ & Hf)]; [congruence |].
              apply (patchLoop_throws fields patch i
                       {| updatedSomething := false;
                          updatedDataRow := dataRow;
                          updateData := writes |}) in Hf.
              congruence.
      * rewrite IH. split.
        -- intros [(H & _) | (_ & (r & Hr & Hmr) & Hf)]; [congruence |].
           right. split; [exact Hq |]. split; [| exact Hf].
           exists r. auto with datatypes.
        -- intros [(H & _) | (_ & (r & [<- | Hr] & Hmr) & Hf)];
             [congruence | congruence |].
           right. split; [exact Hq |]. split; [| exact Hf]. eauto.
    + split.
      * intros [= <-]. left. split; [exact Hq |]. split; [discriminate | reflexivity].
      * intros [(_ & _ & ->) | (H & _)]; [reflexivity | congruence].
Qed.

Lemma rowLoop_inr (fields : list string) (q : option object) (patch : object)
  (i : nat) (data : list record) (writes ws : list cellWrite)
  (changedItems ch : list record) :
  rowLoop sheetName fields q patch i data writes changedItems = inr (ws, ch) ->
  ws = writes ++ expectedWrites sheetName fields q patch i data
  /\ ch = changedItems ++ expectedChanged q patch data
  /\ ((exists dataRow, In dataRow data /\ matches dataRow q = true) ->
      callable patch = true
      /\ forall prop, In prop (ownKeys patch) -> indexOf fields prop <> (-1)%Z)
  /\ (data <> [] -> callableQuery q = true).
Proof.
  revert i writes changedItems.
  induction data as [| dataRow data IH]; intros i writes changedItems; simpl.
  - intros [= <- <-]. unfold expectedChanged.
    split; [now rewrite app_nil_r |]. split.
    + destruct (ownKeys patch); simpl; now rewrite app_nil_r.
    + split; [intros (r & [] & _) | congruence].
  - destruct (dataMatchesQuery_cases dataRow q) as [[Hq Hrun] | [Hq Hrun]];
      rewrite Hrun; [| discriminate].
    destruct (matches dataRow q) eqn:Hm.
    + destruct (patchLoop _ _ _ _ _ _) as [e' | st] eqn:Hp; [discriminate |].
      assert (Hc : callable patch = true).
      { destruct (callable patch) eqn:Hc; [reflexivity |].
        rewrite patchLoop_hidden in Hp by assumption. discriminate. }
      pose proof (patchLoop_inr _ _ _ _ _ _ Hc Hp) as Hknown.
      rewrite patchLoop_known in Hp by assumption.
      injection Hp as <-. simpl.
      intros H. destruct (IH _ _ _ H) as (-> & -> & _).
      split; [now rewrite <- app_assoc |]. split; [| split; [| auto]].
      * unfold expectedChanged. simpl. rewrite Hm.
        destruct (ownKeys patch) eqn:Hkeys; [reflexivity |].
        rewrite <- app_assoc. simpl. unfold patched. now rewrite Hkeys.
      * intros _. split; [exact Hc | exact Hknown].
    + intros H. destruct (IH _ _ _ H) as (-> & -> & Hk & _).
      split; [reflexivity |]. split; [| split; [| auto]].
      * unfold expectedChanged. simpl. now rewrite Hm.
      * intros (r & [<- | Hr] & Hmr); [congruence |]. apply Hk. eauto.
Qed.

(** What a run of [update] that returns records has done. *)
Lemma update_returned (w w' : world) (header : list string)
  (rows : list (list string)) (q : option object) (patch : object)
  (changedItems : list record) :
  sheet w = Some (header :: rows) ->
  update q patch w = (Returned (Some changedItems), w') ->
  let fields := assignFirst header "ID" in
  let data := map (projectRow fields) rows in
  rows <> []
  /\ w' = logged w [fetch; fetch;
                    ValuesBatchUpdate spreadsheetId
                      (expectedWrites sheetName fields q patch 0 data)]
  /\ changedItems = expectedChanged q patch data
  /\ ((exists dataRow, In dataRow data /\ matches dataRow q = true) ->
      callable patch = true
      /\ forall prop, In prop (ownKeys patch) -> indexOf fields prop <> (-1)%Z)
  /\ callableQuery q = true.
Proof.
  intros Hs Hrun fields data.
  destruct rows as [| row rows].
  { rewrite (update_no_data _ _ w header q patch Hs) in Hrun. discriminate. }
  split; [discriminate |].
  rewrite (update_run _ _ w header (row :: rows) q patch Hs) in Hrun
    by discriminate.
  fold fields in Hrun. fold data in Hrun.
  destruct (rowLoop _ _ _ _ _ _ _ _) as [e | [ws ch]] eqn:Hloop;
    [discriminate |].
  injection Hrun as <- <-.
  destruct (rowLoop_inr _ _ _ _ _ _ _ _ _ Hloop) as (-> & -> & Hk & Hq).
  split; [reflexivity |]. split; [reflexivity |]. split; [exact Hk |].
  apply Hq. discriminate.
Qed.

Lemma expectedWrites_source (fields : list string) (q : option object)
  (patch : object) (start : nat) (data : list record) (wr : cellWrite) :
  In wr (expectedWrites sheetName fields q patch start data) ->
  exists i dataRow prop,
    data !! i = Some dataRow
    /\ matches dataRow q = true
    /\ In prop (ownKeys patch)
    /\ wr = {| range := cellAddress sheetName (indexOf fields prop) (start + i);
               values := getProp patch prop |}.
Proof.
  revert start. induction data as [| r data IH]; intros start; simpl.
  - intros [].
  - intros H. apply in_app_or in H as [H | H].
    + destruct (matches r q) eqn:Hm; [| destruct H].
      unfold writesOfRecord in H. apply in_map_iff in H as (prop & <- & Hprop).
      exists 0, r, prop. rewrite Nat.add_0_r. auto.
    + destruct (IH _ H) as (i & dataRow & prop & Hi & Hm & Hp & ->).
      exists (S i), dataRow, prop.
      replace (start + S i) with (S start + i) by lia. auto.
Qed.

Lemma matches_true (dataRow : record) (q : option object) :
  matches dataRow q = true <-> dataMatchesQuery dataRow q = inr true.
Proof.
  unfold matches. destruct (dataMatchesQuery dataRow q) as [e | b];
    split; intros H; congruence.
Qed.

(** X8. An update writes nowhere else than asked: every cell write of
    the batch is for a record that matches the criteria, at data position
    [i], and for a field named by the patch, at its first position [c] in
    the field list; it is addressed at column [letters c], row [i + 2],
    and carries the value that the patch gives to that field. *)
Theorem update_writes_only_matching_cells (w w' : world) (header : list string)
  (rows : list (list string)) (q : option object) (patch : object)
  (changedItems : list record) :
  sheet w = Some (header :: rows) ->
  update q patch w = (Returned (Some changedItems), w') ->
  let fields := assignFirst header "ID" in
  exists writes,
    log w' = log w ++ [fetch; fetch; ValuesBatchUpdate spreadsheetId writes]
    /\ forall wr,
        In wr writes ->
        exists i row prop c,
          rows !! i = Some row
          /\ dataMatchesQuery (projectRow fields row) q = inr true
          /\ In prop (ownKeys patch)
          /\ fields !! c = Some prop
          /\ (forall j, j < c -> fields !! j <> Some prop)
          /\ range wr
             = sheetName +:+ "!" +:+ letters (N.of_nat c)
                 +:+ decimalOfZ (Z.of_nat i + 2)
          /\ values wr = getProp patch prop.
Proof.
  intros Hs Hrun fields.
  destruct (update_returned w w' header rows q patch changedItems Hs Hrun)
    as (_ & -> & _ & Hknown & _).
  eexists. split; [reflexivity |].
  intros wr Hwr.
  destruct (expectedWrites_source _ _ _ _ _ _ Hwr)
    as (i & dataRow & prop & Hi & Hm & Hprop & ->).
  rewrite lookup_map in Hi.
  destruct (rows !! i) as [row |] eqn:Hrow; [| discriminate].
  injection Hi as <-.
  assert (Hin : In prop fields).
  { destruct (in_dec string_dec prop fields) as [Hin | Hnot]; [exact Hin |].
    apply indexOf_missing in Hnot. exfalso.
    apply (proj2 (Hknown (ex_intro _ (projectRow fields row)
             (conj (in_map _ _ _ (lookup_In _ _ _ Hrow)) Hm))) prop Hprop Hnot). }
  destruct (indexOf_found fields prop Hin) as (c & Hc & Hat & Hfirst).
  apply matches_true in Hm.
  exists i, row, prop, c. subst fields. simpl. unfold cellAddress.
  rewrite Hc, <- nat_N_Z, N2Z.id. auto 10.
Qed.

(** X9. On a range with a header row [update] throws in three cases, and
    in these only, each time after its two fetches and before any write:
    a TypeError when there is a record and the calls of the query's
    [hasOwnProperty] fail (a property of that name hides the built-in
    method, or the prototype chain ends at [null], and the query has a key
    to visit); a TypeError when a record matches and the calls of the
    patch's [hasOwnProperty] fail in the same way; the bad-field error,
    for the first field of the patch that is not in the field list, when
    a record matches and there is such a field. *)
Theorem update_throws_classified (w w' : world) (header : list string)
  (rows : list (list string)) (q : option object) (patch : object) (e : exn) :
  sheet w = Some (header :: rows) ->
  let fields := assignFirst header "ID" in
  let matching :=
    exists row,
      In row rows /\ dataMatchesQuery (projectRow fields row) q = inr true in
  update q patch w = (Thrown e, w') <->
  w' = logged w [fetch; fetch]
  /\ ((callableQuery q = false /\ rows <> [] /\ e = TypeError)
      \/ (callableQuery q = true /\ matching
          /\ callable patch = false /\ e = TypeError)
      \/ (callableQuery q = true /\ matching
          /\ callable patch = true
          /\ exists prop,
              firstUnknown fields patch prop
              /\ e = Error ("Bad field: " +:+ prop))).
Proof.
  intros Hs fields matching.
  assert (Hcases :
            rowLoop sheetName fields q patch 0 (map (projectRow fields) rows) [] []
            = inl e <->
            (callableQuery q = false /\ rows <> [] /\ e = TypeError)
            \/ (callableQuery q = true /\ matching
                /\ callable patch = false /\ e = TypeError)
            \/ (callableQuery q = true /\ matching
                /\ callable patch = true
                /\ exists prop,
                    firstUnknown fields patch prop
                    /\ e = Error ("Bad field: " +:+ prop))).
  { rewrite rowLoop_throws. unfold patchFailure.
    assert (Hm : (exists dataRow,
                     In dataRow (map (projectRow fields) rows)
                     /\ dataMatchesQuery dataRow q = inr true) <-> matching).
    { split.
      - intros (dataRow & Hin & Hd).
        apply in_map_iff in Hin as (row & <- & Hrow). exists row. auto.
      - intros (row & Hrow & Hd). exists (projectRow fields row).
        split; [now apply in_map | exact Hd]. }
    assert (Hne : map (projectRow fields) rows <> [] <-> rows <> [])
      by (destruct rows; simpl; split; congruence).
    rewrite Hm, Hne. tauto. }
  destruct rows as [| row rows].
  { rewrite (update_no_data _ _ w header q patch Hs). split; [discriminate |].
    intros (_ & [(_ & H & _) | [(_ & (r & [] & _) & _) | (_ & (r & [] & _) & _)]]).
    congruence. }
  rewrite (update_run _ _ w header (row :: rows) q patch Hs) by discriminate.
  fold fields. rewrite <- Hcases.
  destruct (rowLoop _ _ _ _ _ _ _ _) as [e' | [ws ch]].
  - split; [intros [= -> <-]; auto | intros [-> [= ->]]; reflexivity].
  - split; [discriminate | intros [_ H]; discriminate].
Qed.

(** X10. What an update reports is what a query with the same criteria
    finds: the records of that query, each with the patch applied, in the
    same order; and no record at all when the patch has no field. *)
Theorem update_reports_queried_records (w w' w'' : world)
  (header : list string) (rows : list (list string)) (q : option object)
  (patch : object) (changedItems found : list record) :
  sheet w = Some (header :: rows) ->
  update q patch w = (Returned (Some changedItems), w') ->
  query q w = (Returned found, w'') ->
  changedItems
  = match ownKeys patch with
    | [] => []
    | _ :: _ => map (patched patch) found
    end.
Proof.
  intros Hs Hrun Hq.
  destruct (update_returned w w' header rows q patch changedItems Hs Hrun)
    as (_ & _ & -> & _ & Hc).
  rewrite (query_run _ _ w header rows q Hs) in Hq.
  rewrite projectRows_filter in Hq by assumption.
  injection Hq as <- _. reflexivity.
Qed.

End Updates.

Lemma update_writes_only_matching_cells_witness :
  exists writes,
    log (snd (_update "doc" "Sheet1" (Some (plain [("ID", VString "AB12")]))
                (plain [("Status", VString "closed")]) exampleWorld))
    = [ValuesGet "doc" "Sheet1"; ValuesGet "doc" "Sheet1";
       ValuesBatchUpdate "doc" writes]
    /\ forall wr, In wr writes -> values wr = VString "closed".
Proof.
  destruct (update_writes_only_matching_cells "doc" "Sheet1" exampleWorld
              (snd (_update "doc" "Sheet1" (Some (plain [("ID", VString "AB12")]))
                      (plain [("Status", VString "closed")]) exampleWorld))
              ["Name"; "Status"] [["AB12"; "open"]]
              (Some (plain [("ID", VString "AB12")]))
              (plain [("Status", VString "closed")])
              [ {[ "ID" := Scalar (VString "AB12");
                   "Status" := Scalar (VString "closed") ]} ])
    as (writes & Hlog & Hall).
  - reflexivity.
  - vm_compute. reflexivity.
  - exists writes. split; [exact Hlog |].
    intros wr Hwr.
    destruct (Hall wr Hwr) as (i & row & prop & c & _ & _ & Hprop & _ & _ & _ & Hv).
    destruct Hprop as [<- | []]. exact Hv.
Defined.

(** A patch with an own field called [hasOwnProperty]: the update throws
    a TypeError at the first matching record. *)
Lemma update_throws_classified_witness :
  _update "doc" "Sheet1" (Some (plain [("ID", VString "AB12")]))
    (plain [("hasOwnProperty", VString "x")]) exampleWorld
  = (Thrown TypeError,
     logged exampleWorld [ValuesGet "doc" "Sheet1"; ValuesGet "doc" "Sheet1"]).
Proof.
  apply (update_throws_classified "doc" "Sheet1" exampleWorld _
           ["Name"; "Status"] [["AB12"; "open"]]
           (Some (plain [("ID", VString "AB12")]))
           (plain [("hasOwnProperty", VString "x")]) TypeError eq_refl).
  split; [reflexivity |]. right. left.
  split; [reflexivity |].
  split; [exists ["AB12"; "open"]; split; [now left | reflexivity] |].
  split; reflexivity.
Defined.

Lemma update_reports_queried_records_witness :
  [ {[ "ID" := Scalar (VString "AB12"); "Status" := Scalar (VString "closed") ]} ]
  = map (patched (plain [("Status", VString "closed")]))
      [ ({[ "ID" := Scalar (VString "AB12");
            "Status" := Scalar (VString "open") ]} : record) ].
Proof.
  apply (update_reports_queried_records "doc" "Sheet1" exampleWorld
           (snd (_update "doc" "Sheet1" (Some (plain [("ID", VString "AB12")]))
                   (plain [("Status", VString "closed")]) exampleWorld))
           (snd (_query "doc" "Sheet1" (Some (plain [("ID", VString "AB12")]))
                   exampleWorld))
           ["Name"; "Status"] [["AB12"; "open"]]
           (Some (plain [("ID", VString "AB12")]))
           (plain [("Status", VString "closed")])).
  - reflexivity.
  - vm_compute. reflexivity.
  - vm_compute. reflexivity.
Defined.

(** ** Cell addresses *)

Lemma string_app_inv_head (s a b : string) : s +:+ a = s +:+ b -> a = b.
Proof.
  induction s as [| x s IH]; [auto |].
  change (String x (s +:+ a) = String x (s +:+ b) -> a = b).
  intros [= H]. auto.
Qed.

Lemma letter_not_digit (c : ascii) :
  isUpperLetter c = true -> isDecimalDigit c = false.
Proof.
  unfold isUpperLetter, isDecimalDigit. intros H.
  apply andb_true_iff in H as [Hlo _]. apply N.leb_le in Hlo.
  apply andb_false_iff. right. apply N.leb_gt. lia.
Qed.

(** Letters followed by digits split in one way only. *)
Lemma split_letters_digits (a a' b b' : string) :
  allUpperLetters a = true -> allUpperLetters a' = true ->
  allDecimalDigits b = true -> allDecimalDigits b' = true ->
  a +:+ b = a' +:+ b' -> a = a' /\ b = b'.
Proof.
  revert a'. induction a as [| x a IH]; intros [| y a'] Ha Ha' Hb Hb' Heq.
  - auto.
  - change (b = String y (a' +:+ b')) in Heq. subst b.
    simpl in Ha', Hb. apply andb_true_iff in Ha' as [Hy _].
    apply andb_true_iff in Hb as [Hd _].
    rewrite (letter_not_digit y Hy) in Hd. discriminate.
  - change (String x (a +:+ b) = b') in Heq. subst b'.
    simpl in Ha, Hb'. apply andb_true_iff in Ha as [Hx _].
    apply andb_true_iff in Hb' as [Hd _].
    rewrite (letter_not_digit x Hx) in Hd. discriminate.
  - change (String x (a +:+ b) = String y (a' +:+ b')) in Heq.
    injection Heq as -> Heq.
    simpl in Ha, Ha'. apply andb_true_iff in Ha as [_ Ha].
    apply andb_true_iff in Ha' as [_ Ha'].
    destruct (IH a' Ha Ha' Hb Hb' Heq) as [-> ->]. auto.
Qed.

Lemma string_of_uint_digits (d : Decimal.uint) :
  allDecimalDigits (NilEmpty.string_of_uint d) = true.
Proof. induction d; simpl; auto. Qed.

Lemma decimalOfZ_inj (x y : Z) :
  (0 <= x)%Z -> (0 <= y)%Z -> decimalOfZ x = decimalOfZ y -> x = y.
Proof.
  unfold decimalOfZ. intros Hx Hy Heq.
  assert (Hu : N.to_uint (Z.to_N x) = N.to_uint (Z.to_N y)).
  { pose proof (NilEmpty.usu (N.to_uint (Z.to_N x))) as H1.
    pose proof (NilEmpty.usu (N.to_uint (Z.to_N y))) as H2.
    rewrite Heq in H1. congruence. }
  apply (f_equal N.of_uint) in Hu.
  rewrite !DecimalN.Unsigned.of_to in Hu. lia.
Qed.

Lemma cellAddress_inj (sheetName : string) (c c' : Z) (i i' : nat) :
  (0 <= c)%Z -> (0 <= c')%Z ->
  cellAddress sheetName c i = cellAddress sheetName c' i' ->
  c = c' /\ i = i'.
Proof.
  unfold cellAddress. intros Hc Hc' Heq.
  apply string_app_inv_head in Heq.
  apply (string_app_inv_head "!") in Heq.
  apply split_letters_digits in Heq as [Hl Hd];
    try apply letters_allUpper; try apply string_of_uint_digits.
  apply letters_inj in Hl.
  apply decimalOfZ_inj in Hd; lia.
Qed.

Lemma indexOf_known (fields : list string) (prop : string) :
  indexOf fields prop <> (-1)%Z ->
  exists c : nat, indexOf fields prop = Z.of_nat c /\ fields !! c = Some prop.
Proof.
  intros Hne. destruct (in_dec string_dec prop fields) as [Hin | Hnot].
  - destruct (indexOf_found fields prop Hin) as (c & Hc & Hat & _). eauto.
  - apply indexOf_missing in Hnot. contradiction.
Qed.

Lemma NoDup_map_on {A B} (f : A -> B) (l : list A) :
  (forall x y, In x l -> In y l -> f x = f y -> x = y) ->
  List.NoDup l -> List.NoDup (map f l).
Proof.
  induction l as [| a l IH]; intros Hinj Hnd; simpl; [constructor |].
  inversion Hnd as [| ? ? Hnot Hnd']; subst. constructor.
  - intros Hin. apply in_map_iff in Hin as (y & Heq & Hy).
    apply Hnot. rewrite (Hinj a y); auto with datatypes.
  - apply IH; [| exact Hnd']. intros x y Hx Hy. apply Hinj; now right.
Qed.

Section Addresses.

Variables spreadsheetId sheetName : string.

Local Abbreviation update := (_update spreadsheetId sheetName).
Local Abbreviation fetch := (ValuesGet spreadsheetId sheetName).

Lemma expectedWrites_ranges_NoDup (fields : list string) (q : option object)
  (patch : object) (start : nat) (data : list record) :
  ((exists dataRow, In dataRow data /\ matches dataRow q = true) ->
   forall prop, In prop (ownKeys patch) -> indexOf fields prop <> (-1)%Z) ->
  List.NoDup (ownKeys patch) ->
  List.NoDup (map range (expectedWrites sheetName fields q patch start data)).
Proof.
  intros Hknown Hnd. revert start Hknown.
  induction data as [| r data IH]; intros start Hknown; simpl; [constructor |].
  assert (Htail : (exists dataRow, In dataRow data
                                   /\ matches dataRow q = true) ->
                  forall prop, In prop (ownKeys patch) ->
                               indexOf fields prop <> (-1)%Z).
  { intros (x & Hx & Hm). apply Hknown. exists x. auto with datatypes. }
  rewrite map_app. apply List.NoDup_app.
  - destruct (matches r q) eqn:Hm; [| constructor].
    unfold writesOfRecord. rewrite map_map. simpl.
    apply NoDup_map_on; [| exact Hnd].
    intros x y Hx Hy Heq.
    assert (Hk : forall prop, In prop (ownKeys patch) ->
                              indexOf fields prop <> (-1)%Z)
      by (apply Hknown; exists r; auto with datatypes).
    destruct (indexOf_known fields x (Hk x Hx)) as (cx & Hcx & Hatx).
    destruct (indexOf_known fields y (Hk y Hy)) as (cy & Hcy & Haty).
    rewrite Hcx, Hcy in Heq.
    apply cellAddress_inj in Heq as [Hc _]; [| lia | lia].
    apply Nat2Z.inj in Hc. subst cy. congruence.
  - now apply IH.
  - intros a Hhead Htl.
    destruct (matches r q) eqn:Hm; [| destruct Hhead].
    apply in_map_iff in Hhead as (wr & <- & Hwr).
    unfold writesOfRecord in Hwr. apply in_map_iff in Hwr as (x & <- & Hx).
    apply in_map_iff in Htl as (wr' & Heq & Hwr').
    destruct (expectedWrites_source _ _ _ _ _ _ _ Hwr')
      as (i & dataRow & y & Hi & Hmy & Hy & ->).
    simpl in Heq.
    assert (Hk : forall prop, In prop (ownKeys patch) ->
                              indexOf fields prop <> (-1)%Z)
      by (apply Hknown; exists r; auto with datatypes).
    destruct (indexOf_known fields x (Hk x Hx)) as (cx & Hcx & _).
    destruct (indexOf_known fields y (Hk y Hy)) as (cy & Hcy & _).
    rewrite Hcx, Hcy in Heq.
    apply cellAddress_inj in Heq as [_ Hrow]; lia.
Qed.

(** X11. No cell is written twice in one batch: the addresses of the cell
    writes of an update are pairwise distinct (the patch naming each of
    its fields once, as an object does). *)
Theorem update_addresses_distinct (w w' : world) (header : list string)
  (rows : list (list string)) (q : option object) (patch : object)
  (changedItems : list record) :
  sheet w = Some (header :: rows) ->
  List.NoDup (ownKeys patch) ->
  update q patch w = (Returned (Some changedItems), w') ->
  exists writes,
    log w' = log w ++ [fetch; fetch; ValuesBatchUpdate spreadsheetId writes]
    /\ List.NoDup (map range writes).
Proof.
  intros Hs Hnd Hrun.
  destruct (update_returned _ _ w w' header rows q patch changedItems Hs Hrun)
    as (_ & -> & _ & Hknown & _).
  eexists. split; [reflexivity |].
  apply expectedWrites_ranges_NoDup; [| exact Hnd].
  intros Hm. now apply Hknown.
Qed.

End Addresses.

Lemma update_addresses_distinct_witness :
  exists writes,
    log (snd (_update "doc" "Sheet1" None
                (plain [("ID", VString "AB12"); ("Status", VString "closed")])
                exampleWorld))
    = [ValuesGet "doc" "Sheet1"; ValuesGet "doc" "Sheet1";
       ValuesBatchUpdate "doc" writes]
    /\ List.NoDup (map range writes).
Proof.
  apply (update_addresses_distinct "doc" "Sheet1" exampleWorld
           (snd (_update "doc" "Sheet1" None
                   (plain [("ID", VString "AB12"); ("Status", VString "closed")])
                   exampleWorld))
           ["Name"; "Status"] [["AB12"; "open"]] None
           (plain [("ID", VString "AB12"); ("Status", VString "closed")])
           [ {[ "ID" := Scalar (VString "AB12"); "Status" := Scalar (VString "closed") ]} ]).
  - reflexivity.
  - repeat constructor; simpl; intuition discriminate.
  - vm_compute. reflexivity.
Defined.

(** ** Inserts, whatever their outcome *)

(** X12. The identifier loop keeps the first draw whose candidate is
    free: it uses up the refused draws before it and that draw, and leaves
    the rest; it is still running at the end of the draws exactly when
    every one of them is taken. *)
Theorem proposeId_first_free (taken : string -> bool) (pending : list bytes4) :
  (forall proposedId rest,
      proposeId taken pending = Some (proposedId, rest) <->
      exists refused d,
        pending = refused ++ d :: rest
        /\ Forall (fun x => taken (candidate x) = true) refused
        /\ taken (candidate d) = false
        /\ proposedId = candidate d)
  /\ (proposeId taken pending = None <->
      Forall (fun x => taken (candidate x) = true) pending).
Proof.
  induction pending as [| d0 pending [IHsome IHnone]]; simpl.
  - split.
    + intros proposedId rest. split; [discriminate |].
      intros (refused & d & Heq & _). now destruct refused.
    + split; [constructor | reflexivity].
  - destruct (taken (candidate d0)) eqn:Ht.
    + split.
      * intros proposedId rest. rewrite IHsome. split.
        -- intros (refused & d & -> & Hall & Hfree & ->).
           exists (d0 :: refused), d. repeat split; auto.
        -- intros (refused & d & Heq & Hall & Hfree & ->).
           destruct refused as [| x refused]; simpl in Heq.
           ++ injection Heq as -> _. congruence.
           ++ injection Heq as -> ->. inversion Hall; subst.
              exists refused, d. auto.
      * rewrite IHnone. split; [now constructor | now inversion 1].
    + split.
      * intros proposedId rest. split.
        -- intros [= <- <-]. exists [], d0. auto.
        -- intros (refused & d & Heq & Hall & Hfree & ->).
           destruct refused as [| x refused]; simpl in Heq.
           ++ now injection Heq as -> ->.
           ++ injection Heq as -> _. inversion Hall; subst. congruence.
      * split; [discriminate | inversion 1; congruence].
Qed.

Lemma proposeId_first_free_witness :
  proposeId (String.eqb "00ABFF1C") (draws callerWorld)
  = Some ("12345678", []).
Proof.
  apply (proj1 (proposeId_first_free _ _)).
  exists [{| byte0 := x00; byte1 := xab; byte2 := xff; byte3 := x1c |}],
         {| byte0 := x12; byte1 := x34; byte2 := x56; byte3 := x78 |}.
  repeat split. now repeat constructor.
Defined.

Lemma hex_not_space (c : ascii) : isUpperHexDigit c = true -> isWhiteSpace c = false.
Proof.
  unfold isUpperHexDigit, isWhiteSpace. intros H.
  assert (Hge : (48 <= N_of_ascii c <= 70)%N).
  { apply orb_true_iff in H as [H | H]; apply andb_true_iff in H as [H1 H2];
      apply N.leb_le in H1, H2; lia. }
  rewrite !(proj2 (N.eqb_neq (N_of_ascii c) _)) by lia. reflexivity.
Qed.

Lemma trim_upper_hex (s : string) : allUpperHex s = true -> trim s = s.
Proof.
  intros H. unfold trim.
  assert (Hstart : trimStart s = s).
  { destruct s as [| c s]; [reflexivity |]. simpl in *.
    apply andb_true_iff in H as [Hc _]. now rewrite (hex_not_space c Hc). }
  rewrite Hstart. clear Hstart.
  induction s as [| c s IH]; [reflexivity |]. simpl in *.
  apply andb_true_iff in H as [Hc Hs]. rewrite (IH Hs).
  destruct s; [now rewrite (hex_not_space c Hc) | reflexivity].
Qed.

Section Inserts.

Variables spreadsheetId sheetName : string.

Local Abbreviation insert := (_insert spreadsheetId sheetName).
Local Abbreviation fetch := (ValuesGet spreadsheetId sheetName).

Lemma insertLoop_all_kept (fields : list string) (refs : list loc)
  (data : list dataEntry) (newRows : list (list string)) (w : world) :
  (forall l, In l refs -> getField (deref (heap w) l) "ID" <> VUndefined) ->
  insertLoop fields refs data newRows w
  = (Returned
       (newRows ++ map (fun l => convertObjectToRow fields (deref (heap w) l)) refs),
     w).
Proof.
  revert data newRows. induction refs as [| r refs IH]; intros data newRows Hall.
  - rewrite insertLoop_nil. simpl. now rewrite app_nil_r.
  - rewrite insertLoop_keep by (apply Hall; now left).
    rewrite IH by (intros l Hl; apply Hall; now right).
    simpl. now rewrite <- app_assoc.
Qed.

(** X13. When every record of the batch comes with an [ID], [insert]
    needs no random draw and always returns: after the two fetches it
    appends the converted records in one call, changes no object of the
    caller, and does not compare the identifiers with those of the range
    or with each other. An empty batch appends an empty list of rows. *)
Theorem insert_with_identifiers (w : world) (header : list string)
  (rows : list (list string)) (newData : insertArgument) :
  sheet w = Some (header :: rows) ->
  (forall l, In l (asArray newData) ->
             getField (deref (heap w) l) "ID" <> VUndefined) ->
  insert newData w
  = (Returned (asArray newData),
     logged w
       [fetch; fetch;
        ValuesAppend spreadsheetId sheetName
          (map (fun l =>
                  convertObjectToRow (assignFirst header "ID") (deref (heap w) l))
             (asArray newData))]).
Proof.
  intros Hs Hall. rewrite (insert_run _ _ w header rows newData Hs).
  rewrite insertLoop_all_kept by exact Hall.
  now rewrite logged_app.
Qed.

Lemma insertLoop_unfinished (fields : list string) (refs : list loc)
  (data : list dataEntry) (newRows : list (list string)) (w w' : world) :
  (forall e, insertLoop fields refs data newRows w <> (Thrown e, w'))
  /\ (insertLoop fields refs data newRows w = (Pending, w') ->
      sheet w' = sheet w /\ log w' = log w /\ draws w' = []
      /\ exists l, In l refs /\ getField (deref (heap w) l) "ID" = VUndefined).
Proof.
  revert data newRows w. induction refs as [| r refs IH]; intros data newRows w.
  - rewrite insertLoop_nil. split; [discriminate | discriminate].
  - destruct (undefined_or_not (getField (deref (heap w) r) "ID")) as [Hu | Hd].
    + rewrite insertLoop_generate by assumption.
      destruct (proposeId _ _) as [[proposedId ds] |].
      * destruct (IH (data ++ [Supplied r])
                    (newRows ++ [convertObjectToRow fields
                       (<["ID" := Scalar (VString proposedId)]> (deref (heap w) r))])
                    (withHeap (withDraws w ds)
                       (<[r := <["ID" := Scalar (VString proposedId)]> (deref (heap w) r)]>
                          (heap w)))) as [Hthrow Hpend].
        split; [exact Hthrow |].
        intros H. destruct (Hpend H) as (Hsh & Hlog & Hdr & l & Hl & Hlu).
        simpl in *. repeat (split; [assumption |]).
        exists l. split; [now right |].
        rewrite deref_insert in Hlu. destruct (decide (r = l)) as [-> | ne].
        -- rewrite getField_insert, decide_True in Hlu by reflexivity.
           discriminate.
        -- exact Hlu.
      * split; [discriminate |]. intros [= <-]. simpl.
        repeat (split; [reflexivity |]). exists r. auto with datatypes.
    + rewrite insertLoop_keep by assumption.
      destruct (IH (data ++ [Supplied r])
                  (newRows ++ [convertObjectToRow fields (deref (heap w) r)]) w)
        as [Hthrow Hpend].
      split; [exact Hthrow |].
      intros H. destruct (Hpend H) as (Hsh & Hlog & Hdr & l & Hl & Hlu).
      repeat (split; [assumption |]). exists l. auto with datatypes.
Qed.

(** X14. On a range with a header row [insert] throws nothing; and when
    it cannot finish, because every draw of the random source was refused
    for some record without an identifier, it has made its two fetches and
    no append: nothing reaches the range. *)
Theorem insert_unfinished_writes_nothing (w : world) (header : list string)
  (rows : list (list string)) (newData : insertArgument) :
  sheet w = Some (header :: rows) ->
  (forall e w', insert newData w <> (Thrown e, w'))
  /\ (forall w',
        insert newData w = (Pending, w') ->
        log w' = log w ++ [fetch; fetch]
        /\ existsb isRemoteWrite [fetch; fetch] = false
        /\ draws w' = []
        /\ exists l, In l (asArray newData)
                     /\ getField (deref (heap w) l) "ID" = VUndefined).
Proof.
  intros Hs. split.
  - intros e w'. rewrite (insert_run _ _ w header rows newData Hs).
    destruct (insertLoop _ _ _ _ _) as [[newRows | e' |] w1] eqn:Hloop;
      try discriminate.
    intros [= -> ->].
    now apply (proj1 (insertLoop_unfinished _ _ _ _ _ w')) in Hloop.
  - intros w'. rewrite (insert_run _ _ w header rows newData Hs).
    destruct (insertLoop _ _ _ _ _) as [[newRows | e' |] w1] eqn:Hloop;
      try discriminate.
    intros [= ->].
    destruct (proj2 (insertLoop_unfinished _ _ _ _ _ _) Hloop)
      as (_ & Hlog & Hdr & l & Hl & Hlu).
    simpl in Hlog, Hlu.
    split; [exact Hlog |]. split; [reflexivity |]. split; [exact Hdr |].
    exists l. split; [exact Hl | exact Hlu].
Qed.

(** X15. The rows that [insert] appends are as wide as the field list,
    one per record and in the order of the records, and the first cell of
    each is the record's identifier, as a trimmed string (empty for
    [null]); for a record that was given an identifier by the loop, the
    first cell is that identifier, character for character. *)
Theorem insert_appends_identified_rows (w w' : world) (header : list string)
  (rows : list (list string)) (newData : insertArgument) (out : list loc) :
  sheet w = Some (header :: rows) ->
  insert newData w = (Returned out, w') ->
  exists newRows,
    log w' = log w ++ [fetch; fetch; ValuesAppend spreadsheetId sheetName newRows]
    /\ length newRows = length (asArray newData)
    /\ forall j l,
        asArray newData !! j = Some l ->
        exists row,
          newRows !! j = Some row
          /\ length row = Nat.max 1 (length header)
          /\ row !! 0
             = Some (if notNullish (getField (deref (heap w') l) "ID")
                     then trim (toString (getField (deref (heap w') l) "ID"))
                     else "")
          /\ (getField (deref (heap w) l) "ID" = VUndefined ->
              exists proposedId,
                getField (deref (heap w') l) "ID" = VString proposedId
                /\ row !! 0 = Some proposedId).
Proof.
  intros Hs Hrun.
  destruct (insert_returned _ _ w w' header rows newData out Hs Hrun)
    as (_ & newRows & w1 & Hloop & ->).
  destruct (insertLoop_frame _ _ _ _ _ _ _ Hloop) as [_ Hlog].
  pose proof (insertLoop_rows _ _ _ _ _ _ _ Hloop) as Hrows. simpl in Hrows.
  exists newRows. split; [simpl; rewrite Hlog; simpl; now rewrite <- app_assoc |].
  split; [rewrite Hrows; apply length_map |].
  intros j l Hj. simpl.
  exists (convertObjectToRow (assignFirst header "ID") (deref (heap w1) l)).
  split; [rewrite Hrows, lookup_map, Hj; reflexivity |].
  split; [rewrite convertObjectToRow_length; apply assignFirst_length |].
  assert (Hfirst : convertObjectToRow (assignFirst header "ID")
                     (deref (heap w1) l) !! 0
                   = Some (if notNullish (getField (deref (heap w1) l) "ID")
                           then trim (toString (getField (deref (heap w1) l) "ID"))
                           else "")).
  { now destruct header. }
  split; [exact Hfirst |].
  intros Hu.
  destruct (insertLoop_heap _ _ _ _ _ _ _ Hloop l) as [_ Hnew].
  destruct (Hnew Hu (lookup_In _ _ _ Hj)) as (d & _ & Hheap).
  assert (Hid : getField (deref (heap w1) l) "ID" = VString (candidate d)).
  { unfold deref. rewrite Hheap. simpl.
    now rewrite getField_insert, decide_True by reflexivity. }
  exists (candidate d). split; [exact Hid |].
  rewrite Hfirst, Hid. simpl.
  now rewrite trim_upper_hex by apply candidate_shape.
Qed.

End Inserts.

Lemma insert_with_identifiers_witness :
  _insert "doc" "Sheet1" (One 1) callerWorld
  = (Returned [1],
     logged callerWorld
       [ValuesGet "doc" "Sheet1"; ValuesGet "doc" "Sheet1";
        ValuesAppend "doc" "Sheet1"
          [convertObjectToRow ["ID"; "Status"] (deref (heap callerWorld) 1)]]).
Proof.
  apply (insert_with_identifiers "doc" "Sheet1" callerWorld ["Name"; "Status"]
           [["AB12"; "open"]] (One 1)).
  - reflexivity.
  - intros l [<- | []]. vm_compute. discriminate.
Defined.

Lemma insert_unfinished_writes_nothing_witness :
  log (snd (_insert "doc" "Sheet1" (One 0) (withDraws callerWorld [])))
  = [ValuesGet "doc" "Sheet1"; ValuesGet "doc" "Sheet1"].
Proof.
  apply (proj2 (insert_unfinished_writes_nothing "doc" "Sheet1"
                  (withDraws callerWorld []) ["Name"; "Status"]
                  [["AB12"; "open"]] (One 0) eq_refl)).
  vm_compute. reflexivity.
Defined.

Lemma insert_appends_identified_rows_witness :
  exists newRows,
    log (snd (_insert "doc" "Sheet1" (One 0) callerWorld))
    = [ValuesGet "doc" "Sheet1"; ValuesGet "doc" "Sheet1";
       ValuesAppend "doc" "Sheet1" newRows]
    /\ length newRows = 1.
Proof.
  destruct (insert_appends_identified_rows "doc" "Sheet1" callerWorld
              (snd (_insert "doc" "Sheet1" (One 0) callerWorld))
              ["Name"; "Status"] [["AB12"; "open"]] (One 0) [0])
    as (newRows & Hlog & Hlen & _).
  - reflexivity.
  - vm_compute. reflexivity.
  - exists newRows. split; [exact Hlog | exact Hlen].
Defined.

(** ** The records that an update reports *)

Lemma patched_dom (patch : object) (dataRow : record) :
  dom (patched patch dataRow)
  =@{gset string}
  dom dataRow
    ∪ list_to_set
        (List.filter (fun name => negb (String.eqb name "__proto__"))
           (ownKeys patch)).
Proof.
  unfold patched. generalize (ownKeys patch) as keys. intros keys.
  revert dataRow. induction keys as [| k keys IH]; intros dataRow; simpl.
  - set_solver.
  - rewrite IH. unfold assign.
    destruct (String.eqb k "__proto__"); simpl.
    + reflexivity.
    + rewrite dom_insert_L. set_solver.
Qed.

Section UpdatedRecords.

Variables spreadsheetId sheetName : string.

Local Abbreviation update := (_update spreadsheetId sheetName).

(** X16. The records that an update reports have as their keys exactly
    the names of the field list other than [__proto__]: applying the patch
    adds no field, and neither a column nor a patch field called
    [__proto__] makes a property. *)
Theorem updated_records_keep_the_fields (w w' : world) (header : list string)
  (rows : list (list string)) (q : option object) (patch : object)
  (changedItems : list record) :
  sheet w = Some (header :: rows) ->
  update q patch w = (Returned (Some changedItems), w') ->
  forall item,
    In item changedItems ->
    dom item
    =@{gset string}
    list_to_set
      (List.filter (fun name => negb (String.eqb name "__proto__"))
         (assignFirst header "ID"))
    /\ item !! "__proto__" = None.
Proof.
  intros Hs Hrun item Hitem.
  destruct (update_returned _ _ w w' header rows q patch changedItems Hs Hrun)
    as (_ & _ & -> & Hknown & _).
  assert (Hitem' : In item
            (map (patched patch)
               (List.filter (fun dataRow => matches dataRow q)
                  (map (projectRow (assignFirst header "ID")) rows)))).
  { unfold expectedChanged in Hitem.
    destruct (ownKeys patch); [destruct Hitem | exact Hitem]. }
  clear Hitem. apply in_map_iff in Hitem' as (dataRow & <- & Hin).
  apply filter_In in Hin as [Hin Hm].
  assert (Hk : forall prop, In prop (ownKeys patch) ->
                            In prop (assignFirst header "ID")).
  { intros prop Hprop.
    destruct (indexOf_known _ prop
                (proj2 (Hknown (ex_intro _ dataRow (conj Hin Hm))) prop Hprop))
      as (c & _ & Hat).
    now apply lookup_In in Hat. }
  apply in_map_iff in Hin as (row & <- & _). split.
  - rewrite patched_dom. unfold projectRow. rewrite forEachField_dom.
    assert (Hsub : list_to_set
                     (List.filter (fun name => negb (String.eqb name "__proto__"))
                        (ownKeys patch))
                   ⊆@{gset string}
                   list_to_set
                     (List.filter (fun name => negb (String.eqb name "__proto__"))
                        (assignFirst header "ID"))).
    { intros x Hx. apply elem_of_list_to_set in Hx. apply elem_of_list_to_set.
      apply list_elem_of_In. apply list_elem_of_In in Hx.
      apply filter_In in Hx as [Hx Hne]. apply filter_In. auto. }
    set_solver.
  - rewrite (proj2 (patched_lookup patch _ "__proto__")) by now right.
    unfold projectRow. now rewrite forEachField_proto.
Qed.

End UpdatedRecords.

Lemma updated_records_keep_the_fields_witness :
  dom ({[ "ID" := Scalar (VString "AB12");
          "Status" := Scalar (VString "closed") ]} : record)
  =@{gset string} list_to_set ["ID"; "Status"].
Proof.
  apply (updated_records_keep_the_fields "doc" "Sheet1" exampleWorld
           (snd (_update "doc" "Sheet1" (Some (plain [("ID", VString "AB12")]))
                   (plain [("Status", VString "closed")]) exampleWorld))
           ["Name"; "Status"] [["AB12"; "open"]]
           (Some (plain [("ID", VString "AB12")]))
           (plain [("Status", VString "closed")])
           [ {[ "ID" := Scalar (VString "AB12");
                "Status" := Scalar (VString "closed") ]} ]).
  - reflexivity.
  - vm_compute. reflexivity.
  - now left.
Defined.

(** ** The reads on concrete ranges *)

Lemma query_returns_matching_rows_witness :
  _query "doc" "Sheet1" (Some (plain [("Status", VString "closed")])) exampleWorld
  = (Returned [], logged exampleWorld [ValuesGet "doc" "Sheet1"])
  /\ _query "doc" "Sheet1" (Some (plain [("hasOwnProperty", VString "x")]))
       exampleWorld
     = (Thrown TypeError, logged exampleWorld [ValuesGet "doc" "Sheet1"]).
Proof.
  split.
  - destruct (query_returns_matching_rows "doc" "Sheet1" exampleWorld
                ["Name"; "Status"] [["AB12"; "open"]]
                (Some (plain [("Status", VString "closed")])) eq_refl)
      as (_ & Hq & _).
    destruct (Hq eq_refl) as [Hrun _]. exact Hrun.
  - destruct (query_returns_matching_rows "doc" "Sheet1" exampleWorld
                ["Name"; "Status"] [["AB12"; "open"]]
                (Some (plain [("hasOwnProperty", VString "x")])) eq_refl)
      as (_ & _ & Hq & _).
    apply Hq; [reflexivity | discriminate].
Defined.

Lemma range_without_header_throws_witness :
  _fields "doc" "Sheet1" emptyRangeWorld
  = (Thrown TypeError, logged emptyRangeWorld [ValuesGet "doc" "Sheet1"]).
Proof.
  apply (range_without_header_throws "doc" "Sheet1" emptyRangeWorld None
           (plain []) (Many [])).
  now right.
Defined.

Lemma queried_records_have_the_fields_witness :
  dom ({[ "ID" := Scalar (VString "AB12"); "Status" := Scalar (VString "open") ]} : record)
  =@{gset string} list_to_set ["ID"; "Status"].
Proof.
  apply (queried_records_have_the_fields "doc" "Sheet1" exampleWorld
           (snd (_query "doc" "Sheet1" None exampleWorld))
           ["Name"; "Status"] [["AB12"; "open"]] None
           [ {[ "ID" := Scalar (VString "AB12"); "Status" := Scalar (VString "open") ]} ]).
  - reflexivity.
  - vm_compute. reflexivity.
  - now left.
Defined.
